(** * sqlparser: a shallow embedding of the lexer and parser

    The Go package [sqlparser] (files [lexer.go] and [parser.go]) scans a
    dump of [CREATE TABLE] statements into tokens and parses them into a
    [Schema].  This file embeds both layers as Rocq functions and states
    the properties of the specification over them.

    Conventions.
    - A rune is an [ascii] character; the reader's input is the sequence of
      runes that [bufio.Reader.ReadRune] delivers, as a [string].  Every
      rune the lexer distinguishes is below 128.
    - Go's [for { ... }] loops run on a [fuel : nat]; [None] means that the
      loop was still running when the fuel ran out, so "for every fuel the
      result is [None]" says that the Go code does not return.
    - Go's [(value, error)] results are the sum [result]. *)

From Stdlib Require Import String Ascii ZArith Lia Bool List.
From stdpp Require Import gmap strings.

Open Scope string_scope.
Open Scope char_scope.

(** ** Tokens ([lexer.go], lines 16-74) *)

Inductive Token : Set :=
  | ILLEGAL | EOF | ANNOTATION | WS
  | STRING | IDENT
  | COMMA | BACKTICK | SEMI_COLON | OPEN_PAREN | CLOSE_PAREN
  | SIZE | BIT | TINYINT | SMALLINT | INT | BIGINT | FLOAT | DOUBLE
  | LONGTEXT | MEDIUMTEXT | VARCHAR | DATE | TIME | DATETIME | TIMESTAMP
  | DROP | LOCK | UNLOCK | TABLES | WRITE | IF_ | EXISTS | EQUAL | CREATE
  | TABLE | DEFAULT | NOT | NULL | COMMENT | KEY | UNIQUE | CONSTRAINT
  | PRIMARY | FOREIGN | REFERENCES | AUTO_INCREMENT | CURRENT_TIMESTAMP.

(** The [iota] value of each constant; [scanType] compares tokens by it. *)
Definition Token_iota (t : Token) : Z :=
  match t with
  | ILLEGAL => 0 | EOF => 1 | ANNOTATION => 2 | WS => 3
  | STRING => 4 | IDENT => 5
  | COMMA => 6 | BACKTICK => 7 | SEMI_COLON => 8 | OPEN_PAREN => 9
  | CLOSE_PAREN => 10
  | SIZE => 11 | BIT => 12 | TINYINT => 13 | SMALLINT => 14 | INT => 15
  | BIGINT => 16 | FLOAT => 17 | DOUBLE => 18 | LONGTEXT => 19
  | MEDIUMTEXT => 20 | VARCHAR => 21 | DATE => 22 | TIME => 23
  | DATETIME => 24 | TIMESTAMP => 25
  | DROP => 26 | LOCK => 27 | UNLOCK => 28 | TABLES => 29 | WRITE => 30
  | IF_ => 31 | EXISTS => 32 | EQUAL => 33 | CREATE => 34 | TABLE => 35
  | DEFAULT => 36 | NOT => 37 | NULL => 38 | COMMENT => 39 | KEY => 40
  | UNIQUE => 41 | CONSTRAINT => 42 | PRIMARY => 43 | FOREIGN => 44
  | REFERENCES => 45 | AUTO_INCREMENT => 46 | CURRENT_TIMESTAMP => 47
  end.

Definition Token_eqb (a b : Token) : bool := (Token_iota a =? Token_iota b)%Z.

#[global] Instance Token_eq_dec : EqDecision Token.
Proof. solve_decision. Defined.

(** ** Character classes ([lexer.go], lines 76-94) *)

Definition rune := ascii.

Definition eof : rune := "000".

Definition rune_le (a b : rune) : bool := (nat_of_ascii a <=? nat_of_ascii b)%nat.

Definition isWhitespace (ch : rune) : bool :=
  Ascii.eqb ch " " || Ascii.eqb ch "009" || Ascii.eqb ch "010".

Definition isLetter (ch : rune) : bool :=
  (rune_le "a" ch && rune_le ch "z") || (rune_le "A" ch && rune_le ch "Z").

Definition isDigit (ch : rune) : bool :=
  rune_le "0" ch && rune_le ch "9".

Definition isString (ch : rune) : bool := Ascii.eqb ch "'".

(** ** The buffered reader ([bufio.Reader], as [read] and [unread] use it)

    [rest] is the input not yet read.  [last] is the rune that
    [UnreadRune] can give back: it is set by a successful [ReadRune] and
    cleared by a failed one and by [UnreadRune] itself, which therefore
    does nothing when called twice in a row or after a read at the end of
    the input. *)

Record Scanner : Set := mkScanner { last : option rune; rest : string }.

Definition NewScanner (input : string) : Scanner :=
  {| last := None; rest := input |}.

Definition read (s : Scanner) : rune * Scanner :=
  match rest s with
  | EmptyString => (eof, {| last := None; rest := EmptyString |})
  | String ch r => (ch, {| last := Some ch; rest := r |})
  end.

Definition unread (s : Scanner) : Scanner :=
  match last s with
  | Some ch => {| last := None; rest := String ch (rest s) |}
  | None => s
  end.

(** [buf.WriteRune(ch)]: append one rune to the buffer. *)
Definition WriteRune (buf : string) (ch : rune) : string :=
  buf ++ String ch EmptyString.

(** [string(ch)] *)
Definition string_of_rune (ch : rune) : string := String ch EmptyString.

(** ** Token scanners ([lexer.go], lines 113-270) *)

Fixpoint scanWhitespace_loop (fuel : nat) (buf : string) (s : Scanner)
  : option (string * Scanner) :=
  match fuel with
  | O => None
  | S fuel' =>
      let (ch, s1) := read s in
      if Ascii.eqb ch eof then Some (buf, s1)
      else if negb (isWhitespace ch) then Some (buf, unread s1)
      else scanWhitespace_loop fuel' (WriteRune buf ch) s1
  end.

Definition scanWhitespace (fuel : nat) (s : Scanner)
  : option (Token * string * Scanner) :=
  let (ch, s1) := read s in
  match scanWhitespace_loop fuel (WriteRune EmptyString ch) s1 with
  | Some (buf, s2) => Some (WS, buf, s2)
  | None => None
  end.

Fixpoint scanDigit_loop (fuel : nat) (buf : string) (s : Scanner)
  : option (string * Scanner) :=
  match fuel with
  | O => None
  | S fuel' =>
      let (ch, s1) := read s in
      if Ascii.eqb ch eof then Some (buf, s1)
      else if negb (isDigit ch) then Some (buf, unread s1)
      else scanDigit_loop fuel' (WriteRune buf ch) s1
  end.

Definition scanDigit (fuel : nat) (s : Scanner)
  : option (Token * string * Scanner) :=
  let (ch, s1) := read s in
  match scanDigit_loop fuel (WriteRune EmptyString ch) s1 with
  | Some (buf, s2) => Some (SIZE, buf, s2)
  | None => None
  end.

(** The closure [readString] of [scanString]. *)
Fixpoint readString (fuel : nat) (c : rune) (buf : string) (s : Scanner)
  : option (string * Scanner) :=
  match fuel with
  | O => None
  | S fuel' =>
      let (ch, s1) := read s in
      if Ascii.eqb ch c then Some (buf, s1)
      else readString fuel' c (WriteRune buf ch) s1
  end.

Definition scanString (fuel : nat) (s : Scanner)
  : option (Token * string * Scanner) :=
  let (ch, s1) := read s in
  if Ascii.eqb ch "`" then
    match readString fuel "`" EmptyString s1 with
    | Some (buf, s2) => Some (IDENT, buf, s2)
    | None => None
    end
  else if Ascii.eqb ch "'" then
    match readString fuel "'" EmptyString s1 with
    | Some (buf, s2) => Some (STRING, buf, s2)
    | None => None
    end
  else Some (ILLEGAL, string_of_rune ch, s1).

Fixpoint scanInlineComment (fuel : nat) (s : Scanner)
  : option (Token * string * Scanner) :=
  match fuel with
  | O => None
  | S fuel' =>
      let (ch, s1) := read s in
      if Ascii.eqb ch eof then Some (ILLEGAL, EmptyString, s1)
      else if Ascii.eqb ch "*" then
        let (c, s2) := read s1 in
        if Ascii.eqb c "/" then Some (ANNOTATION, EmptyString, s2)
        else scanInlineComment fuel' s2
      else scanInlineComment fuel' s1
  end.

(** [strings.ToUpper] on the strings [scanIdent] builds (ASCII letters,
    digits and underscores). *)
Definition upper_rune (ch : rune) : rune :=
  if rune_le "a" ch && rune_le ch "z"
  then ascii_of_nat (nat_of_ascii ch - 32)
  else ch.

Fixpoint ToUpper (s : string) : string :=
  match s with
  | EmptyString => EmptyString
  | String ch r => String (upper_rune ch) (ToUpper r)
  end.

(** The keyword [switch] of [scanIdent]. *)
Definition keyword (upper : string) : Token :=
  if String.eqb upper "DROP" then DROP
  else if String.eqb upper "IF" then IF_
  else if String.eqb upper "EXISTS" then EXISTS
  else if String.eqb upper "LOCK" then LOCK
  else if String.eqb upper "UNLOCK" then UNLOCK
  else if String.eqb upper "TABLES" then TABLES
  else if String.eqb upper "WRITE" then WRITE
  else if String.eqb upper "CREATE" then CREATE
  else if String.eqb upper "TABLE" then TABLE
  else if String.eqb upper "NOT" then NOT
  else if String.eqb upper "NULL" then NULL
  else if String.eqb upper "DEFAULT" then DEFAULT
  else if String.eqb upper "COMMENT" then COMMENT
  else if String.eqb upper "KEY" then KEY
  else if String.eqb upper "UNIQUE" then UNIQUE
  else if String.eqb upper "CONSTRAINT" then CONSTRAINT
  else if String.eqb upper "PRIMARY" then PRIMARY
  else if String.eqb upper "FOREIGN" then FOREIGN
  else if String.eqb upper "REFERENCES" then REFERENCES
  else if String.eqb upper "AUTO_INCREMENT" then AUTO_INCREMENT
  else if String.eqb upper "CURRENT_TIMESTAMP" then CURRENT_TIMESTAMP
  else if String.eqb upper "BIT" then BIT
  else if String.eqb upper "TINYINT" then TINYINT
  else if String.eqb upper "SMALLINT" then SMALLINT
  else if String.eqb upper "INT" then INT
  else if String.eqb upper "BIGINT" then BIGINT
  else if String.eqb upper "FLOAT" then FLOAT
  else if String.eqb upper "DOUBLE" then DOUBLE
  else if String.eqb upper "VARCHAR" then VARCHAR
  else if String.eqb upper "LONGTEXT" then LONGTEXT
  else if String.eqb upper "MEDIUMTEXT" then MEDIUMTEXT
  else if String.eqb upper "DATE" then DATE
  else if String.eqb upper "TIME" then TIME
  else if String.eqb upper "DATETIME" then DATETIME
  else if String.eqb upper "TIMESTAMP" then TIMESTAMP
  else IDENT.

Fixpoint scanIdent_loop (fuel : nat) (buf : string) (s : Scanner)
  : option (string * Scanner) :=
  match fuel with
  | O => None
  | S fuel' =>
      let (ch, s1) := read s in
      if Ascii.eqb ch eof then Some (buf, s1)
      else if negb (isLetter ch) && negb (isDigit ch) && negb (Ascii.eqb ch "_")
      then Some (buf, unread s1)
      else scanIdent_loop fuel' (WriteRune buf ch) s1
  end.

Definition scanIdent (fuel : nat) (s : Scanner)
  : option (Token * string * Scanner) :=
  let (ch, s1) := read s in
  match scanIdent_loop fuel (WriteRune EmptyString ch) s1 with
  | Some (buf, s2) => Some (keyword (ToUpper buf), buf, s2)
  | None => None
  end.

(** ** [Scan] ([lexer.go], lines 273-323) *)

(** The [for] loop of the line-comment case: read until a newline. *)
Fixpoint scanLineComment (fuel : nat) (s : Scanner)
  : option (Token * string * Scanner) :=
  match fuel with
  | O => None
  | S fuel' =>
      let (c, s1) := read s in
      if Ascii.eqb c "010" then Some (ANNOTATION, EmptyString, s1)
      else scanLineComment fuel' s1
  end.

Definition Scan (fuel : nat) (s : Scanner) : option (Token * string * Scanner) :=
  let (ch, s1) := read s in
  if isWhitespace ch then scanWhitespace fuel (unread s1)
  else if isLetter ch then scanIdent fuel (unread s1)
  else if isDigit ch then scanDigit fuel (unread s1)
  else if Ascii.eqb ch "'" || Ascii.eqb ch "`" then scanString fuel (unread s1)
  else if Ascii.eqb ch "/" then
    let (c, s2) := read s1 in
    if Ascii.eqb c "*" then scanInlineComment fuel (unread (unread s2))
    else Some (ILLEGAL, string_of_rune ch, unread s2)
  else if Ascii.eqb ch eof then Some (EOF, "EOF"%string, s1)
  else if Ascii.eqb ch "," then Some (COMMA, ","%string, s1)
  else if Ascii.eqb ch "(" then Some (OPEN_PAREN, "("%string, s1)
  else if Ascii.eqb ch ")" then Some (CLOSE_PAREN, ")"%string, s1)
  else if Ascii.eqb ch ";" then Some (SEMI_COLON, ";"%string, s1)
  else if Ascii.eqb ch "=" then Some (EQUAL, "="%string, s1)
  else if Ascii.eqb ch "-" then
    let (c, s2) := read s1 in
    if Ascii.eqb c "-" then scanLineComment fuel s2
    else Some (ILLEGAL, string_of_rune ch, s2)
  else Some (ILLEGAL, string_of_rune ch, s1).

(** The token sequence of an input up to [EOF], as the lexer test reads it. *)
Fixpoint tokens (n fuel : nat) (s : Scanner) : option (list Token) :=
  match n with
  | O => None
  | S n' =>
      match Scan fuel s with
      | None => None
      | Some (tok, _, s') =>
          if Token_eqb tok EOF then Some nil
          else match tokens n' fuel s' with
               | Some l => Some (tok :: l)
               | None => None
               end
      end
  end.

Definition nl : string := String "010" EmptyString.

Definition lexer_test_input : string :=
  "--this is a comment" ++ nl ++
  "DROP TABLE IF EXISTS `user`;" ++ nl ++
  "/* this is an inline comment */" ++ nl ++
  "CREATE TABLE `user` (" ++ nl ++
  "  `id` bigint(20) NOT NULL AUTO_INCREMENT," ++ nl ++
  "  `username` varchar(20) DEFAULT NULL" ++ nl ++
  ") ENGINE=InnoDB DEFAULT CHARSET=utf8;".

(** ** Data model ([parser.go], lines 9-50) *)

(** [Default interface{}] only ever holds [nil] or a string. *)
Record Column : Type := mkColumn {
  Column_Name : string;
  Column_Type : string;
  Column_Size : Z;
  Column_Default : option string;
  Column_Comment : string;
  Column_Nullable : bool;
  Column_AutoIncr : bool
}.

Record Constraint : Type := mkConstraint {
  Constraint_Index : string;
  Constraint_ForeignKey : string;
  Constraint_TableName : string;
  Constraint_ColumnName : string
}.

Record Table : Type := mkTable {
  Table_Name : string;
  Table_Columns : gmap string Column;
  Table_PrimaryKey : string;
  Table_UniqueKeys : gmap string string;
  Table_Keys : gmap string string;
  Table_Constraints : gmap string Constraint;
  Table_Extras : gmap string string
}.

Abbreviation Schema := (gmap string Table).

(** The parser: its scanner and the one-token buffer [buf]. *)
Record Parser : Set := mkParser {
  s : Scanner;
  buf_tok : Token;
  buf_lit : string;
  buf_n : Z
}.

(** An error made by [fmt.Errorf]: the format string and its operands. *)
Inductive fmtarg : Set :=
  | ArgLit (lit : string)
  | ArgTok (tok : Token).

Record error : Set := Errorf { format : string; args : list fmtarg }.

Inductive result (A : Type) : Type :=
  | Ok (a : A)
  | Err (e : error).
Arguments Ok {A} a.
Arguments Err {A} e.

(** The zero values [&Column{}] and [&Constraint{}], and the table that
    [parse] starts from. *)
Definition Column_zero : Column :=
  mkColumn EmptyString EmptyString 0 None EmptyString false false.

Definition Table_new : Table :=
  mkTable EmptyString ∅ EmptyString ∅ ∅ ∅ ∅.

Definition set_Nullable (b : bool) (c : Column) : Column :=
  mkColumn (Column_Name c) (Column_Type c) (Column_Size c) (Column_Default c)
           (Column_Comment c) b (Column_AutoIncr c).

Definition set_Default (v : string) (c : Column) : Column :=
  mkColumn (Column_Name c) (Column_Type c) (Column_Size c) (Some v)
           (Column_Comment c) (Column_Nullable c) (Column_AutoIncr c).

Definition set_Comment (v : string) (c : Column) : Column :=
  mkColumn (Column_Name c) (Column_Type c) (Column_Size c) (Column_Default c)
           v (Column_Nullable c) (Column_AutoIncr c).

Definition set_AutoIncr (b : bool) (c : Column) : Column :=
  mkColumn (Column_Name c) (Column_Type c) (Column_Size c) (Column_Default c)
           (Column_Comment c) (Column_Nullable c) b.

Definition set_Name (n : string) (t : Table) : Table :=
  mkTable n (Table_Columns t) (Table_PrimaryKey t) (Table_UniqueKeys t)
          (Table_Keys t) (Table_Constraints t) (Table_Extras t).

Definition set_Columns (m : gmap string Column) (t : Table) : Table :=
  mkTable (Table_Name t) m (Table_PrimaryKey t) (Table_UniqueKeys t)
          (Table_Keys t) (Table_Constraints t) (Table_Extras t).

Definition set_PrimaryKey (k : string) (t : Table) : Table :=
  mkTable (Table_Name t) (Table_Columns t) k (Table_UniqueKeys t)
          (Table_Keys t) (Table_Constraints t) (Table_Extras t).

Definition set_UniqueKeys (m : gmap string string) (t : Table) : Table :=
  mkTable (Table_Name t) (Table_Columns t) (Table_PrimaryKey t) m
          (Table_Keys t) (Table_Constraints t) (Table_Extras t).

Definition set_Keys (m : gmap string string) (t : Table) : Table :=
  mkTable (Table_Name t) (Table_Columns t) (Table_PrimaryKey t)
          (Table_UniqueKeys t) m (Table_Constraints t) (Table_Extras t).

Definition set_Constraints (m : gmap string Constraint) (t : Table) : Table :=
  mkTable (Table_Name t) (Table_Columns t) (Table_PrimaryKey t)
          (Table_UniqueKeys t) (Table_Keys t) m (Table_Extras t).

Definition set_Extras (m : gmap string string) (t : Table) : Table :=
  mkTable (Table_Name t) (Table_Columns t) (Table_PrimaryKey t)
          (Table_UniqueKeys t) (Table_Keys t) (Table_Constraints t) m.

(** The map [Type] filled by [init]; a missing key reads as the empty string. *)
Definition Type_ (tok : Token) : string :=
  match tok with
  | BIT => "bit" | TINYINT => "tinyint" | SMALLINT => "smallint"
  | INT => "int" | BIGINT => "bigint" | FLOAT => "float"
  | DOUBLE => "double" | VARCHAR => "varchar" | LONGTEXT => "longtext"
  | MEDIUMTEXT => "mediumtext" | DATE => "date" | TIME => "time"
  | DATETIME => "datetime" | TIMESTAMP => "timestamp"
  | _ => EmptyString
  end%string.

(** [strconv.Atoi] on a 64-bit platform: the value of a string of decimal
    digits, [2^63 - 1] when it does not fit, [0] on a syntax error.  The
    parser only passes it the literal of a [SIZE] token, so signs never
    occur. *)
Definition maxInt : Z := 9223372036854775807.

Fixpoint Atoi_digits (acc : Z) (str : string) : option Z :=
  match str with
  | EmptyString => Some acc
  | String ch r =>
      if isDigit ch
      then Atoi_digits (10 * acc + (Z.of_nat (nat_of_ascii ch) - 48)) r
      else None
  end.

Definition Atoi (str : string) : Z :=
  match str with
  | EmptyString => 0
  | _ => match Atoi_digits 0 str with
         | Some v => if (v <=? maxInt)%Z then v else maxInt
         | None => 0
         end
  end.

(** ** The parser's computations

    A method of [*Parser] takes the parser state and, when it returns,
    gives a value and the new state. *)

Definition M (A : Type) : Type := Parser -> option (A * Parser).

Definition ret {A} (a : A) : M A := fun p => Some (a, p).

Definition bind {A B} (m : M A) (k : A -> M B) : M B :=
  fun p => match m p with
           | Some (a, p') => k a p'
           | None => None
           end.

Notation "'do' x <- m ; k" := (bind m (fun x => k))
  (at level 10, x pattern, m at level 100, k at level 200).

(** ** Token primitives ([parser.go], lines 74-106) *)

Definition NewParser (input : string) : Parser :=
  {| s := NewScanner input; buf_tok := ILLEGAL; buf_lit := EmptyString; buf_n := 0 |}.

Definition scan (fuel : nat) : M (Token * string) :=
  fun p =>
    if negb (buf_n p =? 0)%Z then
      Some ((buf_tok p, buf_lit p),
            {| s := s p; buf_tok := buf_tok p; buf_lit := buf_lit p; buf_n := 0 |})
    else
      match Scan fuel (s p) with
      | Some (tok, lit, s') =>
          Some ((tok, lit), {| s := s'; buf_tok := tok; buf_lit := lit; buf_n := 0 |})
      | None => None
      end.

Definition unscan : M unit :=
  fun p => Some (tt, {| s := s p; buf_tok := buf_tok p; buf_lit := buf_lit p; buf_n := 1 |}).

Definition scanIgnoreWhitespace (fuel : nat) : M (Token * string) :=
  do (tok, lit) <- scan fuel;
  if Token_eqb tok WS || Token_eqb tok ANNOTATION
  then scan fuel
  else ret (tok, lit).

Definition Parser_scanIdent (fuel : nat) : M (Token * string) :=
  do (tok, lit) <- scanIgnoreWhitespace fuel;
  if negb (Token_eqb tok IDENT) then ret (ILLEGAL, lit) else ret (tok, lit).

(** ** Grammar rules ([parser.go], lines 108-330) *)

Definition is_datatype (tok : Token) : bool :=
  (Token_iota BIT <=? Token_iota tok)%Z && (Token_iota tok <=? Token_iota TIMESTAMP)%Z.

Definition scanType (fuel : nat) : M (result (string * Z)) :=
  do (tok, lit) <- scanIgnoreWhitespace fuel;
  if is_datatype tok then
    do (tok1, lit1) <- scanIgnoreWhitespace fuel;
    if negb (Token_eqb tok1 OPEN_PAREN) then
      do _ <- unscan;
      ret (Ok (Type_ tok, 0%Z))
    else
      do (tok2, lit2) <- scanIgnoreWhitespace fuel;
      do (tok3, lit3) <- scanIgnoreWhitespace fuel;
      if negb (Token_eqb tok2 SIZE) || negb (Token_eqb tok3 CLOSE_PAREN) then
        ret (Err (Errorf "found %q, expected type(integer)"
                         [ArgLit (lit ++ lit1 ++ lit2 ++ lit3)]))
      else ret (Ok (Type_ tok, Atoi lit2))
  else ret (Err (Errorf "found %q, expected type" [ArgLit lit])).

Definition scanDefault (fuel : nat) : M (result string) :=
  do (tok, lit) <- scanIgnoreWhitespace fuel;
  if negb (Token_eqb tok DEFAULT) then
    ret (Err (Errorf "found %q, expected DEFAULT" [ArgLit lit]))
  else
    do (tok, lit) <- scanIgnoreWhitespace fuel;
    match tok with
    | NULL => ret (Ok "null"%string)
    | CURRENT_TIMESTAMP => ret (Ok "current_timestamp"%string)
    | STRING => ret (Ok lit)
    | _ => ret (Err (Errorf "found %q, expected NULL or value" [ArgLit lit]))
    end.

(** The clause loop of [scanColumn] (lines 158-193). *)
Fixpoint scanColumn_loop (fuel : nat) (column : Column) : M (result Column) :=
  match fuel with
  | O => fun _ => None
  | S fuel' =>
      do (tok, lit) <- scanIgnoreWhitespace fuel';
      match tok with
      | DEFAULT =>
          do _ <- unscan;
          do r <- scanDefault fuel';
          match r with
          | Err e => ret (Err e)
          | Ok val =>
              scanColumn_loop fuel'
                (set_Nullable (String.eqb val "null") (set_Default val column))
          end
      | NULL => scanColumn_loop fuel' (set_Nullable true column)
      | NOT =>
          do (tok1, lit1) <- scanIgnoreWhitespace fuel';
          if negb (Token_eqb tok1 NULL) then
            ret (Err (Errorf "found %q, expected NULL" [ArgLit lit1]))
          else scanColumn_loop fuel' (set_Nullable false column)
      | COMMENT =>
          do (tok1, lit1) <- scanIgnoreWhitespace fuel';
          if Token_eqb tok1 STRING then
            scanColumn_loop fuel' (set_Comment lit1 column)
          else ret (Err (Errorf "found %q, expected 'comment'" [ArgLit lit1]))
      | AUTO_INCREMENT => scanColumn_loop fuel' (set_AutoIncr true column)
      | COMMA | CLOSE_PAREN =>
          do _ <- unscan;
          ret (Ok column)
      | EOF => ret (Err (Errorf "unexpected EOF" []))
      | _ => ret (Err (Errorf "found %q, expected column constraint" [ArgLit lit]))
      end
  end.

Definition scanColumn (fuel : nat) : M (result Column) :=
  do (tok, lit) <- Parser_scanIdent fuel;
  if negb (Token_eqb tok IDENT) then
    ret (Err (Errorf "found %q, expected ident" [ArgLit lit]))
  else
    do r <- scanType fuel;
    match r with
    | Err e => ret (Err e)
    | Ok (t, sz) =>
        scanColumn_loop fuel (mkColumn lit t sz None EmptyString false false)
    end.

Definition scanParenIdent (fuel : nat) : M (Token * string) :=
  do (tok, lit) <- scanIgnoreWhitespace fuel;
  if negb (Token_eqb tok OPEN_PAREN) then ret (ILLEGAL, lit)
  else
    do (tok, lit) <- scanIgnoreWhitespace fuel;
    if Token_eqb tok IDENT then
      do (tok1, lit1) <- scanIgnoreWhitespace fuel;
      if negb (Token_eqb tok1 CLOSE_PAREN) then ret (ILLEGAL, lit ++ lit1)
      else ret (tok, lit)
    else ret (ILLEGAL, EmptyString).

Definition scanPrimaryKey (fuel : nat) : M (result string) :=
  do (tok1, lit1) <- scanIgnoreWhitespace fuel;
  do (tok2, lit2) <- scanIgnoreWhitespace fuel;
  if negb (Token_eqb tok1 PRIMARY) || negb (Token_eqb tok2 KEY) then
    ret (Err (Errorf "found %q, expected PRIMARY KEY" [ArgLit (lit1 ++ lit2)]))
  else
    do (tok, lit) <- scanIgnoreWhitespace fuel;
    if Token_eqb tok OPEN_PAREN then
      do _ <- unscan;
      do (tok, lit) <- scanParenIdent fuel;
      if negb (Token_eqb tok IDENT) then
        ret (Err (Errorf "found %q, expected ident" [ArgLit lit]))
      else ret (Ok lit)
    else
      do (tok, lit) <- Parser_scanIdent fuel;
      if negb (Token_eqb tok IDENT) then
        ret (Err (Errorf "found %q, expected ident" [ArgLit lit]))
      else ret (Ok lit).

Definition scanKey (fuel : nat) : M (result (string * string)) :=
  do (tok, lit) <- scanIgnoreWhitespace fuel;
  if negb (Token_eqb tok KEY) then
    ret (Err (Errorf "found %q, expected KEY" [ArgLit lit]))
  else
    do (tok, lit) <- scanIgnoreWhitespace fuel;
    if Token_eqb tok IDENT then
      let index := lit in
      do (tok, lit) <- scanIgnoreWhitespace fuel;
      if Token_eqb tok IDENT then ret (Ok (index, lit))
      else if Token_eqb tok OPEN_PAREN then
        do _ <- unscan;
        do (tok, lit) <- scanParenIdent fuel;
        if negb (Token_eqb tok IDENT) then
          ret (Err (Errorf "found %q, expected " [ArgLit lit]))
        else ret (Ok (index, lit))
      else ret (Err (Errorf "found %q, expected ident" [ArgLit lit]))
    else ret (Err (Errorf "found %q, expected index" [ArgLit lit])).

Definition scanConstraint (fuel : nat) : M (result Constraint) :=
  do (tok, lit) <- scanIgnoreWhitespace fuel;
  if negb (Token_eqb tok CONSTRAINT) then
    ret (Err (Errorf "found %q, expected CONSTRAINT" [ArgLit lit]))
  else
    do (tok, lit) <- Parser_scanIdent fuel;
    if negb (Token_eqb tok IDENT) then
      ret (Err (Errorf "found %q, expected ident" [ArgLit lit]))
    else
      let index := lit in
      do (tok1, lit1) <- scanIgnoreWhitespace fuel;
      do (tok2, lit2) <- scanIgnoreWhitespace fuel;
      if negb (Token_eqb tok1 FOREIGN) || negb (Token_eqb tok2 KEY) then
        ret (Err (Errorf "found %q, expected FOREIGN KEY" [ArgLit (lit1 ++ lit2)]))
      else
        do (tok, lit) <- scanParenIdent fuel;
        if negb (Token_eqb tok IDENT) then
          ret (Err (Errorf "found %q, expected ident" [ArgLit lit]))
        else
          let foreignKey := lit in
          do (tok, lit) <- scanIgnoreWhitespace fuel;
          if negb (Token_eqb tok REFERENCES) then
            ret (Err (Errorf "found %q, expected REFERENCES" [ArgLit lit]))
          else
            do (tok, lit) <- Parser_scanIdent fuel;
            if negb (Token_eqb tok IDENT) then
              ret (Err (Errorf "found %q, expected `table_name`" [ArgLit lit]))
            else
              let tableName := lit in
              do (tok, lit) <- scanParenIdent fuel;
              if negb (Token_eqb tok IDENT) then
                ret (Err (Errorf "found %q, expected (`column_name`)" [ArgLit lit]))
              else ret (Ok (mkConstraint index foreignKey tableName lit)).

Definition scanKV (fuel : nat) : M (result (string * string)) :=
  do (tok, lit) <- scanIgnoreWhitespace fuel;
  do (tok1, lit1) <- scanIgnoreWhitespace fuel;
  do (tok2, lit2) <- scanIgnoreWhitespace fuel;
  if (negb (Token_eqb tok IDENT) && negb (Token_eqb tok AUTO_INCREMENT))
     || negb (Token_eqb tok1 EQUAL)
     || (negb (Token_eqb tok2 IDENT) && negb (Token_eqb tok2 STRING)
         && negb (Token_eqb tok2 SIZE))
  then ret (Err (Errorf "found %q, expected key=value" [ArgLit (lit ++ lit1 ++ lit2)]))
  else ret (Ok (lit, lit2)).

(** The loop of [scanExtra] on the map [extras]. *)
Fixpoint scanExtra_loop (fuel : nat) (extras : gmap string string)
  : M (result (gmap string string)) :=
  match fuel with
  | O => fun _ => None
  | S fuel' =>
      do (tok, _) <- scanIgnoreWhitespace fuel';
      if negb (Token_eqb tok SEMI_COLON) then
        do _ <- (if negb (Token_eqb tok DEFAULT) then unscan else ret tt);
        do r <- scanKV fuel';
        match r with
        | Err e => ret (Err e)
        | Ok (k, v) => scanExtra_loop fuel' (<[k := v]> extras)
        end
      else
        do _ <- unscan;
        ret (Ok extras)
  end.

Definition scanExtra (fuel : nat) : M (result (gmap string string)) :=
  scanExtra_loop fuel ∅.

(** ** [parse] and [Parse] ([parser.go], lines 333-448) *)

(** The inner loop of lines 343-349: skip to the end of a [DROP], [LOCK]
    or [UNLOCK] statement.  [true]: a [SEMI_COLON] ended the loop;
    [false]: [EOF], where [parse] returns [nil, nil]. *)
Fixpoint parse_skip (fuel : nat) : M bool :=
  match fuel with
  | O => fun _ => None
  | S fuel' =>
      do (tok, _) <- scanIgnoreWhitespace fuel';
      if Token_eqb tok SEMI_COLON then ret true
      else if Token_eqb tok EOF then ret false
      else parse_skip fuel'
  end.

(** The loop of lines 341-359.  [Ok true]: [CREATE] was read; [Ok false]:
    [parse] returns [nil, nil]. *)
Fixpoint parse_head (fuel : nat) : M (result bool) :=
  match fuel with
  | O => fun _ => None
  | S fuel' =>
      do (tok, lit) <- scanIgnoreWhitespace fuel';
      if Token_eqb tok DROP || Token_eqb tok LOCK || Token_eqb tok UNLOCK then
        do semi <- parse_skip fuel';
        if semi then parse_head fuel' else ret (Ok false)
      else if Token_eqb tok SEMI_COLON || Token_eqb tok ANNOTATION then
        parse_head fuel'
      else if Token_eqb tok CREATE then ret (Ok true)
      else if Token_eqb tok EOF then ret (Ok false)
      else ret (Err (Errorf "unexpected %v: %q" [ArgTok tok; ArgLit lit]))
  end.

(** The loop of lines 376-431 over the items of the table body. *)
Fixpoint parse_items (fuel : nat) (table : Table) : M (result Table) :=
  match fuel with
  | O => fun _ => None
  | S fuel' =>
      do (tok, lit) <- scanIgnoreWhitespace fuel';
      match tok with
      | IDENT =>
          do _ <- unscan;
          do r <- scanColumn fuel';
          match r with
          | Err e => ret (Err e)
          | Ok col =>
              parse_items fuel'
                (set_Columns (<[Column_Name col := col]> (Table_Columns table)) table)
          end
      | PRIMARY =>
          do _ <- unscan;
          do r <- scanPrimaryKey fuel';
          match r with
          | Err e => ret (Err e)
          | Ok key => parse_items fuel' (set_PrimaryKey key table)
          end
      | UNIQUE =>
          do r <- scanKey fuel';
          match r with
          | Err e => ret (Err e)
          | Ok (k, v) =>
              parse_items fuel'
                (set_UniqueKeys (<[k := v]> (Table_UniqueKeys table)) table)
          end
      | KEY =>
          do _ <- unscan;
          do r <- scanKey fuel';
          match r with
          | Err e => ret (Err e)
          | Ok (index, col) =>
              parse_items fuel'
                (set_Keys (<[index := col]> (Table_Keys table)) table)
          end
      | CONSTRAINT =>
          do _ <- unscan;
          do r <- scanConstraint fuel';
          match r with
          | Err e => ret (Err e)
          | Ok cos =>
              parse_items fuel'
                (set_Constraints
                   (<[Constraint_ForeignKey cos := cos]> (Table_Constraints table))
                   table)
          end
      | CLOSE_PAREN =>
          do (tok, lit) <- scanIgnoreWhitespace fuel';
          if negb (Token_eqb tok SEMI_COLON) then
            do _ <- unscan;
            do r <- scanExtra fuel';
            match r with
            | Err e => ret (Err e)
            | Ok extras => ret (Ok (set_Extras extras table))
            end
          else ret (Ok table)
      | COMMA => parse_items fuel' table
      | SEMI_COLON => ret (Ok table)
      | _ =>
          ret (Err (Errorf
            "found %q, expected ident or primary or unique or key or constraint"
            [ArgLit lit]))
      end
  end.

(** [parse]: one table.  [Ok None] is Go's [nil, nil]. *)
Definition parse (fuel : nat) : M (result (option Table)) :=
  do r <- parse_head fuel;
  match r with
  | Err e => ret (Err e)
  | Ok false => ret (Ok None)
  | Ok true =>
      do (tok, lit) <- scanIgnoreWhitespace fuel;
      if negb (Token_eqb tok TABLE) then
        ret (Err (Errorf "found CREATE %q, expected CREATE TABLE" [ArgLit lit]))
      else
        do (tok, lit) <- Parser_scanIdent fuel;
        if Token_eqb tok IDENT then
          let table := set_Name lit Table_new in
          do (tok, lit) <- scanIgnoreWhitespace fuel;
          if negb (Token_eqb tok OPEN_PAREN) then
            ret (Err (Errorf "found %q, expected (" [ArgLit lit]))
          else
            do r <- parse_items fuel table;
            match r with
            | Err e => ret (Err e)
            | Ok t => ret (Ok (Some t))
            end
        else
          ret (Err (Errorf "found CREATE TABLE %d %q, expected CREATE TABLE `ident`"
                           [ArgTok tok; ArgLit lit]))
  end.

(** The loop of [Parse] on the accumulated [schema]; the second component
    is the returned error, [None] for [nil]. *)
Fixpoint Parse_loop (fuel : nat) (schema : Schema) : M (Schema * option error) :=
  match fuel with
  | O => fun _ => None
  | S fuel' =>
      do r <- parse fuel';
      match r with
      | Err e => ret (schema, Some e)
      | Ok None => ret (schema, None)
      | Ok (Some table) =>
          Parse_loop fuel' (<[Table_Name table := table]> schema)
      end
  end.

Definition Parse (fuel : nat) : M (Schema * option error) :=
  Parse_loop fuel ∅.

(** [NewParser(strings.NewReader(input)).Parse()], without the final
    parser state. *)
Definition ParseString (fuel : nat) (input : string)
  : option (Schema * option error) :=
  match Parse fuel (NewParser input) with
  | Some (r, _) => Some r
  | None => None
  end.

(** ** The parser test of the repository *)

Definition parser_test_input : string :=
  "--this is a comment" ++ nl ++
  "DROP TABLE IF EXISTS `user`;" ++ nl ++
  "/* this is another comment */;" ++ nl ++
  "CREATE TABLE `user` (" ++ nl ++
  "  `id` bigint(20) NOT NULL AUTO_INCREMENT," ++ nl ++
  "  `username` varchar(20) DEFAULT NULL" ++ nl ++
  ") ENGINE=InnoDB DEFAULT CHARSET=utf8;".

Definition user_table : Table :=
  mkTable "user"
    (<["username"%string := mkColumn "username" "varchar" 20 (Some "null"%string) EmptyString true false]>
       (<["id"%string := mkColumn "id" "bigint" 20 None EmptyString false true]> ∅))
    EmptyString ∅ ∅ ∅
    (<["CHARSET"%string := "utf8"%string]> (<["ENGINE"%string := "InnoDB"%string]> ∅)).

(** ** The table [Type] as shared state ([parser.go], lines 52-71)

    [Type] is a variable of the package, a map that [init] fills and
    that [scanType] reads with [Type[tok]].  It is exported and a Go map
    is mutable: every parser of a program reads the same map.  The
    functions above read it as [init] leaves it, through [Type_].  The
    functions of this module are the same functions with the map as a
    state of its own beside the parser: each takes the map and gives it
    back, so that a function that wrote to it would show, and a map with
    other contents can be given.  Only the functions from which
    [scanType] is reached are stated again; the others are used as they
    are, since they do not mention [Type]. *)

Module Shared.

(** [map[Token]string]; a [Token] is an [int]. *)
Definition TypeMap : Type := gmap Z string.

(** [Type] after [init] (lines 55-71). *)
Definition init : TypeMap :=
  <[Token_iota TIMESTAMP := "timestamp"%string]>
  (<[Token_iota DATETIME := "datetime"%string]>
  (<[Token_iota TIME := "time"%string]>
  (<[Token_iota DATE := "date"%string]>
  (<[Token_iota MEDIUMTEXT := "mediumtext"%string]>
  (<[Token_iota LONGTEXT := "longtext"%string]>
  (<[Token_iota VARCHAR := "varchar"%string]>
  (<[Token_iota DOUBLE := "double"%string]>
  (<[Token_iota FLOAT := "float"%string]>
  (<[Token_iota BIGINT := "bigint"%string]>
  (<[Token_iota INT := "int"%string]>
  (<[Token_iota SMALLINT := "smallint"%string]>
  (<[Token_iota TINYINT := "tinyint"%string]>
  (<[Token_iota BIT := "bit"%string]> ∅))))))))))))).

(** [m[tok]]: the empty string when [tok] is not a key. *)
Definition index (m : TypeMap) (tok : Token) : string :=
  default EmptyString (m !! Token_iota tok).

(** A computation on the parser and on [Type]. *)
Definition W (A : Type) : Type :=
  TypeMap -> Parser -> option (A * Parser * TypeMap).

Definition ret {A} (a : A) : W A := fun types p => Some (a, p, types).

Definition bind {A B} (m : W A) (k : A -> W B) : W B :=
  fun types p =>
    match m types p with
    | Some (a, p', types') => k a types' p'
    | None => None
    end.

Notation "'share' x <- m ; k" := (bind m (fun x => k))
  (at level 10, x pattern, m at level 100, k at level 200).

(** A function that does not mention [Type]. *)
Definition lift {A} (m : M A) : W A :=
  fun types p =>
    match m p with
    | Some (a, p') => Some (a, p', types)
    | None => None
    end.

(** The expression [Type[tok]]. *)
Definition Type_at (tok : Token) : W string :=
  fun types p => Some (index types tok, p, types).

Definition scanType (fuel : nat) : W (result (string * Z)) :=
  share (tok, lit) <- lift (scanIgnoreWhitespace fuel);
  if is_datatype tok then
    share (tok1, lit1) <- lift (scanIgnoreWhitespace fuel);
    if negb (Token_eqb tok1 OPEN_PAREN) then
      share _ <- lift unscan;
      share t <- Type_at tok;
      ret (Ok (t, 0%Z))
    else
      share (tok2, lit2) <- lift (scanIgnoreWhitespace fuel);
      share (tok3, lit3) <- lift (scanIgnoreWhitespace fuel);
      if negb (Token_eqb tok2 SIZE) || negb (Token_eqb tok3 CLOSE_PAREN) then
        ret (Err (Errorf "found %q, expected type(integer)"
                         [ArgLit (lit ++ lit1 ++ lit2 ++ lit3)]))
      else
        share t <- Type_at tok;
        ret (Ok (t, Atoi lit2))
  else ret (Err (Errorf "found %q, expected type" [ArgLit lit])).

Definition scanColumn (fuel : nat) : W (result Column) :=
  share (tok, lit) <- lift (Parser_scanIdent fuel);
  if negb (Token_eqb tok IDENT) then
    ret (Err (Errorf "found %q, expected ident" [ArgLit lit]))
  else
    share r <- scanType fuel;
    match r with
    | Err e => ret (Err e)
    | Ok (t, sz) =>
        lift (scanColumn_loop fuel (mkColumn lit t sz None EmptyString false false))
    end.

Fixpoint parse_items (fuel : nat) (table : Table) : W (result Table) :=
  match fuel with
  | O => fun _ _ => None
  | S fuel' =>
      share (tok, lit) <- lift (scanIgnoreWhitespace fuel');
      match tok with
      | IDENT =>
          share _ <- lift unscan;
          share r <- scanColumn fuel';
          match r with
          | Err e => ret (Err e)
          | Ok col =>
              parse_items fuel'
                (set_Columns (<[Column_Name col := col]> (Table_Columns table)) table)
          end
      | PRIMARY =>
          share _ <- lift unscan;
          share r <- lift (scanPrimaryKey fuel');
          match r with
          | Err e => ret (Err e)
          | Ok key => parse_items fuel' (set_PrimaryKey key table)
          end
      | UNIQUE =>
          share r <- lift (scanKey fuel');
          match r with
          | Err e => ret (Err e)
          | Ok (k, v) =>
              parse_items fuel'
                (set_UniqueKeys (<[k := v]> (Table_UniqueKeys table)) table)
          end
      | KEY =>
          share _ <- lift unscan;
          share r <- lift (scanKey fuel');
          match r with
          | Err e => ret (Err e)
          | Ok (index, col) =>
              parse_items fuel'
                (set_Keys (<[index := col]> (Table_Keys table)) table)
          end
      | CONSTRAINT =>
          share _ <- lift unscan;
          share r <- lift (scanConstraint fuel');
          match r with
          | Err e => ret (Err e)
          | Ok cos =>
              parse_items fuel'
                (set_Constraints
                   (<[Constraint_ForeignKey cos := cos]> (Table_Constraints table))
                   table)
          end
      | CLOSE_PAREN =>
          share (tok, lit) <- lift (scanIgnoreWhitespace fuel');
          if negb (Token_eqb tok SEMI_COLON) then
            share _ <- lift unscan;
            share r <- lift (scanExtra fuel');
            match r with
            | Err e => ret (Err e)
            | Ok extras => ret (Ok (set_Extras extras table))
            end
          else ret (Ok table)
      | COMMA => parse_items fuel' table
      | SEMI_COLON => ret (Ok table)
      | _ =>
          ret (Err (Errorf
            "found %q, expected ident or primary or unique or key or constraint"
            [ArgLit lit]))
      end
  end.

Definition parse (fuel : nat) : W (result (option Table)) :=
  share r <- lift (parse_head fuel);
  match r with
  | Err e => ret (Err e)
  | Ok false => ret (Ok None)
  | Ok true =>
      share (tok, lit) <- lift (scanIgnoreWhitespace fuel);
      if negb (Token_eqb tok TABLE) then
        ret (Err (Errorf "found CREATE %q, expected CREATE TABLE" [ArgLit lit]))
      else
        share (tok, lit) <- lift (Parser_scanIdent fuel);
        if Token_eqb tok IDENT then
          let table := set_Name lit Table_new in
          share (tok, lit) <- lift (scanIgnoreWhitespace fuel);
          if negb (Token_eqb tok OPEN_PAREN) then
            ret (Err (Errorf "found %q, expected (" [ArgLit lit]))
          else
            share r <- parse_items fuel table;
            match r with
            | Err e => ret (Err e)
            | Ok t => ret (Ok (Some t))
            end
        else
          ret (Err (Errorf "found CREATE TABLE %d %q, expected CREATE TABLE `ident`"
                           [ArgTok tok; ArgLit lit]))
  end.

Fixpoint Parse_loop (fuel : nat) (schema : Schema) : W (Schema * option error) :=
  match fuel with
  | O => fun _ _ => None
  | S fuel' =>
      share r <- parse fuel';
      match r with
      | Err e => ret (schema, Some e)
      | Ok None => ret (schema, None)
      | Ok (Some table) =>
          Parse_loop fuel' (<[Table_Name table := table]> schema)
      end
  end.

Definition Parse (fuel : nat) : W (Schema * option error) :=
  Parse_loop fuel ∅.

(** [NewParser(strings.NewReader(input)).Parse()] when [Type] holds
    [types]: the result, and [Type] after the call. *)
Definition ParseString (types : TypeMap) (fuel : nat) (input : string)
  : option (Schema * option error * TypeMap) :=
  match Parse fuel types (NewParser input) with
  | Some (r, _, types') => Some (r, types')
  | None => None
  end.

End Shared.

(** ** Notions used by the statements *)

(** [contains c str]: the rune [c] occurs in [str]. *)
Fixpoint contains (c : rune) (str : string) : bool :=
  match str with
  | EmptyString => false
  | String ch r => Ascii.eqb ch c || contains c r
  end.

(** [le_at n m f]: what the fuel-indexed computation [f] returns on fuel
    [n], it returns on fuel [m]. *)
Definition le_at {A} (n m : nat) (f : nat -> M A) : Prop :=
  forall p r, f n p = Some r -> f m p = Some r.

(** [parse_run p ts p']: from state [p], successive calls of [parse]
    return the tables [ts], in this order, and leave the parser in [p']. *)
Inductive parse_run : Parser -> list Table -> Parser -> Prop :=
  | parse_run_nil p : parse_run p [] p
  | parse_run_cons fuel p t p1 ts p2 :
      parse fuel p = Some (Ok (Some t), p1) ->
      parse_run p1 ts p2 ->
      parse_run p (t :: ts) p2.

(** [schema[table.Name] = table] for each table of [ts], in order. *)
Definition commit (schema : gmap string Table) (ts : list Table)
  : gmap string Table :=
  fold_left (fun m t => <[Table_Name t := t]> m) ts schema.

(** *** The clauses of a column definition *)

(** [next p tok lit p']: from state [p], [scanIgnoreWhitespace] returns
    the token [tok] with literal [lit] and leaves the parser in [p']. *)
Definition next (p : Parser) (tok : Token) (lit : string) (p' : Parser) : Prop :=
  exists fuel, scanIgnoreWhitespace fuel p = Some ((tok, lit), p').

(** The state after [p.unscan()]. *)
Definition unscanned (p : Parser) : Parser :=
  {| s := s p; buf_tok := buf_tok p; buf_lit := buf_lit p; buf_n := 1 |}.

(** A clause as the loop of [scanColumn] reads it.  [ClDefault tok lit]
    is [DEFAULT] followed by the value token [tok] with literal [lit]. *)
Inductive Clause : Set :=
  | ClDefault (tok : Token) (lit : string)
  | ClNull
  | ClNotNull
  | ClComment (text : string)
  | ClAutoIncr.

(** What [scanDefault] returns for the value token. *)
Definition default_value (tok : Token) (lit : string) : string :=
  match tok with
  | NULL => "null"
  | CURRENT_TIMESTAMP => "current_timestamp"
  | _ => lit
  end.

(** The assignments of each [case] of the loop. *)
Definition apply_clause (c : Column) (cl : Clause) : Column :=
  match cl with
  | ClDefault tok lit =>
      set_Nullable (String.eqb (default_value tok lit) "null")
        (set_Default (default_value tok lit) c)
  | ClNull => set_Nullable true c
  | ClNotNull => set_Nullable false c
  | ClComment text => set_Comment text c
  | ClAutoIncr => set_AutoIncr true c
  end.

Definition apply_clauses (c : Column) (cls : list Clause) : Column :=
  fold_left apply_clause cls c.

(** The value of [Nullable] after a clause, from its value before. *)
Definition clause_nullable (b : bool) (cl : Clause) : bool :=
  match cl with
  | ClDefault tok lit => String.eqb (default_value tok lit) "null"
  | ClNull => true
  | ClNotNull => false
  | ClComment _ | ClAutoIncr => b
  end.

Definition nullable_after (b : bool) (cls : list Clause) : bool :=
  fold_left clause_nullable cls b.

(** A clause that leaves [Nullable] as it is. *)
Definition keeps_nullable (cl : Clause) : Prop :=
  match cl with
  | ClComment _ | ClAutoIncr => True
  | _ => False
  end.

Inductive reads_clause : Parser -> Clause -> Parser -> Prop :=
  | reads_default p lit p1 tok vlit p2 :
      next p DEFAULT lit p1 -> next p1 tok vlit p2 ->
      In tok [NULL; CURRENT_TIMESTAMP; STRING] ->
      reads_clause p (ClDefault tok vlit) p2
  | reads_null p lit p1 :
      next p NULL lit p1 -> reads_clause p ClNull p1
  | reads_not_null p lit p1 lit1 p2 :
      next p NOT lit p1 -> next p1 NULL lit1 p2 ->
      reads_clause p ClNotNull p2
  | reads_comment p lit p1 text p2 :
      next p COMMENT lit p1 -> next p1 STRING text p2 ->
      reads_clause p (ClComment text) p2
  | reads_auto_incr p lit p1 :
      next p AUTO_INCREMENT lit p1 -> reads_clause p ClAutoIncr p1.

(** [reads_clauses p cls p']: from [p] the clauses [cls] are read, then a
    [COMMA] or [CLOSE_PAREN], which is pushed back. *)
Inductive reads_clauses : Parser -> list Clause -> Parser -> Prop :=
  | reads_clauses_end p tok lit p1 :
      next p tok lit p1 -> In tok [COMMA; CLOSE_PAREN] ->
      reads_clauses p [] (unscanned p1)
  | reads_clauses_cons p cl p1 cls p2 :
      reads_clause p cl p1 -> reads_clauses p1 cls p2 ->
      reads_clauses p (cl :: cls) p2.

(** *** Empty identifiers *)

(** [adjacent_backticks str]: somewhere in [str] a backtick is followed at
    once by another one. *)
Fixpoint adjacent_backticks (str : string) : bool :=
  match str with
  | EmptyString => false
  | String c r =>
      (Ascii.eqb c "`"
       && match r with
          | String d _ => Ascii.eqb d "`"
          | EmptyString => false
          end)
      || adjacent_backticks r
  end.

(** The input from the rune that [unread] would give back. *)
Definition pending (sc : Scanner) : string :=
  match last sc with
  | Some c => String c (rest sc)
  | None => rest sc
  end.

Definition Scanner_ok (sc : Scanner) : Prop :=
  adjacent_backticks (pending sc) = false.

(** An [IDENT] token has a literal that is not empty. *)
Definition good_tok (r : Token * string) : Prop :=
  fst r = IDENT -> snd r <> EmptyString.

Definition Parser_ok (p : Parser) : Prop :=
  Scanner_ok (s p) /\ good_tok (buf_tok p, buf_lit p).

Definition good_table (t : Table) : Prop :=
  Table_Columns t !! EmptyString = None.

Definition good_schema (schema : gmap string Table) : Prop :=
  forall name t, schema !! name = Some t -> good_table t.

(** [keeps Q m]: from a state that is [Parser_ok], [m] returns a value
    that satisfies [Q] and a state that is [Parser_ok]. *)
Definition keeps {A} (Q : A -> Prop) (m : M A) : Prop :=
  forall p a p', Parser_ok p -> m p = Some (a, p') -> Parser_ok p' /\ Q a.

(** Postconditions: what a successful result satisfies. *)
Definition named (r : result Column) : Prop :=
  forall col, r = Ok col -> Column_Name col <> EmptyString.

Definition good_result (r : result Table) : Prop :=
  forall t, r = Ok t -> good_table t.

Definition good_parse (r : result (option Table)) : Prop :=
  forall t, r = Ok (Some t) -> good_table t.

(** *** Inputs on which [Scan] returns *)

(** [Scan_returns_on str]: [str] does not begin with a quoted literal that
    is never closed, nor with a line comment that no newline ends. *)
Definition Scan_returns_on (str : string) : bool :=
  match str with
  | EmptyString => true
  | String c r =>
      if Ascii.eqb c "'" || Ascii.eqb c "`" then contains c r
      else if Ascii.eqb c "-" then
        match r with
        | String d r' => if Ascii.eqb d "-" then contains "010" r' else true
        | EmptyString => true
        end
      else true
  end.

(** *** The literal of a token *)

Fixpoint all_runes (f : rune -> bool) (str : string) : bool :=
  match str with
  | EmptyString => true
  | String c r => f c && all_runes f r
  end.

(** The spelling that the [switch] of [scanIdent] gives each keyword. *)
Definition spelling (tok : Token) : option string :=
  match tok with
  | DROP => Some "DROP" | IF_ => Some "IF" | EXISTS => Some "EXISTS"
  | LOCK => Some "LOCK" | UNLOCK => Some "UNLOCK" | TABLES => Some "TABLES"
  | WRITE => Some "WRITE" | CREATE => Some "CREATE" | TABLE => Some "TABLE"
  | NOT => Some "NOT" | NULL => Some "NULL" | DEFAULT => Some "DEFAULT"
  | COMMENT => Some "COMMENT" | KEY => Some "KEY" | UNIQUE => Some "UNIQUE"
  | CONSTRAINT => Some "CONSTRAINT" | PRIMARY => Some "PRIMARY"
  | FOREIGN => Some "FOREIGN" | REFERENCES => Some "REFERENCES"
  | AUTO_INCREMENT => Some "AUTO_INCREMENT"
  | CURRENT_TIMESTAMP => Some "CURRENT_TIMESTAMP"
  | BIT => Some "BIT" | TINYINT => Some "TINYINT" | SMALLINT => Some "SMALLINT"
  | INT => Some "INT" | BIGINT => Some "BIGINT" | FLOAT => Some "FLOAT"
  | DOUBLE => Some "DOUBLE" | VARCHAR => Some "VARCHAR"
  | LONGTEXT => Some "LONGTEXT" | MEDIUMTEXT => Some "MEDIUMTEXT"
  | DATE => Some "DATE" | TIME => Some "TIME" | DATETIME => Some "DATETIME"
  | TIMESTAMP => Some "TIMESTAMP"
  | _ => None
  end%string.

(** What the literal of each kind of token looks like. *)
Definition literal_shape (tok : Token) (lit : string) : Prop :=
  match tok with
  | WS => lit <> EmptyString /\ all_runes isWhitespace lit = true
  | SIZE => lit <> EmptyString /\ all_runes isDigit lit = true
  | ANNOTATION => lit = EmptyString
  | ILLEGAL => (String.length lit <= 1)%nat
  | EOF => lit = "EOF"%string
  | COMMA => lit = ","%string
  | SEMI_COLON => lit = ";"%string
  | OPEN_PAREN => lit = "("%string
  | CLOSE_PAREN => lit = ")"%string
  | EQUAL => lit = "="%string
  | BACKTICK => False
  | IDENT | STRING => True
  | _ => spelling tok = Some (ToUpper lit)
  end.

(** *** Results of the parser *)

(** [ensures Q m]: whatever [m] returns satisfies [Q]. *)
Definition ensures {A} (Q : A -> Prop) (m : M A) : Prop :=
  forall p a p', m p = Some (a, p') -> Q a.

(** Every column is stored under its own name and every constraint under
    its own foreign-key column. *)
Definition keyed (t : Table) : Prop :=
  (forall k c, Table_Columns t !! k = Some c -> Column_Name c = k) /\
  (forall k c, Table_Constraints t !! k = Some c -> Constraint_ForeignKey c = k).

(** Every table of the schema is stored under its own name and is
    [keyed]. *)
Definition schema_keyed (schema : gmap string Table) : Prop :=
  forall k t, schema !! k = Some t -> Table_Name t = k /\ keyed t.

(** Two statements that create the same table; the table of the second. *)
Definition two_tables_input : string :=
  "CREATE TABLE `t` (`a` int); CREATE TABLE `t` (`b` int);".

Definition table_t_b : Table :=
  set_Columns (<["b"%string := mkColumn "b" "int" 0 None EmptyString false false]> ∅)
    (set_Name "t" Table_new).

(** *** Termination *)

(** [suffix_of a b]: [a] is what remains of [b] after some runes. *)
Inductive suffix_of : string -> string -> Prop :=
  | suffix_of_refl a : suffix_of a a
  | suffix_of_cons a c b : suffix_of a b -> suffix_of a (String c b).

(** [lexes n sc]: calling [Scan] again and again from [sc] exhausts the
    input, in [n] calls at most: each of the calls returns.  A call has
    fuel for one iteration per remaining rune, and one more. *)
Fixpoint lexes (n : nat) (sc : Scanner) : bool :=
  match n with
  | O => false
  | S n' =>
      match rest sc with
      | EmptyString => true
      | _ =>
          match Scan (S (String.length (rest sc))) sc with
          | Some (_, _, sc') => lexes n' sc'
          | None => false
          end
      end
  end.

Definition Parser_returns (p : Parser) : Prop :=
  exists n, lexes n (s p) = true.

(** What a parser still has to go through: two for each rune not yet
    read, one for a token that was pushed back. *)
Definition remaining (p : Parser) : nat :=
  2 * String.length (rest (s p)) + (if (buf_n p =? 0)%Z then 0 else 1).

(** [runs m p Q]: from state [p], [m] returns, with a value and a state
    that satisfy [Q]. *)
Definition runs {A} (m : M A) (p : Parser) (Q : A -> Parser -> Prop) : Prop :=
  exists a p', m p = Some (a, p') /\ Q a p'.

(** The state keeps [Parser_returns]; where [dec a] is [Some n],
    [remaining] went down by [n] at least.  [dec a] is [None] for the
    values on which every caller returns at once. *)
Definition within {A} (p : Parser) (dec : A -> option nat) (a : A) (p' : Parser)
  : Prop :=
  Parser_returns p' /\
  match dec a with
  | Some n => (remaining p' + n <= remaining p)%nat
  | None => True
  end.

(** Every token but [EOF] counts. *)
Definition dec_tok (r : Token * string) : option nat :=
  Some (if Token_eqb (fst r) EOF then 0 else 1)%nat.

(** [Parser.scanIdent] and [scanParenIdent] give [ILLEGAL] for whatever
    is not an identifier: only [IDENT] is known to count. *)
Definition dec_ident (r : Token * string) : option nat :=
  Some (if Token_eqb (fst r) IDENT then 1 else 0)%nat.

Definition dec_ok {A} (n : nat) (r : result A) : option nat :=
  match r with Ok _ => Some n | Err _ => None end.

Definition dec_created (r : result bool) : option nat :=
  match r with Ok true => Some 1%nat | _ => None end.

Definition dec_table (r : result (option Table)) : option nat :=
  match r with Ok (Some _) => Some 1%nat | _ => None end.

Definition dec_any {A} (a : A) : option nat := Some 0%nat.

Definition dec_none {A} (a : A) : option nat := None.

(** *** Runs of whitespace, digits and identifier runes *)

(** The runes that the loop of [scanIdent] takes. *)
Definition isIdentRune (ch : rune) : bool :=
  isLetter ch || isDigit ch || Ascii.eqb ch "_".

(** The runes that continue a token which starts with [c]. *)
Definition run_rune (c : rune) : rune -> bool :=
  if isWhitespace c then isWhitespace
  else if isLetter c then isIdentRune
  else if isDigit c then isDigit
  else fun _ => false.

(** The token of a run with first rune [c] and literal [lit]. *)
Definition run_token (c : rune) (lit : string) : option Token :=
  if isWhitespace c then Some WS
  else if isLetter c then Some (keyword (ToUpper lit))
  else if isDigit c then Some SIZE
  else None.

(** [post] does not continue a run of [f]: it is empty, or starts with a
    rune that is not in [f]. *)
Definition stops_run (f : rune -> bool) (post : string) : bool :=
  match post with
  | EmptyString => true
  | String d _ => negb (f d)
  end.

(** The scanner after a run that [post] follows.  The loops read the rune
    after the run: at the end of the input nothing is left; the rune [eof]
    ends the loop without [unread] and is gone; any other rune is given
    back. *)
Definition after_run (post : string) : Scanner :=
  match post with
  | EmptyString => {| last := None; rest := EmptyString |}
  | String d r =>
      if Ascii.eqb d eof then {| last := Some d; rest := r |}
      else {| last := None; rest := post |}
  end.

(** *** What a computation leaves behind *)

(** [hoare P m Q]: from a state in [P], whatever [m] returns, with the
    state it leaves, is in [Q]. *)
Definition hoare {A} (P : Parser -> Prop) (m : M A) (Q : A -> Parser -> Prop)
  : Prop :=
  forall p a p', P p -> m p = Some (a, p') -> Q a p'.

(** The buffer holds the token [tok], and it was not pushed back. *)
Definition just_scanned (tok : Token) (p : Parser) : Prop :=
  buf_tok p = tok /\ buf_n p = 0%Z.

(** Nothing is pushed back, or a [SEMI_COLON] is. *)
Definition between_statements (p : Parser) : Prop :=
  buf_n p = 0%Z \/ (buf_tok p = SEMI_COLON /\ buf_n p = 1%Z).

(** *** An input followed by more *)

(** The scanner has found the end of the input: a read gave nothing, and
    nothing stands to be given back. *)
Definition at_end (sc : Scanner) : bool :=
  match last sc, rest sc with
  | None, EmptyString => true
  | _, _ => false
  end.

(** The same scanner, on an input that goes on with [b]. *)
Definition extend (b : string) (sc : Scanner) : Scanner :=
  {| last := last sc; rest := rest sc ++ b |}.

Definition extend_parser (b : string) (p : Parser) : Parser :=
  {| s := extend b (s p);
     buf_tok := buf_tok p; buf_lit := buf_lit p; buf_n := buf_n p |}.

(** [frames b m]: when [m] returns without the scanner having found the
    end of the input, it returns the same on the input followed by [b],
    and leaves [b] after what it left. *)
Definition frames {A} (b : string) (m : M A) : Prop :=
  forall p a p', m p = Some (a, p') -> at_end (s p') = false ->
    at_end (s p) = false /\
    m (extend_parser b p) = Some (a, extend_parser b p').

(** *** The statements of an input *)

(** [parses_alone stmt t]: on the input [stmt] alone, [parse] returns the
    table [t], having read [stmt] to its last rune, the [;] that ends it,
    and no further. *)
Definition parses_alone (stmt : string) (t : Table) : Prop :=
  exists fuel p',
    parse fuel (NewParser stmt) = Some (Ok (Some t), p') /\
    s p' = {| last := Some ";"%char; rest := EmptyString |}.

(** The statements [stmts], one after the other, then [tail]. *)
Definition statements (stmts : list string) (tail : string) : string :=
  fold_right String.append tail stmts.

(** The error that [Parse] returns after the result [r] of [parse]. *)
Definition error_of (r : result (option Table)) : option error :=
  match r with Err e => Some e | Ok _ => None end.

(** [parse] did not return a table. *)
Definition ends_Parse (r : result (option Table)) : Prop :=
  match r with Ok (Some _) => False | _ => True end.

(** Statements and tables for the examples. *)
Definition stmt_t_a : string := "CREATE TABLE `t` (`a` int);".

Definition stmt_t_b : string := " CREATE TABLE `t` (`b` int);".

Definition stmt_u : string := " CREATE TABLE `u` (`id` int) ENGINE=InnoDB;".

Definition table_t_a : Table :=
  set_Columns (<["a"%string := mkColumn "a" "int" 0 None EmptyString false false]> ∅)
    (set_Name "t" Table_new).

Definition table_u : Table :=
  set_Extras (<["ENGINE"%string := "InnoDB"%string]> ∅)
    (set_Columns (<["id"%string := mkColumn "id" "int" 0 None EmptyString false false]> ∅)
       (set_Name "u" Table_new)).

(** *** The shared table [Type] *)

(** [leaves_Type w]: [w] gives [Type] back as it took it. *)
Definition leaves_Type {A} (w : Shared.W A) : Prop :=
  forall types p a p' types',
    w types p = Some (a, p', types') -> types' = types.

(** [le_atW n m f]: what [f] returns on fuel [n], it returns on fuel [m]. *)
Definition le_atW {A} (n m : nat) (f : nat -> Shared.W A) : Prop :=
  forall types p r, f n types p = Some r -> f m types p = Some r.

(** [agrees w m]: while [Type] is as [init] leaves it, [w] is [m]. *)
Definition agrees {A} (w : Shared.W A) (m : M A) : Prop :=
  forall p, w Shared.init p = Shared.lift m Shared.init p.



(** *** An input without what follows it *)

(** [step sc sc']: from [sc] to [sc'] the scanner went forward in the
    input or stayed; where it stayed, it is unchanged, or a read found the
    end of the input. *)
Definition step (sc sc' : Scanner) : Prop :=
  suffix_of (rest sc') (rest sc) /\
  (rest sc' = rest sc -> last sc' = None \/ sc' = sc).

(** A [SEMI_COLON] in the buffer was read from the rune [;], the last
    rune read. *)
Definition semi_ok (p : Parser) : Prop :=
  buf_tok p = SEMI_COLON -> last (s p) = Some ";"%char.

(** [restricts b m]: [m] goes forward in the input and keeps [semi_ok];
    and when it returns on an input followed by [b] without having read
    into [b], it returns the same on the input without [b]. *)
Definition restricts {A} (b : string) (m : M A) : Prop :=
  forall q a q', m q = Some (a, q') ->
    step (s q) (s q') /\
    (semi_ok q -> semi_ok q') /\
    (forall p p', q = extend_parser b p -> q' = extend_parser b p' ->
                  at_end (s p') = false -> m p = Some (a, p')).

(** [statements_then r input schema]: the input is statements, one
    after the other, each of which [parse] reads alone into a table, then
    a rest on which [parse] returns [r]; [schema] is built from these
    tables in their order, [schema[t.Name] = t] for each. *)
Definition statements_then (r : result (option Table)) (input : string)
    (schema : Schema) : Prop :=
  exists stmts ts tail f p_end,
    input = statements stmts tail /\
    Forall2 parses_alone stmts ts /\
    parse f (NewParser tail) = Some (r, p_end) /\
    schema = commit ∅ ts.

(** * Properties *)

(** ** The tests of the repository *)

Example Test_Lexer :
  tokens 100 100 (NewScanner lexer_test_input) = Some
    (ANNOTATION ::
     DROP :: WS :: TABLE :: WS :: IF_ :: WS :: EXISTS :: WS :: IDENT :: SEMI_COLON :: WS ::
     ANNOTATION :: WS ::
     CREATE :: WS :: TABLE :: WS :: IDENT :: WS :: OPEN_PAREN :: WS ::
     IDENT :: WS :: BIGINT :: OPEN_PAREN :: SIZE :: CLOSE_PAREN :: WS :: NOT :: WS :: NULL :: WS :: AUTO_INCREMENT :: COMMA :: WS ::
     IDENT :: WS :: VARCHAR :: OPEN_PAREN :: SIZE :: CLOSE_PAREN :: WS :: DEFAULT :: WS :: NULL :: WS ::
     CLOSE_PAREN :: WS :: IDENT :: EQUAL :: IDENT :: WS :: DEFAULT :: WS :: IDENT :: EQUAL :: IDENT :: SEMI_COLON :: nil).
Proof. vm_compute. reflexivity. Qed.

Example TestParser :
  ParseString 100 parser_test_input = Some (<["user"%string := user_table]> ∅, None).
Proof. vm_compute. reflexivity. Qed.

(** ** More fuel does not change a result *)

Create HintDb mono discriminated.
#[local] Hint Constants Opaque : mono.
#[local] Hint Extern 1 (_ <= _)%nat => lia : mono.

(** Close [f m x = Some r] from [E : f n x = Some r] and [n <= m], with
    the lemmas of the database only. *)
Ltac mono_solve E :=
  match goal with
  | Hle : (_ <= _)%nat |- _ => clear - E Hle; eauto with mono nocore
  end.

(** For [E : X = Some r] where [X] runs on fuel [n], rewrite the same
    computation on fuel [m] in the goal. *)
Ltac mono_rewrite E n m :=
  lazymatch type of E with
  | ?X = Some ?r =>
      match eval pattern n in X with
      | ?F _ =>
          let Y := eval cbv beta in (F m) in
          match goal with
          | |- context [Y] =>
              let H := fresh in
              assert (H : Y = Some r) by (mono_solve E);
              rewrite H; clear H
          end
      end
  | _ => idtac
  end.

Ltac mono_step n m :=
  let E := fresh "E" in
  match goal with
  | H : Some _ = Some _ |- _ => injection H as H; subst
  | H : None = Some _ |- _ => discriminate H
  | H : match ?c with _ => _ end = Some _ |- _ =>
      destruct c eqn:E; cbv beta iota in H |- *;
      try discriminate H; try mono_rewrite E n m; cbv beta iota
  | H : (match ?c with _ => _ end) _ = Some _ |- _ =>
      destruct c eqn:E; cbv beta iota in H |- *; try discriminate H
  end.

(** The end of a branch: the same result on both sides, or the recursive
    call of a loop, closed by the induction hypothesis. *)
Ltac mono_done :=
  match goal with
  | |- ?a = ?a => reflexivity
  | H : ?X = _ |- ?X = _ => exact H
  | IH : forall _, _, H : _ = Some ?r |- _ = Some ?r =>
      eapply IH; [exact H | lia]
  | H : _ = Some ?r, Hle : (_ <= _)%nat |- _ = Some ?r =>
      mono_solve H
  end.

Ltac mono_loop :=
  let n := fresh "n" in
  let m := fresh "m" in
  let IH := fresh "IH" in
  intros n; induction n as [|n IH]; intros m;
  [ intros; simpl in *; congruence
  | destruct m; [intros; lia|]; cbn [scanWhitespace_loop scanDigit_loop
       readString scanInlineComment scanIdent_loop scanLineComment];
    intros;
    repeat mono_step n m; try mono_done ].

Lemma scanWhitespace_loop_mono : forall n m buf s r,
  scanWhitespace_loop n buf s = Some r -> (n <= m)%nat ->
  scanWhitespace_loop m buf s = Some r.
Proof. mono_loop. Qed.

Lemma scanDigit_loop_mono : forall n m buf s r,
  scanDigit_loop n buf s = Some r -> (n <= m)%nat ->
  scanDigit_loop m buf s = Some r.
Proof. mono_loop. Qed.

Lemma readString_mono : forall n m c buf s r,
  readString n c buf s = Some r -> (n <= m)%nat ->
  readString m c buf s = Some r.
Proof. mono_loop. Qed.

Lemma scanInlineComment_mono : forall n m s r,
  scanInlineComment n s = Some r -> (n <= m)%nat ->
  scanInlineComment m s = Some r.
Proof. mono_loop. Qed.

Lemma scanIdent_loop_mono : forall n m buf s r,
  scanIdent_loop n buf s = Some r -> (n <= m)%nat ->
  scanIdent_loop m buf s = Some r.
Proof. mono_loop. Qed.

Lemma scanLineComment_mono : forall n m s r,
  scanLineComment n s = Some r -> (n <= m)%nat ->
  scanLineComment m s = Some r.
Proof. mono_loop. Qed.

#[local] Hint Resolve scanWhitespace_loop_mono scanDigit_loop_mono
  readString_mono scanInlineComment_mono scanIdent_loop_mono
  scanLineComment_mono : mono.

Ltac mono_def :=
  let n := fresh "n" in
  let m := fresh "m" in
  intros n m; intros;
  repeat mono_step n m; try mono_done.

Lemma Scan_mono : forall n m s r,
  Scan n s = Some r -> (n <= m)%nat -> Scan m s = Some r.
Proof.
  unfold Scan, scanWhitespace, scanIdent, scanDigit, scanString.
  mono_def.
Qed.
#[local] Hint Resolve Scan_mono : mono.


(** *** The parser's computations *)

Lemma le_at_const {A} n m (c : M A) : le_at n m (fun _ => c).
Proof. intros p r H. exact H. Qed.

Lemma le_at_bind {A B} n m (f : nat -> M A) (g : nat -> A -> M B) :
  le_at n m f -> (forall a, le_at n m (fun k => g k a)) ->
  le_at n m (fun k => bind (f k) (g k)).
Proof.
  intros Hf Hg p r. unfold bind.
  destruct (f n p) as [[a p1]|] eqn:E; [|discriminate].
  rewrite (Hf _ _ E). apply Hg.
Qed.

Create HintDb le_at discriminated.

(** One step along the syntax of a computation. *)
Ltac le_at_step :=
  cbv beta iota;
  lazymatch goal with
  | |- le_at _ _ (fun _ => ?c) => apply le_at_const
  | |- le_at _ _ (fun k => bind _ _) => apply le_at_bind; [ | intros ? ]
  | |- le_at _ _ (fun k => if ?b then _ else _) => destruct b
  | |- le_at _ _ (fun k => match ?t with _ => _ end) => destruct t
  | |- le_at ?n ?m ?f =>
      let g := eval cbv beta in (fun k => f k) in
      change (le_at n m g); solve [ auto with le_at nocore ]
  end.

Ltac le_at_tac := repeat le_at_step.

(** A loop on the fuel: induction, then the body on the smaller fuels. *)
Ltac le_at_loop unf :=
  let n := fresh "n" in
  let m := fresh "m" in
  let IH := fresh "IH" in
  intros n; induction n as [|n IH]; intros m;
  [ intros; intros ? ? ?; simpl in *; congruence
  | destruct m; [intros; lia|]; intros;
    intros ? ?; unf;
    match goal with
    | |- ?X ?p = Some ?r -> ?Y ?p = Some ?r =>
        match eval pattern n in X with
        | ?F _ => revert p r; change (le_at n m F)
        end
    end;
    assert (n <= m)%nat by lia;
    le_at_tac ].

Lemma scan_mono n m : (n <= m)%nat -> le_at n m (fun k => scan k).
Proof.
  intros Hle p r. unfold scan.
  destruct (negb (buf_n p =? 0)%Z); [auto|].
  destruct (Scan n (s p)) as [[[tok lit] s']|] eqn:E; [|discriminate].
  rewrite (Scan_mono _ _ _ _ E Hle). auto.
Qed.
#[local] Hint Extern 0 (le_at _ _ (fun k => scan k)) =>
  apply scan_mono; assumption : le_at.

Lemma scanIgnoreWhitespace_mono n m :
  (n <= m)%nat -> le_at n m (fun k => scanIgnoreWhitespace k).
Proof. intros Hle. unfold scanIgnoreWhitespace. le_at_tac. Qed.
#[local] Hint Extern 0 (le_at _ _ (fun k => scanIgnoreWhitespace k)) =>
  apply scanIgnoreWhitespace_mono; assumption : le_at.

Lemma Parser_scanIdent_mono n m :
  (n <= m)%nat -> le_at n m (fun k => Parser_scanIdent k).
Proof. intros Hle. unfold Parser_scanIdent. le_at_tac. Qed.
#[local] Hint Extern 0 (le_at _ _ (fun k => Parser_scanIdent k)) =>
  apply Parser_scanIdent_mono; assumption : le_at.

Lemma scanType_mono n m : (n <= m)%nat -> le_at n m (fun k => scanType k).
Proof. intros Hle. unfold scanType. le_at_tac. Qed.
#[local] Hint Extern 0 (le_at _ _ (fun k => scanType k)) =>
  apply scanType_mono; assumption : le_at.

Lemma scanDefault_mono n m : (n <= m)%nat -> le_at n m (fun k => scanDefault k).
Proof. intros Hle. unfold scanDefault. le_at_tac. Qed.
#[local] Hint Extern 0 (le_at _ _ (fun k => scanDefault k)) =>
  apply scanDefault_mono; assumption : le_at.

Lemma scanColumn_loop_mono : forall n m, (n <= m)%nat ->
  forall column, le_at n m (fun k => scanColumn_loop k column).
Proof. le_at_loop ltac:(cbn [scanColumn_loop]). Qed.
#[local] Hint Extern 0 (le_at _ _ (fun k => scanColumn_loop k _)) =>
  apply scanColumn_loop_mono; assumption : le_at.

Lemma scanColumn_mono n m : (n <= m)%nat -> le_at n m (fun k => scanColumn k).
Proof. intros Hle. unfold scanColumn. le_at_tac. Qed.
#[local] Hint Extern 0 (le_at _ _ (fun k => scanColumn k)) =>
  apply scanColumn_mono; assumption : le_at.

Lemma scanParenIdent_mono n m :
  (n <= m)%nat -> le_at n m (fun k => scanParenIdent k).
Proof. intros Hle. unfold scanParenIdent. le_at_tac. Qed.
#[local] Hint Extern 0 (le_at _ _ (fun k => scanParenIdent k)) =>
  apply scanParenIdent_mono; assumption : le_at.

Lemma scanPrimaryKey_mono n m :
  (n <= m)%nat -> le_at n m (fun k => scanPrimaryKey k).
Proof. intros Hle. unfold scanPrimaryKey. le_at_tac. Qed.
#[local] Hint Extern 0 (le_at _ _ (fun k => scanPrimaryKey k)) =>
  apply scanPrimaryKey_mono; assumption : le_at.

Lemma scanKey_mono n m : (n <= m)%nat -> le_at n m (fun k => scanKey k).
Proof. intros Hle. unfold scanKey. le_at_tac. Qed.
#[local] Hint Extern 0 (le_at _ _ (fun k => scanKey k)) =>
  apply scanKey_mono; assumption : le_at.

Lemma scanConstraint_mono n m :
  (n <= m)%nat -> le_at n m (fun k => scanConstraint k).
Proof. intros Hle. unfold scanConstraint. le_at_tac. Qed.
#[local] Hint Extern 0 (le_at _ _ (fun k => scanConstraint k)) =>
  apply scanConstraint_mono; assumption : le_at.

Lemma scanKV_mono n m : (n <= m)%nat -> le_at n m (fun k => scanKV k).
Proof. intros Hle. unfold scanKV. le_at_tac. Qed.
#[local] Hint Extern 0 (le_at _ _ (fun k => scanKV k)) =>
  apply scanKV_mono; assumption : le_at.

Lemma scanExtra_loop_mono : forall n m, (n <= m)%nat ->
  forall extras, le_at n m (fun k => scanExtra_loop k extras).
Proof. le_at_loop ltac:(cbn [scanExtra_loop]). Qed.
#[local] Hint Extern 0 (le_at _ _ (fun k => scanExtra_loop k _)) =>
  apply scanExtra_loop_mono; assumption : le_at.

Lemma scanExtra_mono n m : (n <= m)%nat -> le_at n m (fun k => scanExtra k).
Proof. intros Hle. unfold scanExtra. le_at_tac. Qed.
#[local] Hint Extern 0 (le_at _ _ (fun k => scanExtra k)) =>
  apply scanExtra_mono; assumption : le_at.

Lemma parse_skip_mono : forall n m, (n <= m)%nat ->
  le_at n m (fun k => parse_skip k).
Proof. le_at_loop ltac:(cbn [parse_skip]). Qed.
#[local] Hint Extern 0 (le_at _ _ (fun k => parse_skip k)) =>
  apply parse_skip_mono; assumption : le_at.

Lemma parse_head_mono : forall n m, (n <= m)%nat ->
  le_at n m (fun k => parse_head k).
Proof. le_at_loop ltac:(cbn [parse_head]). Qed.
#[local] Hint Extern 0 (le_at _ _ (fun k => parse_head k)) =>
  apply parse_head_mono; assumption : le_at.

Lemma parse_items_mono : forall n m, (n <= m)%nat ->
  forall table, le_at n m (fun k => parse_items k table).
Proof. le_at_loop ltac:(cbn [parse_items]). Qed.
#[local] Hint Extern 0 (le_at _ _ (fun k => parse_items k _)) =>
  apply parse_items_mono; assumption : le_at.

Lemma parse_mono n m : (n <= m)%nat -> le_at n m (fun k => parse k).
Proof. intros Hle. unfold parse. le_at_tac. Qed.
#[local] Hint Extern 0 (le_at _ _ (fun k => parse k)) =>
  apply parse_mono; assumption : le_at.

Lemma Parse_loop_mono : forall n m, (n <= m)%nat ->
  forall schema, le_at n m (fun k => Parse_loop k schema).
Proof. le_at_loop ltac:(cbn [Parse_loop]). Qed.

Lemma Parse_mono n m : (n <= m)%nat -> le_at n m (fun k => Parse k).
Proof. intros Hle. unfold Parse. apply Parse_loop_mono, Hle. Qed.

Lemma ParseString_mono n m input r :
  (n <= m)%nat -> ParseString n input = Some r -> ParseString m input = Some r.
Proof.
  unfold ParseString. intros Hle H.
  destruct (Parse n (NewParser input)) as [[r' p']|] eqn:E; [|discriminate].
  rewrite (Parse_mono _ _ Hle _ _ E). exact H.
Qed.

(** ** Line comments *)

Lemma scanLineComment_no_newline fuel : forall sc,
  contains "010" (rest sc) = false -> scanLineComment fuel sc = None.
Proof.
  induction fuel as [|fuel IH]; intros [lst r] H; [reflexivity|].
  cbn [rest] in H.
  destruct r as [|ch r]; cbn [contains] in H.
  - cbn. apply IH. reflexivity.
  - apply orb_false_iff in H as [Hch Hr].
    cbn [scanLineComment]. unfold read. cbv beta iota. cbn [rest].
    cbv beta iota. rewrite Hch. apply IH. exact Hr.
Qed.

(** C5.  When the remaining input begins with [--] and has no newline
    after it, [Scan] does not return: whatever the fuel, the loop of the
    line comment is still reading, since a read at the end of the input
    yields [eof], which is not a newline. *)
Theorem Scan_line_comment_diverges fuel lst r :
  contains "010" r = false ->
  Scan fuel {| last := lst; rest := String "-" (String "-" r) |} = None.
Proof.
  intros H. unfold Scan, read. cbn.
  apply scanLineComment_no_newline. exact H.
Qed.

Lemma Scan_line_comment_diverges_witness :
  contains "010" " no newline" = false /\
  Scan 1000 (NewScanner "-- no newline") = None.
Proof.
  split; [reflexivity|].
  apply (Scan_line_comment_diverges 1000 None " no newline"). reflexivity.
Defined.

Lemma scanLineComment_S fuel sc :
  scanLineComment (S fuel) sc
  = let (c, s1) := read sc in
    if Ascii.eqb c "010" then Some (ANNOTATION, EmptyString, s1)
    else scanLineComment fuel s1.
Proof. reflexivity. Qed.

(** With a newline the same loop returns, and consumes through it. *)
Lemma scanLineComment_newline : forall pre lst post,
  contains "010" pre = false ->
  scanLineComment (S (String.length pre))
    {| last := lst; rest := pre ++ String "010" post |}
  = Some (ANNOTATION, EmptyString, {| last := Some "010"; rest := post |}).
Proof.
  induction pre as [|ch pre IH]; intros lst post H.
  - reflexivity.
  - cbn [contains] in H. apply orb_false_iff in H as [Hch Hpre].
    cbn [String.length]. rewrite scanLineComment_S.
    unfold read. simpl. rewrite Hch.
    apply IH. exact Hpre.
Qed.

(** ** Block comments *)

(** C6.  The empty block comment [/**/] at the end of the input is not
    scanned as a comment: [Scan] returns [ILLEGAL]. *)
Theorem Scan_empty_block_comment fuel :
  Scan (3 + fuel) (NewScanner "/**/")
  = Some (ILLEGAL, EmptyString, {| last := None; rest := EmptyString |}).
Proof. reflexivity. Qed.

(** The same for a body that ends in a star, and the opening [/*] closes
    itself when a slash follows. *)
Lemma Scan_block_comment_star fuel :
  Scan (6 + fuel) (NewScanner "/* a **/")
  = Some (ILLEGAL, EmptyString, {| last := None; rest := EmptyString |}).
Proof. reflexivity. Qed.

Lemma Scan_block_comment_self_closing fuel :
  Scan (1 + fuel) (NewScanner "/*/ x")
  = Some (ANNOTATION, EmptyString, {| last := Some "/"; rest := " x" |}).
Proof. reflexivity. Qed.

(** ** Skipping whitespace and comments *)

(** C1.  [scanIgnoreWhitespace] skips one token only: on a comment
    followed by a space it returns the [WS] token. *)
Theorem scanIgnoreWhitespace_returns_WS fuel :
  scanIgnoreWhitespace (4 + fuel) (NewParser "/* c */ x")
  = Some ((WS, " "%string),
          {| s := {| last := None; rest := "x" |};
             buf_tok := WS; buf_lit := " "; buf_n := 0 |}).
Proof. reflexivity. Qed.

Lemma scanIgnoreWhitespace_returns_ANNOTATION fuel :
  scanIgnoreWhitespace (4 + fuel) (NewParser " /* c */x")
  = Some ((ANNOTATION, EmptyString),
          {| s := {| last := Some "/"; rest := "x" |};
             buf_tok := ANNOTATION; buf_lit := EmptyString; buf_n := 0 |}).
Proof. reflexivity. Qed.

(** C3.  A block comment, a space and a well-formed [CREATE TABLE]
    statement: [Parse] returns an error and an empty schema. *)
Theorem Parse_comment_space_create fuel :
  ParseString (10 + fuel) "/* c */ CREATE TABLE `t` (`id` int);"
  = Some (∅, Some (Errorf "unexpected %v: %q" [ArgTok WS; ArgLit " "])).
Proof.
  apply (ParseString_mono 10); [lia|]. vm_compute. reflexivity.
Qed.

(** Without the comment the statement parses. *)
Lemma Parse_create_alone fuel :
  ParseString (10 + fuel) "CREATE TABLE `t` (`id` int);"
  = Some (<["t"%string :=
             set_Columns (<["id"%string := mkColumn "id" "int" 0 None EmptyString false false]> ∅)
               (set_Name "t" Table_new)]> ∅, None).
Proof.
  apply (ParseString_mono 10); [lia|]. vm_compute. reflexivity.
Qed.

(** ** The fuel

    The result of [Parse] on an input does not depend on the fuel: two
    runs that return, return the same schema and the same error. *)
Lemma ParseString_fuel_independent input n m r1 r2 :
  ParseString n input = Some r1 -> ParseString m input = Some r2 -> r1 = r2.
Proof.
  intros H1 H2.
  destruct (Nat.le_ge_cases n m) as [Hle|Hle].
  - apply (ParseString_mono _ _ _ _ Hle) in H1. congruence.
  - apply (ParseString_mono _ _ _ _ Hle) in H2. congruence.
Qed.

(** ** The item list of a table body *)

(** C4, as stated, fails: a [SEMI_COLON] in the item list ends the
    statement and the table built so far is returned without an error. *)
Lemma parse_semicolon_in_items :
  parse 10 (NewParser "CREATE TABLE `t` (;")
  = Some (Ok (Some (set_Name "t" Table_new)),
          {| s := {| last := Some ";"; rest := EmptyString |};
             buf_tok := SEMI_COLON; buf_lit := ";"; buf_n := 0 |}).
Proof. vm_compute. reflexivity. Qed.

(** C4, amended.  In the item list, a leading token that is none of
    [IDENT], [PRIMARY], [UNIQUE], [KEY], [CONSTRAINT], [COMMA] and
    [CLOSE_PAREN] ends the loop at once: [SEMI_COLON] returns the table
    built so far, every other token returns an error that carries the
    token's literal. *)
Theorem parse_items_leading_token fuel table p tok lit p' :
  scanIgnoreWhitespace fuel p = Some ((tok, lit), p') ->
  ~ In tok [IDENT; PRIMARY; UNIQUE; KEY; CONSTRAINT; COMMA; CLOSE_PAREN] ->
  parse_items (S fuel) table p
  = Some (if Token_eqb tok SEMI_COLON then Ok table
          else Err (Errorf
                 "found %q, expected ident or primary or unique or key or constraint"
                 [ArgLit lit]),
          p').
Proof.
  intros H Hnot. cbn [parse_items]. unfold bind. rewrite H.
  destruct tok; try reflexivity; exfalso; apply Hnot; cbn; tauto.
Qed.

Lemma parse_items_leading_token_witness :
  parse_items 2 Table_new (NewParser "= x")
  = Some (Err (Errorf
            "found %q, expected ident or primary or unique or key or constraint"
            [ArgLit "="]),
          {| s := {| last := Some "="; rest := " x" |};
             buf_tok := EQUAL; buf_lit := "="; buf_n := 0 |}).
Proof.
  apply (parse_items_leading_token 1 Table_new (NewParser "= x") EQUAL "=").
  - reflexivity.
  - cbn. intros H. repeat (destruct H as [H|H]; [discriminate H|]). exact H.
Defined.

(** ** The schema returned with an error *)

Lemma Parse_loop_error fuel : forall schema0 p schema e p',
  Parse_loop fuel schema0 p = Some ((schema, Some e), p') ->
  exists ts p1 fuel',
    parse_run p ts p1 /\ parse fuel' p1 = Some (Err e, p') /\
    schema = commit schema0 ts.
Proof.
  induction fuel as [|fuel IH]; intros schema0 p schema e p' H; [discriminate|].
  cbn [Parse_loop] in H. unfold bind in H.
  destruct (parse fuel p) as [[[[t|]|e0] p1]|] eqn:E; try discriminate.
  - apply IH in H as (ts & p2 & fuel' & Hrun & Herr & Hs).
    exists (t :: ts), p2, fuel'. split; [|split].
    + econstructor; eassumption.
    + exact Herr.
    + exact Hs.
  - injection H as <- <- <-.
    exists [], p, fuel. split; [constructor|]. split; [exact E|reflexivity].
Qed.

Lemma commit_lookup ts : forall (schema0 : gmap string Table) k t,
  commit schema0 ts !! k = Some t ->
  (In t ts /\ Table_Name t = k) \/ schema0 !! k = Some t.
Proof.
  induction ts as [|t0 ts IH]; intros schema0 k t H; [right; exact H|].
  cbn in H. apply IH in H as [[Hin Hk]|H].
  - left. split; [right; exact Hin|exact Hk].
  - destruct (decide (Table_Name t0 = k)) as [Heq|Hne].
    + subst k. rewrite lookup_insert_eq in H. injection H as <-.
      left. split; [left; reflexivity|reflexivity].
    + rewrite lookup_insert_ne in H by exact Hne. right. exact H.
Qed.

Lemma commit_present ts : forall (schema0 : gmap string Table) k,
  (is_Some (schema0 !! k) \/ exists t, In t ts /\ Table_Name t = k) ->
  is_Some (commit schema0 ts !! k).
Proof.
  induction ts as [|t0 ts IH]; intros schema0 k H.
  - destruct H as [H|(t & [] & _)]. exact H.
  - cbn. apply IH.
    destruct (decide (Table_Name t0 = k)) as [Heq|Hne].
    + left. subst k. rewrite lookup_insert_eq. eauto.
    + rewrite lookup_insert_ne by exact Hne.
      destruct H as [H|(t & [Ht|Ht] & Hk)].
      * left. exact H.
      * subst t0. contradiction.
      * right. exists t. split; assumption.
Qed.

Lemma commit_last ts : forall (schema0 : gmap string Table) t,
  ~ In (Table_Name t) (map Table_Name ts) ->
  commit (<[Table_Name t := t]> schema0) ts !! Table_Name t = Some t.
Proof.
  induction ts as [|t0 ts IH]; intros schema0 t Hnot.
  - cbn. apply lookup_insert_eq.
  - cbn in *. rewrite insert_insert_ne by (intros Heq; apply Hnot; left; congruence).
    apply IH. intros Hin. apply Hnot. right. exact Hin.
Qed.

Lemma commit_NoDup ts : forall (schema0 : gmap string Table) t,
  List.NoDup (map Table_Name ts) -> In t ts ->
  commit schema0 ts !! Table_Name t = Some t.
Proof.
  induction ts as [|t0 ts IH]; intros schema0 t Hnd Hin; [destruct Hin|].
  cbn in Hnd. apply List.NoDup_cons_iff in Hnd as [Hnot Hnd].
  destruct Hin as [->|Hin].
  - cbn. apply commit_last. exact Hnot.
  - cbn. apply IH; assumption.
Qed.

(** When [Parse] returns an error, the schema it returns with it is made
    of the tables that the calls of [parse] before the failing one
    returned, stored under their names in that order, and of nothing
    else: the failing call adds no table. *)
Lemma Parse_error_run fuel p schema e p' :
  Parse fuel p = Some ((schema, Some e), p') ->
  exists ts p1 fuel',
    parse_run p ts p1 /\ parse fuel' p1 = Some (Err e, p') /\
    schema = commit ∅ ts /\
    (forall k t, schema !! k = Some t -> In t ts /\ Table_Name t = k) /\
    (forall t, In t ts -> is_Some (schema !! Table_Name t)) /\
    (List.NoDup (map Table_Name ts) ->
     forall t, In t ts -> schema !! Table_Name t = Some t).
Proof.
  intros H. apply Parse_loop_error in H as (ts & p1 & fuel' & Hrun & Herr & ->).
  exists ts, p1, fuel'. repeat split; try assumption.
  - apply commit_lookup in H as [[Hin _]|H]; [exact Hin|].
    rewrite lookup_empty in H. discriminate.
  - apply commit_lookup in H as [[_ Hk]|H]; [exact Hk|].
    rewrite lookup_empty in H. discriminate.
  - intros t Hin. apply commit_present. right. exists t. split; [exact Hin|reflexivity].
  - intros Hnd t Hin. apply commit_NoDup; assumption.
Qed.

(** ** Column definitions *)

Lemma scan_buffer fuel p tok lit p' :
  scan fuel p = Some ((tok, lit), p') ->
  buf_tok p' = tok /\ buf_lit p' = lit /\ buf_n p' = 0%Z.
Proof.
  unfold scan. destruct (negb (buf_n p =? 0)%Z).
  - intros [= <- <- <-]. auto.
  - destruct (Scan fuel (s p)) as [[[t l] s']|]; [|discriminate].
    intros [= <- <- <-]. auto.
Qed.

Lemma scanIgnoreWhitespace_buffer fuel p tok lit p' :
  scanIgnoreWhitespace fuel p = Some ((tok, lit), p') ->
  buf_tok p' = tok /\ buf_lit p' = lit /\ buf_n p' = 0%Z.
Proof.
  unfold scanIgnoreWhitespace, bind, ret.
  destruct (scan fuel p) as [[[t l] p1]|] eqn:E; [|discriminate].
  destruct (Token_eqb t WS || Token_eqb t ANNOTATION).
  - apply scan_buffer.
  - intros [= <- <- <-]. eapply scan_buffer, E.
Qed.

(** After [unscan], the token just returned is returned again, unless it
    is whitespace or a comment. *)
Lemma scanIgnoreWhitespace_unscanned fuel0 fuel p tok lit p' :
  scanIgnoreWhitespace fuel0 p = Some ((tok, lit), p') ->
  Token_eqb tok WS || Token_eqb tok ANNOTATION = false ->
  scanIgnoreWhitespace fuel (unscanned p') = Some ((tok, lit), p').
Proof.
  intros H Hsig. apply scanIgnoreWhitespace_buffer in H as (Ht & Hl & Hn).
  unfold scanIgnoreWhitespace, bind, scan, unscanned, ret. cbn.
  rewrite Ht, Hsig. destruct p'; cbn in *. subst. reflexivity.
Qed.

Lemma scanDefault_unscanned fuel0 fuel p lit p1 val p2 :
  scanIgnoreWhitespace fuel0 p = Some ((DEFAULT, lit), p1) ->
  scanDefault fuel (unscanned p1) = Some (Ok val, p2) ->
  exists tok vlit,
    scanIgnoreWhitespace fuel p1 = Some ((tok, vlit), p2) /\
    In tok [NULL; CURRENT_TIMESTAMP; STRING] /\
    val = default_value tok vlit.
Proof.
  intros H Hd. unfold scanDefault, bind in Hd.
  rewrite (scanIgnoreWhitespace_unscanned _ fuel _ _ _ _ H eq_refl) in Hd.
  cbn [Token_eqb negb] in Hd. cbv beta iota in Hd.
  change (negb (Token_eqb DEFAULT DEFAULT)) with false in Hd. cbv iota in Hd.
  cbv beta iota in Hd. unfold ret in Hd.
  destruct (scanIgnoreWhitespace fuel p1) as [[[tok vlit] p2']|]; [|discriminate Hd].
  exists tok, vlit.
  destruct tok; try discriminate Hd; injection Hd as <- <-;
    (split; [reflexivity|split; [cbn; tauto|reflexivity]]).
Qed.

Lemma scanColumn_loop_clauses fuel : forall c p c' p',
  scanColumn_loop fuel c p = Some (Ok c', p') ->
  exists cls, reads_clauses p cls p' /\ c' = apply_clauses c cls.
Proof.
  induction fuel as [|fuel IH]; intros c p c' p' H; [discriminate|].
  cbn [scanColumn_loop] in H. unfold bind in H.
  destruct (scanIgnoreWhitespace fuel p) as [[[tok lit] p1]|] eqn:E;
    [|discriminate].
  unfold ret, unscan in H.
  destruct tok; try discriminate H; cbv beta iota in H.
  - (* COMMA *)
    injection H as <- <-. exists []. split; [|reflexivity].
    econstructor; [exists fuel; exact E|cbn; tauto].
  - (* CLOSE_PAREN *)
    injection H as <- <-. exists []. split; [|reflexivity].
    econstructor; [exists fuel; exact E|cbn; tauto].
  - (* DEFAULT *)
    fold (unscanned p1) in H.
    destruct (scanDefault fuel (unscanned p1)) as [[[val|e] p2]|] eqn:Ed;
      try discriminate.
    destruct (scanDefault_unscanned _ _ _ _ _ _ _ E Ed)
      as (tok & vlit & Hv & Hin & ->).
    apply IH in H as (cls & Hrun & ->).
    exists (ClDefault tok vlit :: cls). split; [|reflexivity].
    econstructor; [|exact Hrun].
    econstructor; [exists fuel; exact E|exists fuel; exact Hv|exact Hin].
  - (* NOT *)
    destruct (scanIgnoreWhitespace fuel p1) as [[[tok1 lit1] p2]|] eqn:E1;
      [|discriminate].
    destruct tok1; try discriminate H. cbv beta iota in H.
    apply IH in H as (cls & Hrun & ->).
    exists (ClNotNull :: cls). split; [|reflexivity].
    econstructor; [|exact Hrun].
    econstructor; [exists fuel; exact E|exists fuel; exact E1].
  - (* NULL *)
    apply IH in H as (cls & Hrun & ->).
    exists (ClNull :: cls). split; [|reflexivity].
    econstructor; [|exact Hrun]. econstructor. exists fuel; exact E.
  - (* COMMENT *)
    destruct (scanIgnoreWhitespace fuel p1) as [[[tok1 lit1] p2]|] eqn:E1;
      [|discriminate].
    destruct tok1; try discriminate H. cbv beta iota in H.
    apply IH in H as (cls & Hrun & ->).
    exists (ClComment lit1 :: cls). split; [|reflexivity].
    econstructor; [|exact Hrun].
    econstructor; [exists fuel; exact E|exists fuel; exact E1].
  - (* AUTO_INCREMENT *)
    apply IH in H as (cls & Hrun & ->).
    exists (ClAutoIncr :: cls). split; [|reflexivity].
    econstructor; [|exact Hrun]. econstructor. exists fuel; exact E.
Qed.

Lemma scanColumn_clauses fuel p col p' :
  scanColumn fuel p = Some (Ok col, p') ->
  exists lit p0 t sz p1 cls,
    Parser_scanIdent fuel p = Some ((IDENT, lit), p0) /\
    scanType fuel p0 = Some (Ok (t, sz), p1) /\
    reads_clauses p1 cls p' /\
    col = apply_clauses (mkColumn lit t sz None EmptyString false false) cls.
Proof.
  unfold scanColumn, bind, ret. intros H.
  destruct (Parser_scanIdent fuel p) as [[[tok lit] p0]|] eqn:E0; [|discriminate H].
  destruct tok; try discriminate H. cbv beta iota in H.
  change (negb (Token_eqb IDENT IDENT)) with false in H. cbv beta iota in H.
  destruct (scanType fuel p0) as [[[[t sz]|e] p1]|] eqn:E1; try discriminate H.
  cbv beta iota in H.
  apply scanColumn_loop_clauses in H as (cls & Hrun & ->).
  exists lit, p0, t, sz, p1, cls. auto.
Qed.

Lemma apply_clauses_Nullable cls : forall c,
  Column_Nullable (apply_clauses c cls)
  = nullable_after (Column_Nullable c) cls.
Proof.
  unfold apply_clauses, nullable_after.
  induction cls as [|cl cls IH]; intros c; [reflexivity|].
  cbn [fold_left]. rewrite IH. f_equal. destruct cl; reflexivity.
Qed.

Lemma nullable_after_keeps post : forall b,
  Forall keeps_nullable post -> nullable_after b post = b.
Proof.
  unfold nullable_after.
  induction post as [|cl post IH]; intros b H; [reflexivity|].
  apply Forall_cons_iff in H as [Hcl Hpost].
  cbn [fold_left]. rewrite IH by exact Hpost.
  destruct cl; try contradiction; reflexivity.
Qed.

Lemma nullable_after_cons cl cls b :
  nullable_after b (cl :: cls) = nullable_after (clause_nullable b cl) cls.
Proof. reflexivity. Qed.

Lemma nullable_after_app pre post b :
  nullable_after b (pre ++ post) = nullable_after (nullable_after b pre) post.
Proof. apply fold_left_app. Qed.

Lemma reads_clauses_default p cls p' :
  reads_clauses p cls p' ->
  forall tok lit, In (ClDefault tok lit) cls ->
  In tok [NULL; CURRENT_TIMESTAMP; STRING].
Proof.
  induction 1 as [|p cl p1 cls p2 Hcl Hrun IH]; intros tk vl Hin.
  - destruct Hin.
  - destruct Hin as [->|Hin]; [|eapply IH; exact Hin].
    inversion Hcl; subst. assumption.
Qed.

(** C2, as stated, fails: a column definition without clauses gives
    [Nullable == false]. *)
Lemma scanColumn_no_clause :
  scanColumn 5 (NewParser "`id` int,")
  = Some (Ok (mkColumn "id" "int" 0 None EmptyString false false),
          {| s := {| last := Some ","; rest := EmptyString |};
             buf_tok := COMMA; buf_lit := ","; buf_n := 1 |}).
Proof. vm_compute. reflexivity. Qed.

(** C2, amended.  The [Nullable] flag of a column that [scanColumn]
    returns is [false] by default; each [NULL] clause sets it to [true],
    each [NOT NULL] clause to [false] and each [DEFAULT] clause to whether
    the default text is [null], in the order of the clauses.  With no
    clause it is [false]. *)
Theorem scanColumn_Nullable fuel p col p' :
  scanColumn fuel p = Some (Ok col, p') ->
  exists lit p0 t sz p1 cls,
    Parser_scanIdent fuel p = Some ((IDENT, lit), p0) /\
    scanType fuel p0 = Some (Ok (t, sz), p1) /\
    reads_clauses p1 cls p' /\
    Column_Nullable col = nullable_after false cls /\
    (cls = [] -> Column_Nullable col = false).
Proof.
  intros H. apply scanColumn_clauses in H
    as (lit & p0 & t & sz & p1 & cls & Hid & Hty & Hrun & ->).
  exists lit, p0, t, sz, p1, cls. repeat split; try assumption.
  - apply apply_clauses_Nullable.
  - intros ->. reflexivity.
Qed.

Lemma scanColumn_Nullable_witness :
  exists lit p0 t sz p1 cls,
    Parser_scanIdent 10 (NewParser "`c` int NOT NULL NULL,") = Some ((IDENT, lit), p0) /\
    scanType 10 p0 = Some (Ok (t, sz), p1) /\
    reads_clauses p1 cls
      {| s := {| last := Some ","; rest := EmptyString |};
         buf_tok := COMMA; buf_lit := ","; buf_n := 1 |} /\
    Column_Nullable (mkColumn "c" "int" 0 None EmptyString true false)
    = nullable_after false cls /\
    (cls = [] ->
     Column_Nullable (mkColumn "c" "int" 0 None EmptyString true false) = false).
Proof.
  apply (scanColumn_Nullable 10 (NewParser "`c` int NOT NULL NULL,")).
  vm_compute. reflexivity.
Defined.

(** C9, as stated, fails: the quoted default ['null'] sets [Nullable] to
    [true], as [DEFAULT NULL] does. *)
Lemma scanColumn_default_quoted_null :
  scanColumn 10 (NewParser "`c` int NOT NULL DEFAULT 'null',")
  = Some (Ok (mkColumn "c" "int" 0 (Some "null"%string) EmptyString true false),
          {| s := {| last := Some ","; rest := EmptyString |};
             buf_tok := COMMA; buf_lit := ","; buf_n := 1 |}).
Proof. vm_compute. reflexivity. Qed.

(** C9, amended.  When the last clause of a column definition that sets
    [Nullable] is a [DEFAULT] clause, the flag is [true] for [DEFAULT NULL]
    and for a quoted string whose text is [null], and [false] for
    [CURRENT_TIMESTAMP] and for every other quoted string, whatever the
    clauses before it were. *)
Theorem scanColumn_DEFAULT_Nullable fuel p col p' :
  scanColumn fuel p = Some (Ok col, p') ->
  exists lit p0 t sz p1 cls,
    Parser_scanIdent fuel p = Some ((IDENT, lit), p0) /\
    scanType fuel p0 = Some (Ok (t, sz), p1) /\
    reads_clauses p1 cls p' /\
    forall pre tok vlit post,
      cls = (pre ++ ClDefault tok vlit :: post)%list ->
      Forall keeps_nullable post ->
      In tok [NULL; CURRENT_TIMESTAMP; STRING] /\
      Column_Nullable col
      = match tok with
        | NULL => true
        | STRING => String.eqb vlit "null"
        | _ => false
        end.
Proof.
  intros H. apply scanColumn_clauses in H
    as (lit & p0 & t & sz & p1 & cls & Hid & Hty & Hrun & ->).
  exists lit, p0, t, sz, p1, cls.
  split; [exact Hid|]. split; [exact Hty|]. split; [exact Hrun|].
  intros pre tok vlit post Hcls Hpost.
  assert (Hin : In tok [NULL; CURRENT_TIMESTAMP; STRING]).
  { eapply reads_clauses_default; [exact Hrun|].
    subst cls. apply in_or_app. right. left. reflexivity. }
  split; [exact Hin|].
  rewrite apply_clauses_Nullable. subst cls.
  rewrite nullable_after_app.
  rewrite nullable_after_cons, (nullable_after_keeps post _ Hpost).
  cbn in Hin. destruct Hin as [<-|[<-|[<-|[]]]]; reflexivity.
Qed.

Lemma scanColumn_DEFAULT_Nullable_witness :
  exists lit p0 t sz p1 cls,
    Parser_scanIdent 10 (NewParser "`c` int NULL DEFAULT 'x',") = Some ((IDENT, lit), p0) /\
    scanType 10 p0 = Some (Ok (t, sz), p1) /\
    reads_clauses p1 cls
      {| s := {| last := Some ","; rest := EmptyString |};
         buf_tok := COMMA; buf_lit := ","; buf_n := 1 |} /\
    forall pre tok vlit post,
      cls = (pre ++ ClDefault tok vlit :: post)%list ->
      Forall keeps_nullable post ->
      In tok [NULL; CURRENT_TIMESTAMP; STRING] /\
      Column_Nullable (mkColumn "c" "int" 0 (Some "x"%string) EmptyString false false)
      = match tok with
        | NULL => true
        | STRING => String.eqb vlit "null"
        | _ => false
        end.
Proof.
  apply (scanColumn_DEFAULT_Nullable 10 (NewParser "`c` int NULL DEFAULT 'x',")).
  vm_compute. reflexivity.
Defined.

(** ** Column names *)

(** C8, as stated, fails: an empty backtick-quoted identifier is an
    [IDENT] token with an empty literal, and the column is stored under
    the empty name. *)
Lemma Parse_empty_column_name :
  ParseString 10 "CREATE TABLE `t` (`` int);"
  = Some (<["t"%string :=
             set_Columns (<[EmptyString := mkColumn EmptyString "int" 0 None EmptyString false false]> ∅)
               (set_Name "t" Table_new)]> ∅, None).
Proof. vm_compute. reflexivity. Qed.

(** *** The scanner keeps the input free of adjacent backticks *)

Lemma adjacent_backticks_tail c r :
  adjacent_backticks (String c r) = false -> adjacent_backticks r = false.
Proof. cbn [adjacent_backticks]. intros H. apply orb_false_iff in H. tauto. Qed.

Lemma read_ok sc ch sc' :
  read sc = (ch, sc') -> Scanner_ok sc -> Scanner_ok sc'.
Proof.
  unfold read, Scanner_ok, pending. destruct sc as [l r]. cbn.
  destruct r as [|c r]; intros [= <- <-]; cbn; [reflexivity|].
  destruct l; [apply adjacent_backticks_tail|]; auto.
Qed.

Lemma unread_ok sc : Scanner_ok sc -> Scanner_ok (unread sc).
Proof.
  unfold unread, Scanner_ok, pending. destruct sc as [[c|] r]; cbn; auto.
Qed.

(** After a backtick was read, the next rune is not a backtick. *)
Lemma read_after_backtick sc sc1 ch sc2 :
  Scanner_ok sc -> read sc = ("`", sc1) -> read sc1 = (ch, sc2) ->
  Ascii.eqb ch "`" = false.
Proof.
  unfold read, Scanner_ok, pending. destruct sc as [l r]. cbn.
  destruct r as [|c r]; [intros _ [= Heof]; discriminate Heof|].
  intros Hok [= -> <-]. cbn.
  assert (H : adjacent_backticks (String "`" r) = false).
  { destruct l; [apply adjacent_backticks_tail in Hok|]; exact Hok. }
  destruct r as [|d r]; intros [= <- _]; [reflexivity|].
  cbn in H. apply orb_false_iff in H as [H _]. exact H.
Qed.

Lemma WriteRune_nonempty buf ch : WriteRune buf ch <> EmptyString.
Proof. unfold WriteRune. destruct buf; discriminate. Qed.

Ltac scan_loop_ok :=
  let fuel := fresh "fuel" in
  let IH := fresh "IH" in
  intros fuel; induction fuel as [|fuel IH]; [intros; discriminate|];
  cbn -[read unread]; intros;
  repeat match goal with
  | H : (let (_, _) := read ?sc in _) = Some _ |- _ =>
      let E := fresh "E" in
      destruct (read sc) eqn:E; apply read_ok in E; [|assumption]
  | H : (if ?b then _ else _) = Some _ |- _ => destruct b
  | H : Some _ = Some _ |- _ => injection H as H; subst
  end;
  eauto using unread_ok.

Lemma scanWhitespace_loop_ok : forall fuel buf sc buf' sc',
  scanWhitespace_loop fuel buf sc = Some (buf', sc') ->
  Scanner_ok sc -> Scanner_ok sc'.
Proof. scan_loop_ok. Qed.

Lemma scanDigit_loop_ok : forall fuel buf sc buf' sc',
  scanDigit_loop fuel buf sc = Some (buf', sc') ->
  Scanner_ok sc -> Scanner_ok sc'.
Proof. scan_loop_ok. Qed.

Lemma scanIdent_loop_ok : forall fuel buf sc buf' sc',
  scanIdent_loop fuel buf sc = Some (buf', sc') ->
  Scanner_ok sc -> Scanner_ok sc'.
Proof. scan_loop_ok. Qed.

Lemma readString_ok : forall fuel c buf sc buf' sc',
  readString fuel c buf sc = Some (buf', sc') ->
  Scanner_ok sc -> Scanner_ok sc'.
Proof. scan_loop_ok. Qed.

Lemma scanInlineComment_ok : forall fuel sc r sc',
  scanInlineComment fuel sc = Some (r, sc') ->
  Scanner_ok sc -> Scanner_ok sc'.
Proof. scan_loop_ok. Qed.

Lemma scanLineComment_ok : forall fuel sc r sc',
  scanLineComment fuel sc = Some (r, sc') ->
  Scanner_ok sc -> Scanner_ok sc'.
Proof. scan_loop_ok. Qed.

(** The loops only append to the buffer. *)
Lemma scanIdent_loop_nonempty : forall fuel buf sc buf' sc',
  scanIdent_loop fuel buf sc = Some (buf', sc') ->
  buf <> EmptyString -> buf' <> EmptyString.
Proof.
  induction fuel as [|fuel IH]; [discriminate|].
  cbn -[read unread]. intros buf sc buf' sc'.
  destruct (read sc) as [ch sc1].
  destruct (Ascii.eqb ch eof); [intros [= <- _]; auto|].
  destruct (negb (isLetter ch) && negb (isDigit ch) && negb (Ascii.eqb ch "_"));
    [intros [= <- _]; auto|].
  intros H _. eapply IH; [exact H|apply WriteRune_nonempty].
Qed.

Lemma readString_nonempty : forall fuel c buf sc buf' sc',
  readString fuel c buf sc = Some (buf', sc') ->
  buf <> EmptyString -> buf' <> EmptyString.
Proof.
  induction fuel as [|fuel IH]; [discriminate|].
  cbn -[read]. intros c buf sc buf' sc'.
  destruct (read sc) as [ch sc1].
  destruct (Ascii.eqb ch c); [intros [= <- _]; auto|].
  intros H _. eapply IH; [exact H|apply WriteRune_nonempty].
Qed.

Lemma unread_read sc ch sc1 :
  read sc = (ch, sc1) -> Ascii.eqb ch eof = false ->
  read (unread sc1) = (ch, sc1).
Proof.
  unfold read, unread. destruct sc as [l r]. cbn.
  destruct r as [|c r]; intros [= <- <-]; [discriminate|reflexivity].
Qed.

(** [Scan] keeps the property of the input, and on such an input every
    [IDENT] token has a literal that is not empty. *)
Lemma Scan_ok fuel sc tok lit sc' :
  Scan fuel sc = Some (tok, lit, sc') ->
  Scanner_ok sc -> Scanner_ok sc' /\ good_tok (tok, lit).
Proof.
  unfold Scan, good_tok. cbn [fst snd]. intros H Hok.
  destruct (read sc) as [ch sc1] eqn:E.
  pose proof (read_ok _ _ _ E Hok) as Hok1.
  destruct (isWhitespace ch) eqn:Hws.
  { unfold scanWhitespace in H.
    destruct (read (unread sc1)) as [ch' sc2] eqn:E2.
    destruct (scanWhitespace_loop fuel _ sc2) as [[buf sc3]|] eqn:E3;
      [|discriminate H].
    injection H as <- <- <-. split; [|discriminate].
    eapply scanWhitespace_loop_ok; [exact E3|].
    eapply read_ok; [exact E2|]. apply unread_ok, Hok1. }
  destruct (isLetter ch) eqn:Hl.
  { unfold scanIdent in H.
    destruct (read (unread sc1)) as [ch' sc2] eqn:E2.
    destruct (scanIdent_loop fuel _ sc2) as [[buf sc3]|] eqn:E3;
      [|discriminate H].
    injection H as <- <- <-. split.
    - eapply scanIdent_loop_ok; [exact E3|].
      eapply read_ok; [exact E2|]. apply unread_ok, Hok1.
    - intros _. eapply scanIdent_loop_nonempty; [exact E3|].
      apply WriteRune_nonempty. }
  destruct (isDigit ch) eqn:Hd.
  { unfold scanDigit in H.
    destruct (read (unread sc1)) as [ch' sc2] eqn:E2.
    destruct (scanDigit_loop fuel _ sc2) as [[buf sc3]|] eqn:E3;
      [|discriminate H].
    injection H as <- <- <-. split; [|discriminate].
    eapply scanDigit_loop_ok; [exact E3|].
    eapply read_ok; [exact E2|]. apply unread_ok, Hok1. }
  destruct (Ascii.eqb ch "'" || Ascii.eqb ch "`") eqn:Hq.
  { unfold scanString in H.
    assert (Hne : Ascii.eqb ch eof = false).
    { destruct (Ascii.eqb_spec ch eof) as [->|]; [discriminate Hq|reflexivity]. }
    rewrite (unread_read _ _ _ E Hne) in H.
    destruct (Ascii.eqb_spec ch "`") as [->|Hnb].
    - destruct (readString fuel "`" EmptyString sc1) as [[buf sc3]|] eqn:E3;
        [|discriminate H].
      injection H as <- <- <-. split.
      + eapply readString_ok; [exact E3|exact Hok1].
      + intros _. destruct fuel as [|fuel]; [discriminate E3|].
        cbn -[read] in E3. destruct (read sc1) as [c sc2] eqn:E2.
        rewrite (read_after_backtick _ _ _ _ Hok E E2) in E3.
        eapply readString_nonempty; [exact E3|apply WriteRune_nonempty].
    - destruct (Ascii.eqb ch "'").
      + destruct (readString fuel "'" EmptyString sc1) as [[buf sc3]|] eqn:E3;
          [|discriminate H].
        injection H as <- <- <-. split; [|discriminate].
        eapply readString_ok; [exact E3|exact Hok1].
      + injection H as <- <- <-. split; [exact Hok1|discriminate]. }
  destruct (Ascii.eqb ch "/").
  { destruct (read sc1) as [c sc2] eqn:E2.
    pose proof (read_ok _ _ _ E2 Hok1) as Hok2.
    destruct (Ascii.eqb c "*").
    - assert (Hok3 : Scanner_ok (unread (unread sc2)))
        by (apply unread_ok, unread_ok, Hok2).
      split; [eapply scanInlineComment_ok; [exact H|exact Hok3]|].
      revert H. generalize (unread (unread sc2)). clear.
      induction fuel as [|k IH]; intros sc; [discriminate|].
      cbn -[read]. destruct (read sc) as [a sa].
      destruct (Ascii.eqb a eof); [intros [= <- _ _]; discriminate|].
      destruct (Ascii.eqb a "*"); [|apply IH].
      destruct (read sa) as [b sb].
      destruct (Ascii.eqb b "/"); [intros [= <- _ _]; discriminate|apply IH].
    - injection H as <- <- <-. split; [apply unread_ok, Hok2|discriminate]. }
  destruct (Ascii.eqb ch eof); [injection H as <- <- <-; split; [exact Hok1|discriminate]|].
  destruct (Ascii.eqb ch ","); [injection H as <- <- <-; split; [exact Hok1|discriminate]|].
  destruct (Ascii.eqb ch "("); [injection H as <- <- <-; split; [exact Hok1|discriminate]|].
  destruct (Ascii.eqb ch ")"); [injection H as <- <- <-; split; [exact Hok1|discriminate]|].
  destruct (Ascii.eqb ch ";"); [injection H as <- <- <-; split; [exact Hok1|discriminate]|].
  destruct (Ascii.eqb ch "="); [injection H as <- <- <-; split; [exact Hok1|discriminate]|].
  destruct (Ascii.eqb ch "-").
  { destruct (read sc1) as [c sc2] eqn:E2.
    pose proof (read_ok _ _ _ E2 Hok1) as Hok2.
    destruct (Ascii.eqb c "-").
    - split; [eapply scanLineComment_ok; [exact H|exact Hok2]|].
      revert H. generalize sc2. clear.
      induction fuel as [|k IH]; intros sc; [discriminate|].
      cbn -[read]. destruct (read sc) as [a sa].
      destruct (Ascii.eqb a "010"); [intros [= <- _ _]; discriminate|apply IH].
    - injection H as <- <- <-. split; [exact Hok2|discriminate]. }
  injection H as <- <- <-. split; [exact Hok1|discriminate].
Qed.

(** *** The parser keeps it too *)

Lemma keeps_ret {A} (Q : A -> Prop) a : Q a -> keeps Q (ret a).
Proof. intros HQ p a' p' Hp [= <- <-]. auto. Qed.

Lemma keeps_bind {A B} (Q1 : A -> Prop) (Q2 : B -> Prop) m k :
  keeps Q1 m -> (forall a, Q1 a -> keeps Q2 (k a)) -> keeps Q2 (bind m k).
Proof.
  intros Hm Hk p b p' Hp. unfold bind.
  destruct (m p) as [[a p1]|] eqn:E; [|discriminate].
  destruct (Hm _ _ _ Hp E) as [Hp1 Ha]. apply Hk; assumption.
Qed.

Lemma keeps_weaken {A} (Q1 Q2 : A -> Prop) m :
  keeps Q1 m -> (forall a, Q1 a -> Q2 a) -> keeps Q2 m.
Proof. intros Hm HQ p a p' Hp E. destruct (Hm _ _ _ Hp E). auto. Qed.

Lemma keeps_unscan : keeps (fun _ => True) unscan.
Proof. intros p a p' Hp [= <- <-]. auto. Qed.

Lemma keeps_scan fuel : keeps good_tok (scan fuel).
Proof.
  intros p [tok lit] p' [Hs Hb]. unfold scan.
  destruct (negb (buf_n p =? 0)%Z).
  - intros [= <- <- <-]. repeat split; assumption.
  - destruct (Scan fuel (s p)) as [[[t l] s']|] eqn:E; [|discriminate].
    intros [= <- <- <-]. destruct (Scan_ok _ _ _ _ _ E Hs) as [Hs' Ht].
    repeat split; assumption.
Qed.

Create HintDb keeps discriminated.
#[local] Hint Extern 0 (keeps _ unscan) => apply keeps_unscan : keeps.
#[local] Hint Extern 0 (keeps _ (scan _)) => apply keeps_scan : keeps.
#[local] Hint Extern 0 (keeps _ (ret _)) => apply keeps_ret; exact I : keeps.

(** One step along the syntax of a computation; [fin] closes the
    postcondition at a [ret]. *)
Ltac keeps_step fin :=
  cbv beta iota;
  lazymatch goal with
  | |- keeps _ (ret _) => apply keeps_ret; fin
  | |- keeps _ (bind (if ?b then _ else _) _) => destruct b eqn:?
  | |- keeps _ (bind (ret _) _) =>
      eapply keeps_bind;
      [ apply (keeps_ret (fun _ => True)); exact I | intros ? ? ]
  | |- keeps _ (bind _ _) =>
      eapply keeps_bind; [ solve [ auto with keeps nocore ] | intros ? ? ]
  | |- keeps _ (if ?b then _ else _) => destruct b eqn:?
  | |- keeps _ (match ?t with _ => _ end) => destruct t eqn:?
  | |- keeps _ _ => solve [ auto with keeps nocore ]
  end.

Ltac keeps_tac fin := repeat keeps_step fin.

Ltac keeps_loop unf fin :=
  let fuel := fresh "fuel" in
  let IH := fresh "IH" in
  intros fuel; induction fuel as [|fuel IH]; intros;
  [ intros ? ? ? ? ?; discriminate
  | unf; keeps_tac fin ].

Lemma keeps_scanIgnoreWhitespace fuel : keeps good_tok (scanIgnoreWhitespace fuel).
Proof. unfold scanIgnoreWhitespace. keeps_tac ltac:(assumption). Qed.
#[local] Hint Extern 0 (keeps _ (scanIgnoreWhitespace _)) =>
  apply keeps_scanIgnoreWhitespace : keeps.

Lemma keeps_Parser_scanIdent fuel : keeps good_tok (Parser_scanIdent fuel).
Proof.
  unfold Parser_scanIdent.
  keeps_tac ltac:(first [assumption | intros ?; discriminate]).
Qed.
#[local] Hint Extern 0 (keeps _ (Parser_scanIdent _)) =>
  apply keeps_Parser_scanIdent : keeps.

Lemma keeps_scanType fuel : keeps (fun _ => True) (scanType fuel).
Proof. unfold scanType. keeps_tac ltac:(exact I). Qed.
#[local] Hint Extern 0 (keeps _ (scanType _)) => apply keeps_scanType : keeps.

Lemma keeps_scanDefault fuel : keeps (fun _ => True) (scanDefault fuel).
Proof. unfold scanDefault. keeps_tac ltac:(exact I). Qed.
#[local] Hint Extern 0 (keeps _ (scanDefault _)) => apply keeps_scanDefault : keeps.

Lemma keeps_scanParenIdent fuel : keeps (fun _ => True) (scanParenIdent fuel).
Proof. unfold scanParenIdent. keeps_tac ltac:(exact I). Qed.
#[local] Hint Extern 0 (keeps _ (scanParenIdent _)) =>
  apply keeps_scanParenIdent : keeps.

Lemma keeps_scanPrimaryKey fuel : keeps (fun _ => True) (scanPrimaryKey fuel).
Proof. unfold scanPrimaryKey. keeps_tac ltac:(exact I). Qed.
#[local] Hint Extern 0 (keeps _ (scanPrimaryKey _)) =>
  apply keeps_scanPrimaryKey : keeps.

Lemma keeps_scanKey fuel : keeps (fun _ => True) (scanKey fuel).
Proof. unfold scanKey. keeps_tac ltac:(exact I). Qed.
#[local] Hint Extern 0 (keeps _ (scanKey _)) => apply keeps_scanKey : keeps.

Lemma keeps_scanConstraint fuel : keeps (fun _ => True) (scanConstraint fuel).
Proof. unfold scanConstraint. keeps_tac ltac:(exact I). Qed.
#[local] Hint Extern 0 (keeps _ (scanConstraint _)) =>
  apply keeps_scanConstraint : keeps.

Lemma keeps_scanKV fuel : keeps (fun _ => True) (scanKV fuel).
Proof. unfold scanKV. keeps_tac ltac:(exact I). Qed.
#[local] Hint Extern 0 (keeps _ (scanKV _)) => apply keeps_scanKV : keeps.

Lemma keeps_scanExtra_loop : forall fuel extras,
  keeps (fun _ => True) (scanExtra_loop fuel extras).
Proof. keeps_loop ltac:(cbn [scanExtra_loop]) ltac:(exact I). Qed.
#[local] Hint Extern 0 (keeps _ (scanExtra_loop _ _)) =>
  apply keeps_scanExtra_loop : keeps.

Lemma keeps_scanExtra fuel : keeps (fun _ => True) (scanExtra fuel).
Proof. unfold scanExtra. apply keeps_scanExtra_loop. Qed.
#[local] Hint Extern 0 (keeps _ (scanExtra _)) => apply keeps_scanExtra : keeps.

Lemma keeps_parse_skip : forall fuel, keeps (fun _ => True) (parse_skip fuel).
Proof. keeps_loop ltac:(cbn [parse_skip]) ltac:(exact I). Qed.
#[local] Hint Extern 0 (keeps _ (parse_skip _)) => apply keeps_parse_skip : keeps.

Lemma keeps_parse_head : forall fuel, keeps (fun _ => True) (parse_head fuel).
Proof. keeps_loop ltac:(cbn [parse_head]) ltac:(exact I). Qed.
#[local] Hint Extern 0 (keeps _ (parse_head _)) => apply keeps_parse_head : keeps.

Lemma Token_eqb_eq a b : Token_eqb a b = true -> a = b.
Proof.
  unfold Token_eqb. intros H. apply Z.eqb_eq in H.
  destruct a; destruct b; try reflexivity; discriminate H.
Qed.

Ltac fin_result :=
  idtac;
  let Heq := fresh in
  intros ? Heq;
  first [ discriminate Heq
        | injection Heq as <-; first [assumption | cbn; assumption] ].

#[local] Hint Extern 1 (Column_Name _ <> _) => cbn; assumption : keeps.

Lemma keeps_scanColumn_loop : forall fuel column,
  Column_Name column <> EmptyString ->
  keeps named (scanColumn_loop fuel column).
Proof. keeps_loop ltac:(cbn [scanColumn_loop]) ltac:(fin_result). Qed.

Lemma keeps_scanColumn fuel : keeps named (scanColumn fuel).
Proof.
  unfold scanColumn. eapply keeps_bind; [apply keeps_Parser_scanIdent|].
  intros [tok lit] Htok.
  destruct (negb (Token_eqb tok IDENT)) eqn:E.
  - apply keeps_ret. intros ? [=].
  - apply negb_false_iff, Token_eqb_eq in E.
    eapply keeps_bind; [apply keeps_scanType|]. intros [[t sz]|e] _.
    + apply keeps_scanColumn_loop. cbn. apply Htok. exact E.
    + apply keeps_ret. intros ? [=].
Qed.
#[local] Hint Extern 0 (keeps _ (scanColumn _)) => apply keeps_scanColumn : keeps.

Lemma good_table_insert col table :
  Column_Name col <> EmptyString -> good_table table ->
  good_table (set_Columns (<[Column_Name col := col]> (Table_Columns table)) table).
Proof.
  unfold good_table. cbn. intros Hne Hgood.
  rewrite lookup_insert_ne by exact Hne. exact Hgood.
Qed.

#[local] Hint Extern 1 (good_table _) =>
  first [ assumption | apply good_table_insert; auto ] : keeps.

Lemma keeps_parse_items : forall fuel table,
  good_table table -> keeps good_result (parse_items fuel table).
Proof.
  intros fuel; induction fuel as [|fuel IH]; intros table Hgood;
    [intros ? ? ? ? ?; discriminate|].
  cbn [parse_items].
  eapply keeps_bind; [apply keeps_scanIgnoreWhitespace|]. intros [tok lit] _.
  destruct tok; cbv beta iota;
    try solve [apply keeps_ret; intros ? [=]].
  - (* IDENT *)
    eapply keeps_bind; [apply keeps_unscan|]. intros _ _.
    eapply keeps_bind; [apply keeps_scanColumn|]. intros [col|e] Hcol.
    + apply IH. apply good_table_insert; [apply Hcol; reflexivity|exact Hgood].
    + apply keeps_ret. intros ? [=].
  - (* COMMA *) apply IH, Hgood.
  - (* SEMI_COLON *) apply keeps_ret. intros ? [= <-]. exact Hgood.
  - (* CLOSE_PAREN *)
    eapply keeps_bind; [apply keeps_scanIgnoreWhitespace|]. intros [tok1 lit1] _.
    destruct (negb (Token_eqb tok1 SEMI_COLON)).
    + eapply keeps_bind; [apply keeps_unscan|]. intros _ _.
      eapply keeps_bind; [apply keeps_scanExtra|]. intros [extras|e] _.
      * apply keeps_ret. intros ? [= <-]. exact Hgood.
      * apply keeps_ret. intros ? [=].
    + apply keeps_ret. intros ? [= <-]. exact Hgood.
  - (* KEY *)
    eapply keeps_bind; [apply keeps_unscan|]. intros _ _.
    eapply keeps_bind; [apply keeps_scanKey|]. intros [[index col]|e] _.
    + apply IH. exact Hgood.
    + apply keeps_ret. intros ? [=].
  - (* UNIQUE *)
    eapply keeps_bind; [apply keeps_scanKey|]. intros [[k v]|e] _.
    + apply IH. exact Hgood.
    + apply keeps_ret. intros ? [=].
  - (* CONSTRAINT *)
    eapply keeps_bind; [apply keeps_unscan|]. intros _ _.
    eapply keeps_bind; [apply keeps_scanConstraint|]. intros [cos|e] _.
    + apply IH. exact Hgood.
    + apply keeps_ret. intros ? [=].
  - (* PRIMARY *)
    eapply keeps_bind; [apply keeps_unscan|]. intros _ _.
    eapply keeps_bind; [apply keeps_scanPrimaryKey|]. intros [key|e] _.
    + apply IH. exact Hgood.
    + apply keeps_ret. intros ? [=].
Qed.

Lemma keeps_parse fuel : keeps good_parse (parse fuel).
Proof.
  unfold parse. eapply keeps_bind; [apply keeps_parse_head|]. intros [[|]|e] _.
  - eapply keeps_bind; [apply keeps_scanIgnoreWhitespace|]. intros [tok lit] _.
    destruct (negb (Token_eqb tok TABLE)); [apply keeps_ret; intros ? [=]|].
    eapply keeps_bind; [apply keeps_Parser_scanIdent|]. intros [tok1 lit1] _.
    destruct (Token_eqb tok1 IDENT); [|apply keeps_ret; intros ? [=]].
    eapply keeps_bind; [apply keeps_scanIgnoreWhitespace|]. intros [tok2 lit2] _.
    destruct (negb (Token_eqb tok2 OPEN_PAREN)); [apply keeps_ret; intros ? [=]|].
    eapply keeps_bind; [apply keeps_parse_items; reflexivity|]. intros [t|e] Ht.
    + apply keeps_ret. intros ? [= <-]. apply Ht. reflexivity.
    + apply keeps_ret. intros ? [=].
  - apply keeps_ret. intros ? [=].
  - apply keeps_ret. intros ? [=].
Qed.

Lemma keeps_Parse_loop : forall fuel schema,
  good_schema schema ->
  keeps (fun r => good_schema (fst r)) (Parse_loop fuel schema).
Proof.
  intros fuel; induction fuel as [|fuel IH]; intros schema Hgood;
    [intros ? ? ? ? ?; discriminate|].
  cbn [Parse_loop]. eapply keeps_bind; [apply keeps_parse|].
  intros [[t|]|e] Ht.
  - apply IH. intros name t' Hl.
    destruct (decide (Table_Name t = name)) as [<-|Hne].
    + rewrite lookup_insert_eq in Hl. injection Hl as <-. apply Ht. reflexivity.
    + rewrite lookup_insert_ne in Hl by exact Hne. eapply Hgood, Hl.
  - apply keeps_ret. exact Hgood.
  - apply keeps_ret. exact Hgood.
Qed.

Lemma NewParser_ok input :
  adjacent_backticks input = false -> Parser_ok (NewParser input).
Proof. intros H. split; [exact H|]. intros [=]. Qed.

(** C8, amended.  When the input has no two adjacent backticks, that is,
    no empty backtick-quoted identifier, no table of the schema that
    [Parse] returns, with or without an error, has a column under the
    empty name. *)
Theorem Parse_no_empty_column_name fuel input schema err :
  adjacent_backticks input = false ->
  ParseString fuel input = Some (schema, err) ->
  forall name t, schema !! name = Some t ->
  Table_Columns t !! EmptyString = None.
Proof.
  intros Hin H. unfold ParseString in H.
  destruct (Parse fuel (NewParser input)) as [[r p']|] eqn:E; [|discriminate].
  injection H as ->.
  destruct (keeps_Parse_loop fuel ∅ (fun name t Hl =>
              ltac:(rewrite lookup_empty in Hl; discriminate))
              _ _ _ (NewParser_ok _ Hin) E) as [_ Hgood].
  exact Hgood.
Qed.

Lemma Parse_no_empty_column_name_witness :
  adjacent_backticks parser_test_input = false /\
  forall name t,
    (<["user"%string := user_table]> ∅ : gmap string Table) !! name = Some t ->
    Table_Columns t !! EmptyString = None.
Proof.
  split; [reflexivity|].
  apply (Parse_no_empty_column_name 100 parser_test_input _ None).
  - reflexivity.
  - vm_compute. reflexivity.
Defined.

(** * Further properties of the lexer *)

(** ** Each [Scan] consumes input *)

Lemma read_rest_le sc ch sc1 :
  read sc = (ch, sc1) -> (String.length (rest sc1) <= String.length (rest sc))%nat.
Proof.
  unfold read. destruct sc as [l r]. cbn.
  destruct r as [|c r]; intros [= <- <-]; cbn; lia.
Qed.

Lemma read_rest_lt sc ch sc1 :
  read sc = (ch, sc1) -> rest sc <> EmptyString ->
  (String.length (rest sc1) < String.length (rest sc))%nat.
Proof.
  unfold read. destruct sc as [l r]. cbn.
  destruct r as [|c r]; intros [= <- <-]; cbn; [congruence|lia].
Qed.

(** Giving back the rune just read restores the input. *)
Lemma read_unread_rest sc ch sc1 :
  read sc = (ch, sc1) -> rest (unread sc1) = rest sc.
Proof.
  unfold read, unread. destruct sc as [l r]. cbn.
  destruct r as [|c r]; intros [= <- <-]; reflexivity.
Qed.

Lemma unread_rest_le sc :
  (String.length (rest (unread sc)) <= S (String.length (rest sc)))%nat.
Proof. unfold unread. destruct sc as [[c|] r]; cbn; lia. Qed.

(** A second [unread] in a row does nothing. *)
Lemma unread_unread sc : unread (unread sc) = unread sc.
Proof. unfold unread. destruct sc as [[c|] r]; reflexivity. Qed.

Ltac scan_loop_le :=
  let fuel := fresh "fuel" in
  let IH := fresh "IH" in
  intros fuel; induction fuel as [|fuel IH]; [intros; discriminate|];
  cbn -[read unread]; intros;
  repeat match goal with
  | H : (let (_, _) := read ?sc in _) = Some _ |- _ =>
      let E := fresh "E" in
      destruct (read sc) eqn:E;
      pose proof (read_rest_le _ _ _ E);
      pose proof (read_unread_rest _ _ _ E)
  | H : (if ?b then _ else _) = Some _ |- _ => destruct b
  | H : Some _ = Some _ |- _ => injection H as H; subst
  | IH : forall _, _, H : _ = Some _ |- _ => apply IH in H
  end;
  try congruence;
  repeat match goal with
  | H : rest (unread _) = _ |- _ => rewrite H in *; clear H
  end;
  try lia.

Lemma scanWhitespace_loop_le : forall fuel buf sc buf' sc',
  scanWhitespace_loop fuel buf sc = Some (buf', sc') ->
  (String.length (rest sc') <= String.length (rest sc))%nat.
Proof. scan_loop_le. Qed.

Lemma scanDigit_loop_le : forall fuel buf sc buf' sc',
  scanDigit_loop fuel buf sc = Some (buf', sc') ->
  (String.length (rest sc') <= String.length (rest sc))%nat.
Proof. scan_loop_le. Qed.

Lemma scanIdent_loop_le : forall fuel buf sc buf' sc',
  scanIdent_loop fuel buf sc = Some (buf', sc') ->
  (String.length (rest sc') <= String.length (rest sc))%nat.
Proof. scan_loop_le. Qed.

Lemma readString_le : forall fuel c buf sc buf' sc',
  readString fuel c buf sc = Some (buf', sc') ->
  (String.length (rest sc') <= String.length (rest sc))%nat.
Proof. scan_loop_le. Qed.

Lemma scanInlineComment_le : forall fuel sc r sc',
  scanInlineComment fuel sc = Some (r, sc') ->
  (String.length (rest sc') <= String.length (rest sc))%nat.
Proof. scan_loop_le. Qed.

Lemma scanLineComment_le : forall fuel sc r sc',
  scanLineComment fuel sc = Some (r, sc') ->
  (String.length (rest sc') <= String.length (rest sc))%nat.
Proof. scan_loop_le. Qed.

Lemma Scan_rest_shorter fuel sc tok lit sc' :
  Scan fuel sc = Some (tok, lit, sc') ->
  (rest sc = EmptyString /\ tok = EOF /\ rest sc' = EmptyString) \/
  (String.length (rest sc') < String.length (rest sc))%nat.
Proof.
  intros H. destruct (rest sc) as [|c0 r0] eqn:Hrest.
  { left. destruct sc as [l r]. cbn in Hrest. subst r.
    cbn in H. injection H as <- <- <-. auto. }
  right. rewrite <- Hrest.
  assert (Hne : rest sc <> EmptyString) by (rewrite Hrest; discriminate).
  clear Hrest c0 r0. unfold Scan in H.
  destruct (read sc) as [ch sc1] eqn:E.
  pose proof (read_rest_lt _ _ _ E Hne) as Hlt.
  pose proof (read_unread_rest _ _ _ E) as Hun.
  assert (Hre : forall ch' sc2, read (unread sc1) = (ch', sc2) ->
                (String.length (rest sc2) < String.length (rest sc))%nat).
  { intros ch' sc2 E2. rewrite <- Hun.
    apply (read_rest_lt _ _ _ E2). rewrite Hun. exact Hne. }
  destruct (isWhitespace ch).
  { unfold scanWhitespace in H.
    destruct (read (unread sc1)) as [ch' sc2] eqn:E2.
    destruct (scanWhitespace_loop fuel _ sc2) as [[buf sc3]|] eqn:E3;
      [|discriminate H].
    injection H as <- <- <-.
    apply scanWhitespace_loop_le in E3. specialize (Hre _ _ eq_refl). lia. }
  destruct (isLetter ch).
  { unfold scanIdent in H.
    destruct (read (unread sc1)) as [ch' sc2] eqn:E2.
    destruct (scanIdent_loop fuel _ sc2) as [[buf sc3]|] eqn:E3;
      [|discriminate H].
    injection H as <- <- <-.
    apply scanIdent_loop_le in E3. specialize (Hre _ _ eq_refl). lia. }
  destruct (isDigit ch).
  { unfold scanDigit in H.
    destruct (read (unread sc1)) as [ch' sc2] eqn:E2.
    destruct (scanDigit_loop fuel _ sc2) as [[buf sc3]|] eqn:E3;
      [|discriminate H].
    injection H as <- <- <-.
    apply scanDigit_loop_le in E3. specialize (Hre _ _ eq_refl). lia. }
  destruct (Ascii.eqb ch "'" || Ascii.eqb ch "`").
  { unfold scanString in H.
    destruct (read (unread sc1)) as [ch' sc2] eqn:E2.
    specialize (Hre _ _ eq_refl).
    destruct (Ascii.eqb ch' "`").
    - destruct (readString fuel _ _ sc2) as [[buf sc3]|] eqn:E3;
        [|discriminate H].
      injection H as <- <- <-. apply readString_le in E3. lia.
    - destruct (Ascii.eqb ch' "'").
      + destruct (readString fuel _ _ sc2) as [[buf sc3]|] eqn:E3;
          [|discriminate H].
        injection H as <- <- <-. apply readString_le in E3. lia.
      + injection H as <- <- <-. exact Hre. }
  destruct (Ascii.eqb ch "/").
  { destruct (read sc1) as [c sc2] eqn:E2.
    pose proof (read_unread_rest _ _ _ E2) as Hun2.
    destruct (Ascii.eqb c "*").
    - apply scanInlineComment_le in H.
      rewrite unread_unread, Hun2 in H. lia.
    - injection H as <- <- <-. rewrite Hun2. exact Hlt. }
  destruct (Ascii.eqb ch eof); [injection H as <- <- <-; exact Hlt|].
  destruct (Ascii.eqb ch ","); [injection H as <- <- <-; exact Hlt|].
  destruct (Ascii.eqb ch "("); [injection H as <- <- <-; exact Hlt|].
  destruct (Ascii.eqb ch ")"); [injection H as <- <- <-; exact Hlt|].
  destruct (Ascii.eqb ch ";"); [injection H as <- <- <-; exact Hlt|].
  destruct (Ascii.eqb ch "="); [injection H as <- <- <-; exact Hlt|].
  destruct (Ascii.eqb ch "-").
  { destruct (read sc1) as [c sc2] eqn:E2.
    pose proof (read_rest_le _ _ _ E2) as Hle2.
    destruct (Ascii.eqb c "-").
    - apply scanLineComment_le in H. lia.
    - injection H as <- <- <-. lia. }
  injection H as <- <- <-. exact Hlt.
Qed.

(** X1.  A [Scan] that returns has consumed at least one rune, unless the
    input was exhausted, in which case it returns [EOF] and the input
    stays exhausted. *)
Theorem Scan_consumes fuel sc tok lit sc' :
  Scan fuel sc = Some (tok, lit, sc') ->
  (rest sc = EmptyString /\ tok = EOF /\ rest sc' = EmptyString) \/
  (String.length (rest sc') < String.length (rest sc))%nat.
Proof. apply Scan_rest_shorter. Qed.

Lemma Scan_consumes_witness :
  (rest (NewScanner "ab cd") = EmptyString /\ IDENT = EOF /\
   rest {| last := None; rest := " cd" |} = EmptyString) \/
  (String.length (rest {| last := None; rest := " cd" |})
   < String.length (rest (NewScanner "ab cd")))%nat.
Proof.
  apply (Scan_consumes 5 (NewScanner "ab cd") IDENT "ab").
  reflexivity.
Defined.

(** ** When [Scan] returns *)

Lemma read_rest_lt_noteof sc ch sc1 :
  read sc = (ch, sc1) -> Ascii.eqb ch eof = false ->
  (String.length (rest sc1) < String.length (rest sc))%nat.
Proof.
  unfold read. destruct sc as [l r]. cbn.
  destruct r as [|c r]; intros [= <- <-]; cbn; [discriminate|lia].
Qed.

Lemma scanWhitespace_loop_total : forall n buf sc,
  (String.length (rest sc) < n)%nat ->
  exists r, scanWhitespace_loop n buf sc = Some r.
Proof.
  induction n as [|n IH]; intros buf sc Hlen; [lia|].
  cbn -[read unread]. destruct (read sc) as [ch sc1] eqn:E.
  destruct (Ascii.eqb ch eof) eqn:He; [eauto|].
  destruct (negb (isWhitespace ch)); [eauto|].
  apply IH. pose proof (read_rest_lt_noteof _ _ _ E He). lia.
Qed.

Lemma scanDigit_loop_total : forall n buf sc,
  (String.length (rest sc) < n)%nat ->
  exists r, scanDigit_loop n buf sc = Some r.
Proof.
  induction n as [|n IH]; intros buf sc Hlen; [lia|].
  cbn -[read unread]. destruct (read sc) as [ch sc1] eqn:E.
  destruct (Ascii.eqb ch eof) eqn:He; [eauto|].
  destruct (negb (isDigit ch)); [eauto|].
  apply IH. pose proof (read_rest_lt_noteof _ _ _ E He). lia.
Qed.

Lemma scanIdent_loop_total : forall n buf sc,
  (String.length (rest sc) < n)%nat ->
  exists r, scanIdent_loop n buf sc = Some r.
Proof.
  induction n as [|n IH]; intros buf sc Hlen; [lia|].
  cbn -[read unread]. destruct (read sc) as [ch sc1] eqn:E.
  destruct (Ascii.eqb ch eof) eqn:He; [eauto|].
  destruct (negb (isLetter ch) && negb (isDigit ch) && negb (Ascii.eqb ch "_"));
    [eauto|].
  apply IH. pose proof (read_rest_lt_noteof _ _ _ E He). lia.
Qed.

(** A block comment always comes to an end: at [*/], or at the end of the
    input with [ILLEGAL]. *)
Lemma scanInlineComment_total : forall n sc,
  (String.length (rest sc) < n)%nat ->
  exists r, scanInlineComment n sc = Some r.
Proof.
  induction n as [|n IH]; intros sc Hlen; [lia|].
  cbn -[read]. destruct (read sc) as [ch sc1] eqn:E.
  destruct (Ascii.eqb ch eof) eqn:He; [eauto|].
  pose proof (read_rest_lt_noteof _ _ _ E He).
  destruct (Ascii.eqb ch "*").
  - destruct (read sc1) as [c sc2] eqn:E2.
    pose proof (read_rest_le _ _ _ E2).
    destruct (Ascii.eqb c "/"); [eauto|]. apply IH. lia.
  - apply IH. lia.
Qed.

Lemma readString_total c : forall n buf sc,
  contains c (rest sc) = true ->
  (String.length (rest sc) < n)%nat ->
  exists r, readString n c buf sc = Some r.
Proof.
  induction n as [|n IH]; intros buf [l r] Hc Hlen; [lia|].
  cbn -[read]. unfold read. cbn [rest] in *.
  destruct r as [|d r]; [discriminate Hc|].
  cbn [contains] in Hc. cbn [String.length] in Hlen.
  destruct (Ascii.eqb d c); [eauto|].
  apply IH; cbn [rest]; [exact Hc|lia].
Qed.

Lemma scanLineComment_total : forall n sc,
  contains "010" (rest sc) = true ->
  (String.length (rest sc) < n)%nat ->
  exists r, scanLineComment n sc = Some r.
Proof.
  induction n as [|n IH]; intros [l r] Hc Hlen; [lia|].
  cbn -[read]. unfold read. cbn [rest] in *.
  destruct r as [|d r]; [discriminate Hc|].
  cbn [contains] in Hc. cbn [String.length] in Hlen.
  destruct (Ascii.eqb d "010"); [eauto|].
  apply IH; cbn [rest]; [exact Hc|lia].
Qed.

Lemma Scan_enough_fuel sc :
  Scan_returns_on (rest sc) = true ->
  exists r, Scan (S (String.length (rest sc))) sc = Some r.
Proof.
  destruct sc as [l r]. cbn [rest]. intros Hr.
  destruct r as [|c r]; [cbn; eauto|].
  cbn [String.length]. unfold Scan, read. cbn [rest].
  cbn [unread last rest].
  destruct (isWhitespace c).
  { unfold scanWhitespace, read. cbn [rest].
    destruct (scanWhitespace_loop_total (S (S (String.length r)))
                (WriteRune EmptyString c) {| last := Some c; rest := r |})
      as [[buf sc3] ->]; [cbn; lia|eauto]. }
  destruct (isLetter c).
  { unfold scanIdent, read. cbn [rest].
    destruct (scanIdent_loop_total (S (S (String.length r)))
                (WriteRune EmptyString c) {| last := Some c; rest := r |})
      as [[buf sc3] ->]; [cbn; lia|eauto]. }
  destruct (isDigit c).
  { unfold scanDigit, read. cbn [rest].
    destruct (scanDigit_loop_total (S (S (String.length r)))
                (WriteRune EmptyString c) {| last := Some c; rest := r |})
      as [[buf sc3] ->]; [cbn; lia|eauto]. }
  cbn [Scan_returns_on] in Hr.
  destruct (Ascii.eqb c "'" || Ascii.eqb c "`") eqn:Hq.
  { unfold scanString, read. cbn [rest].
    destruct (Ascii.eqb_spec c "`") as [->|Hnb].
    - destruct (readString_total "`" (S (S (String.length r))) EmptyString
                  {| last := Some "`"; rest := r |})
        as [[buf sc3] ->]; [exact Hr|cbn; lia|eauto].
    - destruct (Ascii.eqb_spec c "'") as [->|Hnq]; [|discriminate Hq].
      destruct (readString_total "'" (S (S (String.length r))) EmptyString
                  {| last := Some "'"; rest := r |})
        as [[buf sc3] ->]; [exact Hr|cbn; lia|eauto]. }
  destruct (Ascii.eqb c "/").
  { destruct r as [|d r]; [cbn; eauto|]. cbn [rest].
    destruct (Ascii.eqb d "*"); [|eauto].
    cbn [unread last rest].
    apply scanInlineComment_total. cbn. lia. }
  destruct (Ascii.eqb c eof); [eauto|].
  destruct (Ascii.eqb c ","); [eauto|].
  destruct (Ascii.eqb c "("); [eauto|].
  destruct (Ascii.eqb c ")"); [eauto|].
  destruct (Ascii.eqb c ";"); [eauto|].
  destruct (Ascii.eqb c "="); [eauto|].
  destruct (Ascii.eqb c "-"); [|eauto].
  destruct r as [|d r]; [cbn; eauto|]. cbn [rest].
  destruct (Ascii.eqb d "-"); [|eauto].
  apply scanLineComment_total; cbn; [exact Hr|lia].
Qed.

(** X2.  [Scan] returns on every input that does not begin with an
    unclosed quoted literal or with a line comment without a newline;
    fuel for one iteration per remaining rune, and one more, is enough. *)
Theorem Scan_total sc :
  Scan_returns_on (rest sc) = true ->
  exists r, Scan (S (String.length (rest sc))) sc = Some r.
Proof. apply Scan_enough_fuel. Qed.

Lemma Scan_total_witness :
  exists r,
    Scan (S (String.length (rest (NewScanner "`id` int")))) (NewScanner "`id` int")
    = Some r.
Proof. apply (Scan_total (NewScanner "`id` int")). reflexivity. Defined.

Lemma readString_unterminated c : forall fuel buf sc,
  contains c (rest sc) = false -> Ascii.eqb eof c = false ->
  readString fuel c buf sc = None.
Proof.
  induction fuel as [|fuel IH]; intros buf [l r] Hc He; [reflexivity|].
  cbn -[read]. unfold read. cbn [rest] in *.
  destruct r as [|d r].
  - rewrite He. apply IH; [reflexivity|exact He].
  - cbn [contains] in Hc. apply orb_false_iff in Hc as [Hd Hr].
    rewrite Hd. apply IH; [exact Hr|exact He].
Qed.

(** X3.  A quoted literal that is never closed makes [Scan] read for
    ever: at the end of the input the reads yield [eof], which is not the
    closing quote. *)
Theorem Scan_unterminated_quote fuel lst q r :
  q = "`" \/ q = "'" ->
  contains q r = false ->
  Scan fuel {| last := lst; rest := String q r |} = None.
Proof.
  intros [-> | ->] Hc; unfold Scan, read; cbn;
    unfold scanString, read; cbn;
    rewrite readString_unterminated; auto.
Qed.

Lemma Scan_unterminated_quote_witness :
  Scan 1000 {| last := None; rest := String "`" "user (" |} = None.
Proof.
  apply (Scan_unterminated_quote 1000 None "`" "user (").
  - left. reflexivity.
  - reflexivity.
Defined.

(** ** Quoted literals *)

Lemma append_String c (s1 s2 : string) :
  String c s1 ++ s2 = String c (s1 ++ s2).
Proof. reflexivity. Qed.

Lemma append_empty_l (str : string) : EmptyString ++ str = str.
Proof. reflexivity. Qed.

Lemma append_empty_r (str : string) : str ++ EmptyString = str.
Proof.
  induction str as [|c str IH]; [reflexivity|].
  rewrite append_String, IH. reflexivity.
Qed.

Lemma WriteRune_append buf d b : WriteRune buf d ++ b = buf ++ String d b.
Proof.
  unfold WriteRune. induction buf as [|c buf IH]; [reflexivity|].
  rewrite !append_String, IH. reflexivity.
Qed.

Lemma readString_S n c buf sc :
  readString (S n) c buf sc
  = let (ch, s1) := read sc in
    if Ascii.eqb ch c then Some (buf, s1)
    else readString n c (WriteRune buf ch) s1.
Proof. reflexivity. Qed.

Lemma readString_body c : forall body buf l post,
  contains c body = false ->
  readString (S (String.length body)) c buf
    {| last := l; rest := body ++ String c post |}
  = Some (buf ++ body, {| last := Some c; rest := post |}).
Proof.
  induction body as [|d body IH]; intros buf l post Hc.
  - rewrite readString_S, append_empty_l. unfold read. cbn [rest].
    cbv beta iota. rewrite Ascii.eqb_refl, append_empty_r. reflexivity.
  - cbn [contains] in Hc. apply orb_false_iff in Hc as [Hd Hbody].
    cbn [String.length]. rewrite readString_S.
    rewrite append_String. unfold read. cbn [rest]. cbv beta iota. rewrite Hd.
    rewrite IH by exact Hbody. rewrite WriteRune_append. reflexivity.
Qed.

(** X4.  A backtick-quoted text is scanned as an [IDENT] and a
    single-quoted one as a [STRING]; the literal is the text between the
    quotes as it stands, up to the first closing quote, and the input
    continues right after that quote. *)
Theorem Scan_quoted fuel lst q body post :
  q = "`" \/ q = "'" ->
  contains q body = false ->
  (String.length body < fuel)%nat ->
  Scan fuel {| last := lst; rest := String q (body ++ String q post) |}
  = Some (if Ascii.eqb q "`" then IDENT else STRING, body,
          {| last := Some q; rest := post |}).
Proof.
  intros Hq Hc Hlen.
  pose proof (readString_body q body EmptyString (Some q) post Hc) as Hr.
  apply readString_mono with (m := fuel) in Hr; [|lia].
  destruct Hq as [-> | ->]; unfold Scan, read; cbn;
    unfold scanString, read; cbn; rewrite Hr; reflexivity.
Qed.

Lemma Scan_quoted_witness :
  Scan 10 {| last := None; rest := String "'" ("it`s" ++ String "'" ", x") |}
  = Some (STRING, "it`s"%string, {| last := Some "'"; rest := ", x" |}).
Proof.
  apply (Scan_quoted 10 None "'" "it`s" ", x").
  - right. reflexivity.
  - reflexivity.
  - cbn. lia.
Defined.

(** ** The literal of each token *)

Lemma keyword_spelling u tok :
  keyword u = tok -> tok = IDENT \/ spelling tok = Some u.
Proof.
  unfold keyword.
  repeat match goal with
  | |- context [String.eqb u ?w] =>
      destruct (String.eqb_spec u w) as [->|_];
      [intros <-; right; reflexivity|]
  end.
  intros <-. left. reflexivity.
Qed.

Lemma all_runes_WriteRune f buf ch :
  all_runes f (WriteRune buf ch) = all_runes f buf && f ch.
Proof.
  unfold WriteRune. induction buf as [|c buf IH].
  - rewrite append_empty_l. cbn. apply andb_true_r.
  - rewrite append_String. cbn [all_runes]. rewrite IH, andb_assoc. reflexivity.
Qed.

Lemma scanWhitespace_loop_all : forall fuel buf sc buf' sc',
  scanWhitespace_loop fuel buf sc = Some (buf', sc') ->
  buf <> EmptyString /\ all_runes isWhitespace buf = true ->
  buf' <> EmptyString /\ all_runes isWhitespace buf' = true.
Proof.
  induction fuel as [|fuel IH]; [discriminate|].
  cbn -[read unread]. intros buf sc buf' sc'.
  destruct (read sc) as [ch sc1].
  destruct (Ascii.eqb ch eof); [intros [= <- _]; auto|].
  destruct (isWhitespace ch) eqn:Hw; cbn [negb]; [|intros [= <- _]; auto].
  intros H [_ Hall]. eapply IH; [exact H|]. split; [apply WriteRune_nonempty|].
  rewrite all_runes_WriteRune, Hall, Hw. reflexivity.
Qed.

Lemma scanDigit_loop_all : forall fuel buf sc buf' sc',
  scanDigit_loop fuel buf sc = Some (buf', sc') ->
  buf <> EmptyString /\ all_runes isDigit buf = true ->
  buf' <> EmptyString /\ all_runes isDigit buf' = true.
Proof.
  induction fuel as [|fuel IH]; [discriminate|].
  cbn -[read unread]. intros buf sc buf' sc'.
  destruct (read sc) as [ch sc1].
  destruct (Ascii.eqb ch eof); [intros [= <- _]; auto|].
  destruct (isDigit ch) eqn:Hw; cbn [negb]; [|intros [= <- _]; auto].
  intros H [_ Hall]. eapply IH; [exact H|]. split; [apply WriteRune_nonempty|].
  rewrite all_runes_WriteRune, Hall, Hw. reflexivity.
Qed.

Lemma scanInlineComment_result : forall fuel sc tok lit sc',
  scanInlineComment fuel sc = Some (tok, lit, sc') ->
  (tok = ANNOTATION \/ tok = ILLEGAL) /\ lit = EmptyString.
Proof.
  induction fuel as [|fuel IH]; [discriminate|].
  cbn -[read]. intros sc tok lit sc'.
  destruct (read sc) as [ch sc1].
  destruct (Ascii.eqb ch eof); [intros [= <- <- _]; auto|].
  destruct (Ascii.eqb ch "*"); [|apply IH].
  destruct (read sc1) as [c sc2].
  destruct (Ascii.eqb c "/"); [intros [= <- <- _]; auto|apply IH].
Qed.

Lemma scanLineComment_result : forall fuel sc tok lit sc',
  scanLineComment fuel sc = Some (tok, lit, sc') ->
  tok = ANNOTATION /\ lit = EmptyString.
Proof.
  induction fuel as [|fuel IH]; [discriminate|].
  cbn -[read]. intros sc tok lit sc'.
  destruct (read sc) as [ch sc1].
  destruct (Ascii.eqb ch "010"); [intros [= <- <- _]; auto|apply IH].
Qed.

Lemma Scan_shape fuel sc tok lit sc' :
  Scan fuel sc = Some (tok, lit, sc') -> literal_shape tok lit.
Proof.
  unfold Scan. intros H.
  destruct (read sc) as [ch sc1] eqn:E.
  destruct (isWhitespace ch) eqn:Hws.
  { assert (Hne : Ascii.eqb ch eof = false).
    { destruct (Ascii.eqb_spec ch eof) as [->|]; [discriminate Hws|reflexivity]. }
    unfold scanWhitespace in H. rewrite (unread_read _ _ _ E Hne) in H.
    destruct (scanWhitespace_loop fuel _ sc1) as [[buf sc3]|] eqn:E3;
      [|discriminate H].
    injection H as <- <- <-. cbn.
    eapply scanWhitespace_loop_all; [exact E3|].
    split; [apply WriteRune_nonempty|].
    rewrite all_runes_WriteRune, Hws. reflexivity. }
  destruct (isLetter ch) eqn:Hl.
  { unfold scanIdent in H.
    destruct (read (unread sc1)) as [ch' sc2].
    destruct (scanIdent_loop fuel _ sc2) as [[buf sc3]|]; [|discriminate H].
    injection H as <- <- <-.
    destruct (keyword_spelling _ _ (eq_refl (keyword (ToUpper buf)))) as [->|Hs];
      [exact I|].
    destruct (keyword (ToUpper buf)); try discriminate Hs; exact Hs. }
  destruct (isDigit ch) eqn:Hd.
  { assert (Hne : Ascii.eqb ch eof = false).
    { destruct (Ascii.eqb_spec ch eof) as [->|]; [discriminate Hd|reflexivity]. }
    unfold scanDigit in H. rewrite (unread_read _ _ _ E Hne) in H.
    destruct (scanDigit_loop fuel _ sc1) as [[buf sc3]|] eqn:E3;
      [|discriminate H].
    injection H as <- <- <-. cbn.
    eapply scanDigit_loop_all; [exact E3|].
    split; [apply WriteRune_nonempty|].
    rewrite all_runes_WriteRune, Hd. reflexivity. }
  destruct (Ascii.eqb ch "'" || Ascii.eqb ch "`").
  { unfold scanString in H.
    destruct (read (unread sc1)) as [ch' sc2].
    destruct (Ascii.eqb ch' "`").
    - destruct (readString fuel _ _ sc2) as [[buf sc3]|]; [|discriminate H].
      injection H as <- <- <-. exact I.
    - destruct (Ascii.eqb ch' "'").
      + destruct (readString fuel _ _ sc2) as [[buf sc3]|]; [|discriminate H].
        injection H as <- <- <-. exact I.
      + injection H as <- <- <-. cbn. lia. }
  destruct (Ascii.eqb ch "/").
  { destruct (read sc1) as [c sc2].
    destruct (Ascii.eqb c "*").
    - apply scanInlineComment_result in H as [[-> | ->] ->]; cbn; auto.
    - injection H as <- <- <-. cbn. lia. }
  destruct (Ascii.eqb ch eof); [injection H as <- <- <-; reflexivity|].
  destruct (Ascii.eqb_spec ch ","); [subst; injection H as <- <- <-; reflexivity|].
  destruct (Ascii.eqb_spec ch "("); [subst; injection H as <- <- <-; reflexivity|].
  destruct (Ascii.eqb_spec ch ")"); [subst; injection H as <- <- <-; reflexivity|].
  destruct (Ascii.eqb_spec ch ";"); [subst; injection H as <- <- <-; reflexivity|].
  destruct (Ascii.eqb_spec ch "="); [subst; injection H as <- <- <-; reflexivity|].
  destruct (Ascii.eqb ch "-").
  { destruct (read sc1) as [c sc2].
    destruct (Ascii.eqb c "-").
    - apply scanLineComment_result in H as [-> ->]. reflexivity.
    - injection H as <- <- <-. cbn. lia. }
  injection H as <- <- <-. cbn. lia.
Qed.

Lemma Atoi_digits_all : forall str acc,
  all_runes isDigit str = true -> (0 <= acc)%Z ->
  exists v, Atoi_digits acc str = Some v /\ (acc <= v)%Z.
Proof.
  induction str as [|c str IH]; intros acc Hall Hacc.
  - exists acc. split; [reflexivity|lia].
  - cbn [all_runes] in Hall. apply andb_true_iff in Hall as [Hc Hstr].
    cbn [Atoi_digits]. rewrite Hc.
    assert (Hd : (48 <= Z.of_nat (nat_of_ascii c))%Z).
    { unfold isDigit, rune_le in Hc. apply andb_true_iff in Hc as [Hlo _].
      apply Nat.leb_le in Hlo. change (nat_of_ascii "0") with 48%nat in Hlo. lia. }
    destruct (IH (10 * acc + (Z.of_nat (nat_of_ascii c) - 48))%Z Hstr)
      as (v & Hv & Hle); [lia|].
    exists v. split; [exact Hv|lia].
Qed.

(** X5.  The literal of a [SIZE] token is a non-empty string of decimal
    digits.  So the error that [scanType] drops from [strconv.Atoi] is
    never a syntax error: the size is the value of the digits, or the
    largest [int] when that value does not fit. *)
Theorem Scan_SIZE_digits fuel sc lit sc' :
  Scan fuel sc = Some (SIZE, lit, sc') ->
  lit <> EmptyString /\ all_runes isDigit lit = true /\
  exists v, Atoi_digits 0 lit = Some v /\ (0 <= v)%Z /\ Atoi lit = Z.min v maxInt.
Proof.
  intros H. apply Scan_shape in H as [Hne Hall].
  split; [exact Hne|]. split; [exact Hall|].
  destruct (Atoi_digits_all lit 0%Z Hall) as (v & Hv & Hle); [lia|].
  exists v. split; [exact Hv|]. split; [exact Hle|].
  unfold Atoi. destruct lit as [|c lit]; [contradiction|].
  rewrite Hv. destruct (Z.leb_spec v maxInt); lia.
Qed.

Lemma Scan_SIZE_digits_witness :
  "255"%string <> EmptyString /\ all_runes isDigit "255" = true /\
  exists v, Atoi_digits 0 "255" = Some v /\ (0 <= v)%Z /\
            Atoi "255" = Z.min v maxInt.
Proof.
  apply (Scan_SIZE_digits 5 (NewScanner "255) NOT") "255"
           {| last := None; rest := ") NOT" |}).
  reflexivity.
Defined.

(** The literal of a keyword token, upper-cased, is the keyword. *)
Lemma Scan_keyword_upper fuel sc tok lit sc' word :
  Scan fuel sc = Some (tok, lit, sc') ->
  spelling tok = Some word ->
  ToUpper lit = word /\ keyword (ToUpper lit) = tok.
Proof.
  intros H Hs. apply Scan_shape in H.
  destruct tok; try discriminate Hs; cbn in H, Hs;
    injection H as H; injection Hs as <-;
    (split; [symmetry; exact H|rewrite <- H; reflexivity]).
Qed.

(** X7.  No input makes [Scan] return the token [BACKTICK]: a backtick
    opens a quoted identifier and never stands alone. *)
Theorem Scan_never_BACKTICK fuel sc tok lit sc' :
  Scan fuel sc = Some (tok, lit, sc') -> tok <> BACKTICK.
Proof. intros H ->. apply Scan_shape in H. exact H. Qed.

Lemma Scan_never_BACKTICK_witness : IDENT <> BACKTICK.
Proof.
  apply (Scan_never_BACKTICK 5 (NewScanner "`a`") IDENT "a"
           {| last := Some "`"; rest := EmptyString |}).
  reflexivity.
Defined.

(** * Further properties of the parser *)

(** ** The one-token buffer *)

(** X8.  After [unscan], [scan] returns the token that the last [scan]
    returned, without reading the input, and leaves the parser as that
    [scan] left it; a second [unscan] in a row changes nothing, the
    buffer holds one token. *)
Theorem scan_unscan_replay fuel0 fuel p r p' :
  scan fuel0 p = Some (r, p') ->
  unscan p' = Some (tt, unscanned p') /\
  scan fuel (unscanned p') = Some (r, p') /\
  unscanned (unscanned p') = unscanned p'.
Proof.
  intros H. destruct r as [tok lit].
  apply scan_buffer in H as (Ht & Hl & Hn).
  split; [reflexivity|]. split; [|reflexivity].
  unfold scan, unscanned. cbn. destruct p'; cbn in *. subst. reflexivity.
Qed.

Lemma scan_unscan_replay_witness :
  unscan {| s := {| last := None; rest := " x" |};
            buf_tok := CREATE; buf_lit := "create"; buf_n := 0 |}
  = Some (tt, unscanned {| s := {| last := None; rest := " x" |};
                           buf_tok := CREATE; buf_lit := "create"; buf_n := 0 |}) /\
  scan 0 (unscanned {| s := {| last := None; rest := " x" |};
                       buf_tok := CREATE; buf_lit := "create"; buf_n := 0 |})
  = Some ((CREATE, "create"%string),
          {| s := {| last := None; rest := " x" |};
             buf_tok := CREATE; buf_lit := "create"; buf_n := 0 |}) /\
  unscanned (unscanned {| s := {| last := None; rest := " x" |};
                          buf_tok := CREATE; buf_lit := "create"; buf_n := 0 |})
  = unscanned {| s := {| last := None; rest := " x" |};
                 buf_tok := CREATE; buf_lit := "create"; buf_n := 0 |}.
Proof.
  apply (scan_unscan_replay 10 0 (NewParser "create x")).
  reflexivity.
Defined.

(** ** The schema returned without an error *)

Lemma Parse_loop_success fuel : forall schema0 p schema p',
  Parse_loop fuel schema0 p = Some ((schema, None), p') ->
  exists ts p1 fuel',
    parse_run p ts p1 /\ parse fuel' p1 = Some (Ok None, p') /\
    schema = commit schema0 ts.
Proof.
  induction fuel as [|fuel IH]; intros schema0 p schema p' H; [discriminate|].
  cbn [Parse_loop] in H. unfold bind in H.
  destruct (parse fuel p) as [[[[t|]|e0] p1]|] eqn:E; try discriminate.
  - apply IH in H as (ts & p2 & fuel' & Hrun & Hend & Hs).
    exists (t :: ts), p2, fuel'. split; [|split].
    + econstructor; eassumption.
    + exact Hend.
    + exact Hs.
  - injection H as <- <-.
    exists [], p, fuel. split; [constructor|]. split; [exact E|reflexivity].
Qed.


(** ** Maps and the records stored in them *)

Lemma ensures_ret {A} (Q : A -> Prop) a : Q a -> ensures Q (ret a).
Proof. intros H p a' p' [= <- _]. exact H. Qed.

Lemma ensures_bind {A B} (Q : B -> Prop) (m : M A) (k : A -> M B) :
  (forall a, ensures Q (k a)) -> ensures Q (bind m k).
Proof.
  intros Hk p b p'. unfold bind.
  destruct (m p) as [[a p1]|]; [|discriminate]. apply Hk.
Qed.

Lemma keyed_new name : keyed (set_Name name Table_new).
Proof.
  split; intros k c H; cbn in H; rewrite lookup_empty in H; discriminate.
Qed.

Lemma keyed_Columns col table :
  keyed table ->
  keyed (set_Columns (<[Column_Name col := col]> (Table_Columns table)) table).
Proof.
  intros [Hc Hk]. split; [|exact Hk]. intros k c. cbn.
  destruct (decide (Column_Name col = k)) as [<-|Hne].
  - rewrite lookup_insert_eq. intros [= <-]. reflexivity.
  - rewrite lookup_insert_ne by exact Hne. apply Hc.
Qed.

Lemma keyed_Constraints cos table :
  keyed table ->
  keyed (set_Constraints
           (<[Constraint_ForeignKey cos := cos]> (Table_Constraints table)) table).
Proof.
  intros [Hc Hk]. split; [exact Hc|]. intros k c. cbn.
  destruct (decide (Constraint_ForeignKey cos = k)) as [<-|Hne].
  - rewrite lookup_insert_eq. intros [= <-]. reflexivity.
  - rewrite lookup_insert_ne by exact Hne. apply Hk.
Qed.

(** The loop over the table body keeps the name of the table and the
    agreement of keys and records. *)
Lemma ensures_parse_items : forall fuel table,
  keyed table ->
  ensures (fun r => forall t, r = Ok t ->
                    Table_Name t = Table_Name table /\ keyed t)
          (parse_items fuel table).
Proof.
  intros fuel; induction fuel as [|fuel IH]; intros table Hk;
    [intros ? ? ? ?; discriminate|].
  cbn [parse_items].
  apply ensures_bind. intros [tok lit].
  destruct tok; cbv beta iota;
    try solve [apply ensures_ret; intros ? [=]].
  - (* IDENT *)
    apply ensures_bind. intros _. apply ensures_bind. intros [col|e].
    + refine (IH _ _). exact (keyed_Columns col table Hk).
    + apply ensures_ret. intros ? [=].
  - (* COMMA *) apply IH, Hk.
  - (* SEMI_COLON *) apply ensures_ret. intros ? [= <-]. auto.
  - (* CLOSE_PAREN *)
    apply ensures_bind. intros [tok1 lit1].
    destruct (negb (Token_eqb tok1 SEMI_COLON)).
    + apply ensures_bind. intros _. apply ensures_bind. intros [extras|e].
      * apply ensures_ret. intros ? [= <-]. auto.
      * apply ensures_ret. intros ? [=].
    + apply ensures_ret. intros ? [= <-]. auto.
  - (* KEY *)
    apply ensures_bind. intros _. apply ensures_bind. intros [[index col]|e].
    + refine (IH _ _). exact Hk.
    + apply ensures_ret. intros ? [=].
  - (* UNIQUE *)
    apply ensures_bind. intros [[k v]|e].
    + refine (IH _ _). exact Hk.
    + apply ensures_ret. intros ? [=].
  - (* CONSTRAINT *)
    apply ensures_bind. intros _. apply ensures_bind. intros [cos|e].
    + refine (IH _ _). exact (keyed_Constraints cos table Hk).
    + apply ensures_ret. intros ? [=].
  - (* PRIMARY *)
    apply ensures_bind. intros _. apply ensures_bind. intros [key|e].
    + refine (IH _ _). exact Hk.
    + apply ensures_ret. intros ? [=].
Qed.

Lemma ensures_parse fuel :
  ensures (fun r => forall t, r = Ok (Some t) -> keyed t) (parse fuel).
Proof.
  unfold parse.
  apply ensures_bind. intros [[|]|e];
    try solve [apply ensures_ret; intros ? [=]].
  apply ensures_bind. intros [tok lit].
  destruct (negb (Token_eqb tok TABLE));
    [apply ensures_ret; intros ? [=]|].
  apply ensures_bind. intros [tok1 lit1].
  destruct (Token_eqb tok1 IDENT);
    [|apply ensures_ret; intros ? [=]].
  cbv zeta. apply ensures_bind. intros [tok2 lit2].
  destruct (negb (Token_eqb tok2 OPEN_PAREN));
    [apply ensures_ret; intros ? [=]|].
  intros p r p'. unfold bind.
  destruct (parse_items fuel (set_Name lit1 Table_new) p) as [[[t|e] p1]|] eqn:E;
    [| |discriminate].
  - intros [= <- _] t' [= <-].
    apply (ensures_parse_items fuel _ (keyed_new lit1)) in E.
    apply (E t eq_refl).
  - intros [= <- _] t' [=].
Qed.

Lemma schema_keyed_insert schema t :
  schema_keyed schema -> keyed t ->
  schema_keyed (<[Table_Name t := t]> schema).
Proof.
  intros Hs Ht k t'.
  destruct (decide (Table_Name t = k)) as [<-|Hne].
  - rewrite lookup_insert_eq. intros [= <-]. auto.
  - rewrite lookup_insert_ne by exact Hne. apply Hs.
Qed.

Lemma Parse_loop_keyed : forall fuel schema0 p r p',
  schema_keyed schema0 ->
  Parse_loop fuel schema0 p = Some (r, p') -> schema_keyed (fst r).
Proof.
  induction fuel as [|fuel IH]; intros schema0 p r p' H0 H; [discriminate|].
  cbn [Parse_loop] in H. unfold bind in H.
  destruct (parse fuel p) as [[[[t|]|e] p1]|] eqn:E; try discriminate.
  - apply ensures_parse in E. eapply IH; [|exact H].
    apply schema_keyed_insert; [exact H0|]. apply (E t eq_refl).
  - injection H as <- _. exact H0.
  - injection H as <- _. exact H0.
Qed.

(** X10.  In whatever [Parse] returns, with or without an error, every
    table is stored under its own name, every column of a table under the
    column's name and every constraint under its foreign-key column. *)
Theorem Parse_schema_keyed fuel p schema err p' :
  Parse fuel p = Some ((schema, err), p') ->
  forall name t, schema !! name = Some t ->
    Table_Name t = name /\
    (forall k c, Table_Columns t !! k = Some c -> Column_Name c = k) /\
    (forall k c, Table_Constraints t !! k = Some c ->
                 Constraint_ForeignKey c = k).
Proof.
  intros H name t Hl. unfold Parse in H.
  apply Parse_loop_keyed in H; [|intros k t'; rewrite lookup_empty; discriminate].
  apply (H name t Hl).
Qed.

Lemma Parse_schema_keyed_witness :
  Table_Name table_t_b = "t"%string /\
  (forall k c, Table_Columns table_t_b !! k = Some c -> Column_Name c = k) /\
  (forall k c, Table_Constraints table_t_b !! k = Some c ->
               Constraint_ForeignKey c = k).
Proof.
  apply (Parse_schema_keyed 20 (NewParser two_tables_input)
           (<["t"%string := table_t_b]> ∅) None
           {| s := {| last := None; rest := EmptyString |};
              buf_tok := EOF; buf_lit := "EOF"; buf_n := 0 |}).
  - vm_compute. reflexivity.
  - apply lookup_insert_eq.
Defined.

(** ** The type and the size of a column *)

Lemma Type_nonempty tok : is_datatype tok = true -> Type_ tok <> EmptyString.
Proof. destruct tok; cbn; intros H; try discriminate H; intros [=]. Qed.

Lemma Atoi_digits_ge : forall str acc v,
  Atoi_digits acc str = Some v -> (0 <= acc)%Z -> (acc <= v)%Z.
Proof.
  induction str as [|ch r IH]; cbn [Atoi_digits]; intros acc v H Hacc.
  - injection H as <-. lia.
  - destruct (isDigit ch) eqn:Hd; [|discriminate].
    assert (Hlo : (48 <= Z.of_nat (nat_of_ascii ch))%Z).
    { unfold isDigit, rune_le in Hd. apply andb_true_iff in Hd as [Hlo _].
      apply Nat.leb_le in Hlo. change (nat_of_ascii "0") with 48%nat in Hlo. lia. }
    apply IH in H; lia.
Qed.

Lemma Atoi_range str : (0 <= Atoi str <= maxInt)%Z.
Proof.
  unfold Atoi. destruct str as [|ch r]; [unfold maxInt; lia|].
  destruct (Atoi_digits 0 (String ch r)) as [v|] eqn:E; [|unfold maxInt; lia].
  apply Atoi_digits_ge in E; [|lia].
  destruct (v <=? maxInt)%Z eqn:Hle; [lia|unfold maxInt; lia].
Qed.

Lemma ensures_scanType fuel :
  ensures (fun r => forall t sz, r = Ok (t, sz) ->
             (exists tok, is_datatype tok = true /\ t = Type_ tok) /\
             (0 <= sz <= maxInt)%Z)
          (scanType fuel).
Proof.
  unfold scanType.
  apply ensures_bind. intros [tok lit].
  destruct (is_datatype tok) eqn:Hd; [|apply ensures_ret; intros ? ? [=]].
  apply ensures_bind. intros [tok1 lit1].
  destruct (negb (Token_eqb tok1 OPEN_PAREN)).
  - apply ensures_bind. intros _. apply ensures_ret.
    intros t sz [= <- <-]. split; [eauto|unfold maxInt; lia].
  - apply ensures_bind. intros [tok2 lit2].
    apply ensures_bind. intros [tok3 lit3].
    destruct (negb (Token_eqb tok2 SIZE) || negb (Token_eqb tok3 CLOSE_PAREN));
      apply ensures_ret; [intros ? ? [=]|].
    intros t sz [= <- <-]. split; [eauto|apply Atoi_range].
Qed.

Lemma apply_clauses_Type_Size cls : forall c,
  Column_Name (apply_clauses c cls) = Column_Name c /\
  Column_Type (apply_clauses c cls) = Column_Type c /\
  Column_Size (apply_clauses c cls) = Column_Size c.
Proof.
  induction cls as [|cl cls IH]; intros c; [auto|].
  unfold apply_clauses in *. cbn [fold_left].
  destruct (IH (apply_clause c cl)) as (-> & -> & ->).
  destruct cl; auto.
Qed.

(** X11.  A column that [scanColumn] returns has the name of its data
    type, which is one of the fourteen of [Type] and so never empty, and
    a size between [0] and the largest [int]; no clause after the type
    changes the name, the type or the size. *)
Theorem scanColumn_Type_Size fuel p col p' :
  scanColumn fuel p = Some (Ok col, p') ->
  (exists tok, is_datatype tok = true /\ Column_Type col = Type_ tok) /\
  Column_Type col <> EmptyString /\
  (0 <= Column_Size col <= maxInt)%Z.
Proof.
  intros H.
  apply scanColumn_clauses in H as (lit & p0 & t & sz & p1 & cls & _ & Ht & _ & ->).
  destruct (apply_clauses_Type_Size cls (mkColumn lit t sz None EmptyString false false))
    as (_ & -> & ->). cbn.
  apply ensures_scanType in Ht. destruct (Ht t sz eq_refl) as [(tok & Hd & ->) Hsz].
  split; [eauto|]. split; [apply Type_nonempty, Hd|exact Hsz].
Qed.

Lemma scanColumn_Type_Size_witness :
  (exists tok, is_datatype tok = true /\ "varchar"%string = Type_ tok) /\
  "varchar"%string <> EmptyString /\
  (0 <= 20 <= maxInt)%Z.
Proof.
  apply (scanColumn_Type_Size 20
           (NewParser "`username` varchar(20) DEFAULT NULL,") 
           (mkColumn "username" "varchar" 20 (Some "null"%string) EmptyString true false)
           (unscanned {| s := {| last := Some ","%char; rest := EmptyString |};
                         buf_tok := COMMA; buf_lit := ","; buf_n := 0 |})).
  vm_compute. reflexivity.
Defined.

(** * Termination of the parser *)

(** ** What [Scan] leaves of the input *)

Lemma suffix_of_tail c a b : suffix_of (String c a) b -> suffix_of a b.
Proof.
  intros H. remember (String c a) as x eqn:Hx. revert a Hx.
  induction H as [x|x d b H IH]; intros a ->.
  - apply suffix_of_cons, suffix_of_refl.
  - apply suffix_of_cons, IH. reflexivity.
Qed.

Lemma suffix_of_length a b :
  suffix_of a b -> (String.length a <= String.length b)%nat.
Proof. induction 1; cbn [String.length]; lia. Qed.

Lemma pending_unread sc : pending (unread sc) = pending sc.
Proof. destruct sc as [[c|] r]; reflexivity. Qed.

Section input_property.

(** A property of the input that still holds when a rune is taken off
    its front. *)
Variable P : string -> Prop.
Hypothesis P_tail : forall c r, P (String c r) -> P r.

Lemma pending_rest sc : P (pending sc) -> P (rest sc).
Proof. destruct sc as [[c|] r]; cbn; [apply P_tail|auto]. Qed.

Lemma read_keeps sc ch sc' :
  read sc = (ch, sc') -> P (pending sc) -> P (pending sc').
Proof.
  intros E H. apply pending_rest in H. revert E H.
  unfold read. destruct sc as [l r]. cbn.
  destruct r as [|c r]; intros [= <- <-]; cbn; auto.
Qed.

Lemma unread_keeps sc : P (pending sc) -> P (pending (unread sc)).
Proof. rewrite pending_unread. auto. Qed.

Ltac scan_loop_keeps :=
  let fuel := fresh "fuel" in
  let IH := fresh "IH" in
  intros fuel; induction fuel as [|fuel IH]; [intros; discriminate|];
  cbn -[read unread]; intros;
  repeat match goal with
  | H : (let (_, _) := read ?sc in _) = Some _ |- _ =>
      let E := fresh "E" in
      destruct (read sc) eqn:E; apply read_keeps in E; [|assumption]
  | H : (if ?b then _ else _) = Some _ |- _ => destruct b
  | H : Some _ = Some _ |- _ => injection H as H; subst
  end;
  eauto using unread_keeps.

Lemma scanWhitespace_loop_keeps : forall fuel buf sc buf' sc',
  scanWhitespace_loop fuel buf sc = Some (buf', sc') ->
  P (pending sc) -> P (pending sc').
Proof. scan_loop_keeps. Qed.

Lemma scanDigit_loop_keeps : forall fuel buf sc buf' sc',
  scanDigit_loop fuel buf sc = Some (buf', sc') ->
  P (pending sc) -> P (pending sc').
Proof. scan_loop_keeps. Qed.

Lemma scanIdent_loop_keeps : forall fuel buf sc buf' sc',
  scanIdent_loop fuel buf sc = Some (buf', sc') ->
  P (pending sc) -> P (pending sc').
Proof. scan_loop_keeps. Qed.

Lemma readString_keeps : forall fuel c buf sc buf' sc',
  readString fuel c buf sc = Some (buf', sc') ->
  P (pending sc) -> P (pending sc').
Proof. scan_loop_keeps. Qed.

Lemma scanInlineComment_keeps : forall fuel sc r sc',
  scanInlineComment fuel sc = Some (r, sc') ->
  P (pending sc) -> P (pending sc').
Proof. scan_loop_keeps. Qed.

Lemma scanLineComment_keeps : forall fuel sc r sc',
  scanLineComment fuel sc = Some (r, sc') ->
  P (pending sc) -> P (pending sc').
Proof. scan_loop_keeps. Qed.

Lemma Scan_keeps fuel sc tok lit sc' :
  Scan fuel sc = Some (tok, lit, sc') ->
  P (pending sc) -> P (pending sc').
Proof.
  unfold Scan. intros H Hok.
  destruct (read sc) as [ch sc1] eqn:E.
  pose proof (read_keeps _ _ _ E Hok) as Hok1.
  pose proof (unread_keeps _ Hok1) as Hok1'.
  destruct (isWhitespace ch).
  { unfold scanWhitespace in H.
    destruct (read (unread sc1)) as [ch' sc2] eqn:E2.
    destruct (scanWhitespace_loop fuel _ sc2) as [[buf sc3]|] eqn:E3;
      [|discriminate H].
    injection H as _ _ <-.
    eapply scanWhitespace_loop_keeps; [exact E3|].
    eapply read_keeps; [exact E2|exact Hok1']. }
  destruct (isLetter ch).
  { unfold scanIdent in H.
    destruct (read (unread sc1)) as [ch' sc2] eqn:E2.
    destruct (scanIdent_loop fuel _ sc2) as [[buf sc3]|] eqn:E3;
      [|discriminate H].
    injection H as _ _ <-.
    eapply scanIdent_loop_keeps; [exact E3|].
    eapply read_keeps; [exact E2|exact Hok1']. }
  destruct (isDigit ch).
  { unfold scanDigit in H.
    destruct (read (unread sc1)) as [ch' sc2] eqn:E2.
    destruct (scanDigit_loop fuel _ sc2) as [[buf sc3]|] eqn:E3;
      [|discriminate H].
    injection H as _ _ <-.
    eapply scanDigit_loop_keeps; [exact E3|].
    eapply read_keeps; [exact E2|exact Hok1']. }
  destruct (Ascii.eqb ch "'" || Ascii.eqb ch "`").
  { unfold scanString in H.
    destruct (read (unread sc1)) as [ch' sc2] eqn:E2.
    pose proof (read_keeps _ _ _ E2 Hok1') as Hok2.
    destruct (Ascii.eqb ch' "`").
    - destruct (readString fuel "`" EmptyString sc2) as [[buf sc3]|] eqn:E3;
        [|discriminate H].
      injection H as _ _ <-. eapply readString_keeps; [exact E3|exact Hok2].
    - destruct (Ascii.eqb ch' "'").
      + destruct (readString fuel "'" EmptyString sc2) as [[buf sc3]|] eqn:E3;
          [|discriminate H].
        injection H as _ _ <-. eapply readString_keeps; [exact E3|exact Hok2].
      + injection H as _ _ <-. exact Hok2. }
  destruct (Ascii.eqb ch "/").
  { destruct (read sc1) as [c sc2] eqn:E2.
    pose proof (read_keeps _ _ _ E2 Hok1) as Hok2.
    destruct (Ascii.eqb c "*").
    - eapply scanInlineComment_keeps; [exact H|].
      apply unread_keeps, unread_keeps, Hok2.
    - injection H as _ _ <-. apply unread_keeps, Hok2. }
  destruct (Ascii.eqb ch eof); [injection H as _ _ <-; exact Hok1|].
  destruct (Ascii.eqb ch ","); [injection H as _ _ <-; exact Hok1|].
  destruct (Ascii.eqb ch "("); [injection H as _ _ <-; exact Hok1|].
  destruct (Ascii.eqb ch ")"); [injection H as _ _ <-; exact Hok1|].
  destruct (Ascii.eqb ch ";"); [injection H as _ _ <-; exact Hok1|].
  destruct (Ascii.eqb ch "="); [injection H as _ _ <-; exact Hok1|].
  destruct (Ascii.eqb ch "-").
  { destruct (read sc1) as [c sc2] eqn:E2.
    pose proof (read_keeps _ _ _ E2 Hok1) as Hok2.
    destruct (Ascii.eqb c "-").
    - eapply scanLineComment_keeps; [exact H|exact Hok2].
    - injection H as _ _ <-. exact Hok2. }
  injection H as _ _ <-. exact Hok1.
Qed.

End input_property.

(** X12.  What [Scan] leaves to be read, the rune that [unread] would
    give back included, is a suffix of what was there before the call:
    the scanner never goes back behind the point where it started, and it
    reads the input in order, without skipping back or making up runes. *)
Theorem Scan_suffix fuel sc tok lit sc' :
  Scan fuel sc = Some (tok, lit, sc') ->
  suffix_of (pending sc') (pending sc) /\
  suffix_of (rest sc') (rest sc).
Proof.
  intros H. split.
  - apply (Scan_keeps (fun str => suffix_of str (pending sc))) in H.
    + exact H.
    + intros c r. apply suffix_of_tail.
    + apply suffix_of_refl.
  - revert H. destruct sc as [l r]. cbn [rest]. intros H.
    assert (H' : Scan fuel {| last := None; rest := r |} = Some (tok, lit, sc'))
      by exact H.
    apply (Scan_keeps (fun str => suffix_of str r)) in H'.
    + cbn beta in H'. destruct sc' as [[c|] r']; cbn in *;
        [apply suffix_of_tail in H'|]; exact H'.
    + intros c r0. apply suffix_of_tail.
    + apply suffix_of_refl.
Qed.

Lemma Scan_suffix_witness :
  suffix_of (pending {| last := None; rest := "(`id` int" |})
            (pending (NewScanner "user(`id` int")) /\
  suffix_of (rest {| last := None; rest := "(`id` int" |})
            (rest (NewScanner "user(`id` int")).
Proof.
  apply (Scan_suffix 10 (NewScanner "user(`id` int") IDENT "user").
  reflexivity.
Defined.

(** ** Every function of the parser returns *)

Lemma runs_ret {A} (a : A) p (Q : A -> Parser -> Prop) :
  Q a p -> runs (ret a) p Q.
Proof. intros H. exists a, p. split; [reflexivity|exact H]. Qed.

Lemma runs_bind {A B} (m : M A) (k : A -> M B) p (Q : B -> Parser -> Prop) :
  runs m p (fun a p1 => runs (k a) p1 Q) -> runs (bind m k) p Q.
Proof.
  intros (a & p1 & Hm & b & p2 & Hk & HQ). exists b, p2.
  split; [|exact HQ]. unfold bind. rewrite Hm. exact Hk.
Qed.

Lemma runs_weaken {A} (m : M A) p (Q Q' : A -> Parser -> Prop) :
  runs m p Q -> (forall a p', Q a p' -> Q' a p') -> runs m p Q'.
Proof. intros (a & p' & Hm & HQ) H. exists a, p'. auto. Qed.

Lemma unscan_runs p :
  Parser_returns p ->
  runs unscan p (fun _ p' =>
    Parser_returns p' /\ (remaining p' <= remaining p + 1)%nat).
Proof.
  intros H. apply runs_ret. split; [exact H|].
  unfold remaining. cbn. destruct (buf_n p =? 0)%Z; lia.
Qed.

(** On an exhausted input [Scan] returns [EOF] and needs no fuel. *)
Lemma Scan_exhausted fuel sc :
  rest sc = EmptyString ->
  Scan fuel sc = Some (EOF, "EOF"%string, {| last := None; rest := EmptyString |}).
Proof. destruct sc as [l r]. cbn. intros ->. reflexivity. Qed.

(** While the lexer gets through the input, [Scan] returns, and the
    lexer gets through what is left. *)
Lemma lexes_Scan fuel n sc :
  lexes n sc = true -> (String.length (rest sc) < fuel)%nat ->
  exists tok lit sc',
    Scan fuel sc = Some (tok, lit, sc') /\ exists n', lexes n' sc' = true.
Proof.
  destruct n as [|n]; [discriminate|]. cbn [lexes].
  destruct (rest sc) as [|c r] eqn:Hrest.
  - intros _ _. rewrite Scan_exhausted by exact Hrest.
    eexists _, _, _. split; [reflexivity|]. exists 1%nat. reflexivity.
  - rewrite <- Hrest.
    destruct (Scan (S (String.length (rest sc))) sc) as [[[tok lit] sc']|] eqn:E;
      [|discriminate].
    intros Hn Hfuel. apply Scan_mono with (m := fuel) in E; [|lia].
    exists tok, lit, sc'. split; [exact E|]. exists n. exact Hn.
Qed.

Lemma scan_runs fuel p :
  Parser_returns p -> (remaining p + 1 <= fuel)%nat ->
  runs (scan fuel) p (within p dec_tok).
Proof.
  intros [n Hp] Hfuel. unfold scan, runs, within, remaining in *.
  destruct (buf_n p =? 0)%Z eqn:Hn; cbn [negb].
  - destruct (lexes_Scan fuel n (s p) Hp) as (tok & lit & sc' & Hscan & Hp');
      [lia|].
    rewrite Hscan. eexists _, _. split; [reflexivity|]. cbn.
    split; [exact Hp'|].
    unfold dec_tok. cbn [fst].
    destruct (Scan_rest_shorter _ _ _ _ _ Hscan) as [(H0 & -> & H1)|Hlt].
    + rewrite H0, H1. cbn. lia.
    + destruct (Token_eqb tok EOF); lia.
  - eexists _, _. split; [reflexivity|]. cbn. split; [exists n; exact Hp|].
    unfold dec_tok. cbn [fst]. destruct (Token_eqb (buf_tok p) EOF); lia.
Qed.

(** Facts on the tokens that the tests of the parser give. *)
Ltac token_facts :=
  repeat match goal with
  | H : negb _ = true |- _ => apply negb_true_iff in H
  | H : negb _ = false |- _ => apply negb_false_iff in H
  | H : _ || _ = false |- _ => apply orb_false_iff in H; destruct H
  | H : _ || _ = true |- _ => apply orb_true_iff in H; destruct H
  | H : _ && _ = true |- _ => apply andb_true_iff in H; destruct H
  | H : Token_eqb ?t _ = true |- _ => apply Token_eqb_eq in H; subst t
  | H : negb (Token_eqb ?t ?c) && _ = false |- _ =>
      let E := fresh "E" in
      destruct (Token_eqb t c) eqn:E; cbn [negb andb] in H
  | H : is_datatype ?t = true |- _ =>
      assert (Token_eqb t EOF = false)
        by (destruct t; try reflexivity; vm_compute in H; discriminate H);
      clear H
  end.

(** The arithmetic that is left: the bounds on [remaining] collected on
    the way, with the tokens that are known counted. *)
Ltac runs_lia :=
  token_facts;
  unfold within, dec_tok, dec_ident, dec_ok, dec_created, dec_table,
    dec_any, dec_none in *;
  cbn [fst snd] in *; cbv beta in *;
  repeat match goal with
  | |- context [match ?a with _ => _ end] => is_var a; destruct a
  end;
  cbv iota in *;
  repeat match goal with
  | H : context [Token_eqb ?t ?c] |- _ =>
      is_constructor t;
      let v := eval vm_compute in (Token_eqb t c) in
      change (Token_eqb t c) with v in H
  | |- context [Token_eqb ?t ?c] =>
      is_constructor t;
      let v := eval vm_compute in (Token_eqb t c) in
      change (Token_eqb t c) with v
  end;
  cbv iota in *;
  repeat match goal with
  | H : context [if Token_eqb ?t ?c then _ else _] |- _ =>
      destruct (Token_eqb t c) eqn:?
  | |- context [if Token_eqb ?t ?c then _ else _] =>
      destruct (Token_eqb t c) eqn:?
  end;
  first [ exact I | congruence | lia ].

Create HintDb runs discriminated.

(** One call: the specification of the function called, then the rest
    with what it established. *)
Ltac runs_leaf :=
  apply runs_ret; split; [ assumption | runs_lia ].

(** A function proved before, or the loop itself on less fuel. *)
Ltac runs_known :=
  first
    [ solve [ auto with runs nocore ]
    | match goal with
      | IH : forall _, _ |- _ => apply IH; [ assumption | runs_lia ]
      end ].

Ltac runs_step :=
  cbv beta iota zeta;
  lazymatch goal with
  | |- runs (ret _) _ _ => runs_leaf
  | |- runs (bind unscan _) _ _ =>
      apply runs_bind; eapply runs_weaken;
      [ apply unscan_runs; assumption | intros [] ? [? ?]; cbv beta ]
  | |- runs (bind (ret tt) _) _ _ =>
      apply runs_bind, runs_ret
  | |- runs (bind (if ?b then _ else _) _) _ _ => destruct b eqn:?
  | |- runs (bind _ _) _ _ =>
      apply runs_bind; eapply runs_weaken;
      [ runs_known | intros ? ? [? ?]; cbv beta ]
  | |- runs (if ?b then _ else _) _ _ => destruct b eqn:?
  | |- runs (match ?t with _ => _ end) _ _ => destruct t
  | |- runs _ _ _ =>
      eapply runs_weaken;
      [ runs_known
      | intros ? ? [? ?]; split; [ assumption | runs_lia ] ]
  end.

Ltac runs_tac := repeat runs_step.

#[local] Hint Extern 0 (runs (scan _) _ _) =>
  apply scan_runs; [ assumption | runs_lia ] : runs.

Lemma scanIgnoreWhitespace_runs fuel p :
  Parser_returns p -> (remaining p + 1 <= fuel)%nat ->
  runs (scanIgnoreWhitespace fuel) p (within p dec_tok).
Proof.
  intros Hp Hfuel. unfold scanIgnoreWhitespace. runs_tac.
Qed.
#[local] Hint Extern 0 (runs (scanIgnoreWhitespace _) _ _) =>
  apply scanIgnoreWhitespace_runs; [ assumption | runs_lia ] : runs.

Lemma Parser_scanIdent_runs fuel p :
  Parser_returns p -> (remaining p + 1 <= fuel)%nat ->
  runs (Parser_scanIdent fuel) p (within p dec_ident).
Proof. intros Hp Hfuel. unfold Parser_scanIdent. runs_tac. Qed.
#[local] Hint Extern 0 (runs (Parser_scanIdent _) _ _) =>
  apply Parser_scanIdent_runs; [ assumption | runs_lia ] : runs.

Lemma scanType_runs fuel p :
  Parser_returns p -> (remaining p + 1 <= fuel)%nat ->
  runs (scanType fuel) p (within p (dec_ok 0)).
Proof. intros Hp Hfuel. unfold scanType. runs_tac. Qed.
#[local] Hint Extern 0 (runs (scanType _) _ _) =>
  apply scanType_runs; [ assumption | runs_lia ] : runs.

Lemma scanDefault_runs fuel p :
  Parser_returns p -> (remaining p + 1 <= fuel)%nat ->
  runs (scanDefault fuel) p (within p (dec_ok 1)).
Proof. intros Hp Hfuel. unfold scanDefault. runs_tac. Qed.
#[local] Hint Extern 0 (runs (scanDefault _) _ _) =>
  apply scanDefault_runs; [ assumption | runs_lia ] : runs.

Lemma scanColumn_loop_runs : forall fuel column p,
  Parser_returns p -> (remaining p + 2 <= fuel)%nat ->
  runs (scanColumn_loop fuel column) p (within p (dec_ok 0)).
Proof.
  induction fuel as [|fuel IH]; intros column p Hp Hfuel; [lia|].
  cbn [scanColumn_loop]. runs_tac.
Qed.
#[local] Hint Extern 0 (runs (scanColumn_loop _ _) _ _) =>
  apply scanColumn_loop_runs; [ assumption | runs_lia ] : runs.

Lemma scanColumn_runs fuel p :
  Parser_returns p -> (remaining p + 2 <= fuel)%nat ->
  runs (scanColumn fuel) p (within p (dec_ok 1)).
Proof. intros Hp Hfuel. unfold scanColumn. runs_tac. Qed.
#[local] Hint Extern 0 (runs (scanColumn _) _ _) =>
  apply scanColumn_runs; [ assumption | runs_lia ] : runs.

Lemma scanParenIdent_runs fuel p :
  Parser_returns p -> (remaining p + 1 <= fuel)%nat ->
  runs (scanParenIdent fuel) p (within p dec_ident).
Proof. intros Hp Hfuel. unfold scanParenIdent. runs_tac. Qed.
#[local] Hint Extern 0 (runs (scanParenIdent _) _ _) =>
  apply scanParenIdent_runs; [ assumption | runs_lia ] : runs.

Lemma scanPrimaryKey_runs fuel p :
  Parser_returns p -> (remaining p + 1 <= fuel)%nat ->
  runs (scanPrimaryKey fuel) p (within p (dec_ok 1)).
Proof. intros Hp Hfuel. unfold scanPrimaryKey. runs_tac. Qed.
#[local] Hint Extern 0 (runs (scanPrimaryKey _) _ _) =>
  apply scanPrimaryKey_runs; [ assumption | runs_lia ] : runs.

Lemma scanKey_runs fuel p :
  Parser_returns p -> (remaining p + 1 <= fuel)%nat ->
  runs (scanKey fuel) p (within p (dec_ok 1)).
Proof. intros Hp Hfuel. unfold scanKey. runs_tac. Qed.
#[local] Hint Extern 0 (runs (scanKey _) _ _) =>
  apply scanKey_runs; [ assumption | runs_lia ] : runs.

Lemma scanConstraint_runs fuel p :
  Parser_returns p -> (remaining p + 1 <= fuel)%nat ->
  runs (scanConstraint fuel) p (within p (dec_ok 1)).
Proof. intros Hp Hfuel. unfold scanConstraint. runs_tac. Qed.
#[local] Hint Extern 0 (runs (scanConstraint _) _ _) =>
  apply scanConstraint_runs; [ assumption | runs_lia ] : runs.

Lemma scanKV_runs fuel p :
  Parser_returns p -> (remaining p + 1 <= fuel)%nat ->
  runs (scanKV fuel) p (within p (dec_ok 2)).
Proof. intros Hp Hfuel. unfold scanKV. runs_tac. Qed.
#[local] Hint Extern 0 (runs (scanKV _) _ _) =>
  apply scanKV_runs; [ assumption | runs_lia ] : runs.

Lemma scanExtra_loop_runs : forall fuel extras p,
  Parser_returns p -> (remaining p + 3 <= fuel)%nat ->
  runs (scanExtra_loop fuel extras) p (within p (dec_ok 0)).
Proof.
  induction fuel as [|fuel IH]; intros extras p Hp Hfuel; [lia|].
  cbn [scanExtra_loop]. runs_tac.
Qed.

Lemma scanExtra_runs fuel p :
  Parser_returns p -> (remaining p + 3 <= fuel)%nat ->
  runs (scanExtra fuel) p (within p (dec_ok 0)).
Proof. apply scanExtra_loop_runs. Qed.
#[local] Hint Extern 0 (runs (scanExtra _) _ _) =>
  apply scanExtra_runs; [ assumption | runs_lia ] : runs.

Lemma parse_skip_runs : forall fuel p,
  Parser_returns p -> (remaining p + 2 <= fuel)%nat ->
  runs (parse_skip fuel) p (within p dec_any).
Proof.
  induction fuel as [|fuel IH]; intros p Hp Hfuel; [lia|].
  cbn [parse_skip]. runs_tac.
Qed.
#[local] Hint Extern 0 (runs (parse_skip _) _ _) =>
  apply parse_skip_runs; [ assumption | runs_lia ] : runs.

Lemma parse_head_runs : forall fuel p,
  Parser_returns p -> (remaining p + 3 <= fuel)%nat ->
  runs (parse_head fuel) p (within p dec_created).
Proof.
  induction fuel as [|fuel IH]; intros p Hp Hfuel; [lia|].
  cbn [parse_head]. runs_tac.
Qed.
#[local] Hint Extern 0 (runs (parse_head _) _ _) =>
  apply parse_head_runs; [ assumption | runs_lia ] : runs.

Lemma parse_items_runs : forall fuel table p,
  Parser_returns p -> (remaining p + 4 <= fuel)%nat ->
  runs (parse_items fuel table) p (within p (dec_ok 0)).
Proof.
  induction fuel as [|fuel IH]; intros table p Hp Hfuel; [lia|].
  cbn [parse_items]. runs_tac.
Qed.
#[local] Hint Extern 0 (runs (parse_items _ _) _ _) =>
  apply parse_items_runs; [ assumption | runs_lia ] : runs.

Lemma parse_runs fuel p :
  Parser_returns p -> (remaining p + 4 <= fuel)%nat ->
  runs (parse fuel) p (within p dec_table).
Proof. intros Hp Hfuel. unfold parse. runs_tac. Qed.
#[local] Hint Extern 0 (runs (parse _) _ _) =>
  apply parse_runs; [ assumption | runs_lia ] : runs.

Lemma Parse_loop_runs : forall fuel schema p,
  Parser_returns p -> (remaining p + 5 <= fuel)%nat ->
  runs (Parse_loop fuel schema) p (within p dec_none).
Proof.
  induction fuel as [|fuel IH]; intros schema p Hp Hfuel; [lia|].
  cbn [Parse_loop]. runs_tac.
Qed.

(** X13.  [Parse] returns on every input that the lexer gets through:
    if calling [Scan] again and again from the start of the input
    exhausts it, then the loops of the parser all come to an end,
    whatever the tokens are.  Fuel for two iterations per rune of the
    input, and five more, is enough. *)
Theorem Parse_terminates input n fuel :
  lexes n (NewScanner input) = true ->
  (2 * String.length input + 5 <= fuel)%nat ->
  exists schema err, ParseString fuel input = Some (schema, err).
Proof.
  intros Hin Hfuel.
  destruct (Parse_loop_runs fuel ∅ (NewParser input))
    as ([schema err] & p' & Hrun & _).
  - exists n. exact Hin.
  - unfold remaining. cbn. lia.
  - exists schema, err. unfold ParseString, Parse. rewrite Hrun. reflexivity.
Qed.

Lemma Parse_terminates_witness :
  exists schema err,
    ParseString 200 "CREATE TABLE `t` (`a` int DEFAULT 'x' /* cut -- here"
    = Some (schema, err).
Proof.
  apply (Parse_terminates _ 60).
  - vm_compute. reflexivity.
  - cbn. lia.
Defined.

(** * The lexer, token by token *)

(** X14.  [Scan] returns, on some fuel, exactly when the input does not
    begin with a quoted literal that is never closed or with a [--]
    comment that no newline ends; on every other input it returns, an
    unclosed block comment included. *)
Theorem Scan_returns_iff sc :
  (exists fuel r, Scan fuel sc = Some r) <-> Scan_returns_on (rest sc) = true.
Proof.
  split.
  - intros (fuel & r & H).
    destruct (Scan_returns_on (rest sc)) eqn:Hon; [reflexivity|].
    exfalso. destruct sc as [l [|c r0]]; cbn [rest] in Hon; [discriminate Hon|].
    unfold Scan_returns_on in Hon.
    destruct (Ascii.eqb_spec c "'") as [->|Hq].
    { cbn in Hon. revert H. unfold Scan, read. cbn.
      unfold scanString, read. cbn.
      rewrite readString_unterminated; [discriminate|exact Hon|reflexivity]. }
    destruct (Ascii.eqb_spec c "`") as [->|Hb].
    { cbn in Hon. revert H. unfold Scan, read. cbn.
      unfold scanString, read. cbn.
      rewrite readString_unterminated; [discriminate|exact Hon|reflexivity]. }
    cbn [orb] in Hon.
    destruct (Ascii.eqb_spec c "-") as [->|Hm]; [|discriminate Hon].
    destruct r0 as [|d r1]; [discriminate Hon|].
    destruct (Ascii.eqb_spec d "-") as [->|Hd]; [|discriminate Hon].
    revert H. unfold Scan, read. cbn.
    rewrite scanLineComment_no_newline; [discriminate|exact Hon].
  - intros H. exists (S (String.length (rest sc))).
    apply Scan_enough_fuel. exact H.
Qed.

(** ** Runs *)

Lemma isWhitespace_not_eof ch : isWhitespace ch = true -> Ascii.eqb ch eof = false.
Proof. destruct (Ascii.eqb_spec ch eof) as [->|]; [discriminate|reflexivity]. Qed.

Lemma isDigit_not_eof ch : isDigit ch = true -> Ascii.eqb ch eof = false.
Proof. destruct (Ascii.eqb_spec ch eof) as [->|]; [discriminate|reflexivity]. Qed.

Lemma isIdentRune_not_eof ch : isIdentRune ch = true -> Ascii.eqb ch eof = false.
Proof. destruct (Ascii.eqb_spec ch eof) as [->|]; [discriminate|reflexivity]. Qed.

Lemma scanWhitespace_loop_run : forall w buf l post,
  all_runes isWhitespace w = true -> stops_run isWhitespace post = true ->
  scanWhitespace_loop (S (String.length w)) buf {| last := l; rest := w ++ post |}
  = Some (buf ++ w, after_run post).
Proof.
  induction w as [|a w IH]; intros buf l post Hw Hpost.
  - rewrite append_empty_l, append_empty_r. cbn -[read]. unfold read. cbn [rest].
    destruct post as [|d r]; [reflexivity|].
    cbn [stops_run] in Hpost. cbn [after_run].
    destruct (Ascii.eqb d eof); [reflexivity|]. rewrite Hpost. reflexivity.
  - cbn [all_runes] in Hw. apply andb_true_iff in Hw as [Ha Hw].
    rewrite append_String. cbn [String.length].
    change (scanWhitespace_loop (S (S (String.length w))) buf
              {| last := l; rest := String a (w ++ post) |})
      with (if Ascii.eqb a eof then Some (buf, {| last := Some a; rest := w ++ post |})
            else if negb (isWhitespace a)
                 then Some (buf, unread {| last := Some a; rest := w ++ post |})
                 else scanWhitespace_loop (S (String.length w)) (WriteRune buf a)
                        {| last := Some a; rest := w ++ post |}).
    rewrite (isWhitespace_not_eof _ Ha), Ha. cbn [negb].
    rewrite IH by assumption. rewrite WriteRune_append. reflexivity.
Qed.

Lemma scanDigit_loop_run : forall w buf l post,
  all_runes isDigit w = true -> stops_run isDigit post = true ->
  scanDigit_loop (S (String.length w)) buf {| last := l; rest := w ++ post |}
  = Some (buf ++ w, after_run post).
Proof.
  induction w as [|a w IH]; intros buf l post Hw Hpost.
  - rewrite append_empty_l, append_empty_r. cbn -[read]. unfold read. cbn [rest].
    destruct post as [|d r]; [reflexivity|].
    cbn [stops_run] in Hpost. cbn [after_run].
    destruct (Ascii.eqb d eof); [reflexivity|]. rewrite Hpost. reflexivity.
  - cbn [all_runes] in Hw. apply andb_true_iff in Hw as [Ha Hw].
    rewrite append_String. cbn [String.length].
    change (scanDigit_loop (S (S (String.length w))) buf
              {| last := l; rest := String a (w ++ post) |})
      with (if Ascii.eqb a eof then Some (buf, {| last := Some a; rest := w ++ post |})
            else if negb (isDigit a)
                 then Some (buf, unread {| last := Some a; rest := w ++ post |})
                 else scanDigit_loop (S (String.length w)) (WriteRune buf a)
                        {| last := Some a; rest := w ++ post |}).
    rewrite (isDigit_not_eof _ Ha), Ha. cbn [negb].
    rewrite IH by assumption. rewrite WriteRune_append. reflexivity.
Qed.

Lemma isIdentRune_test ch :
  negb (isLetter ch) && negb (isDigit ch) && negb (Ascii.eqb ch "_")
  = negb (isIdentRune ch).
Proof.
  unfold isIdentRune.
  destruct (isLetter ch), (isDigit ch), (Ascii.eqb ch "_"); reflexivity.
Qed.

Lemma scanIdent_loop_run : forall w buf l post,
  all_runes isIdentRune w = true -> stops_run isIdentRune post = true ->
  scanIdent_loop (S (String.length w)) buf {| last := l; rest := w ++ post |}
  = Some (buf ++ w, after_run post).
Proof.
  induction w as [|a w IH]; intros buf l post Hw Hpost.
  - rewrite append_empty_l, append_empty_r. cbn -[read]. unfold read. cbn [rest].
    destruct post as [|d r]; [reflexivity|].
    cbn [stops_run] in Hpost. cbn [after_run].
    destruct (Ascii.eqb d eof); [reflexivity|].
    rewrite isIdentRune_test, Hpost. reflexivity.
  - cbn [all_runes] in Hw. apply andb_true_iff in Hw as [Ha Hw].
    rewrite append_String. cbn [String.length].
    change (scanIdent_loop (S (S (String.length w))) buf
              {| last := l; rest := String a (w ++ post) |})
      with (if Ascii.eqb a eof then Some (buf, {| last := Some a; rest := w ++ post |})
            else if negb (isLetter a) && negb (isDigit a) && negb (Ascii.eqb a "_")
                 then Some (buf, unread {| last := Some a; rest := w ++ post |})
                 else scanIdent_loop (S (String.length w)) (WriteRune buf a)
                        {| last := Some a; rest := w ++ post |}).
    rewrite (isIdentRune_not_eof _ Ha), isIdentRune_test, Ha. cbn [negb].
    rewrite IH by assumption. rewrite WriteRune_append. reflexivity.
Qed.

(** The token of a run, for each of the three kinds. *)
Lemma Scan_run fuel l c w post tok :
  run_token c (String c w) = Some tok ->
  all_runes (run_rune c) w = true ->
  stops_run (run_rune c) post = true ->
  (String.length w < fuel)%nat ->
  Scan fuel {| last := l; rest := String c (w ++ post) |}
  = Some (tok, String c w, after_run post).
Proof.
  unfold run_token, run_rune. intros Ht Hw Hp Hfuel.
  unfold Scan, read. cbn [rest].
  destruct (isWhitespace c).
  { injection Ht as <-. cbn [unread last rest]. unfold scanWhitespace, read.
    cbn [rest].
    pose proof (scanWhitespace_loop_run w (WriteRune EmptyString c) (Some c) post
                  Hw Hp) as Hr.
    apply scanWhitespace_loop_mono with (m := fuel) in Hr; [|lia].
    unfold rune in *. rewrite Hr, WriteRune_append, append_empty_l. reflexivity. }
  destruct (isLetter c).
  { injection Ht as <-. cbn [unread last rest]. unfold scanIdent, read.
    cbn [rest].
    pose proof (scanIdent_loop_run w (WriteRune EmptyString c) (Some c) post
                  Hw Hp) as Hr.
    apply scanIdent_loop_mono with (m := fuel) in Hr; [|lia].
    unfold rune in *. rewrite Hr, WriteRune_append, append_empty_l. reflexivity. }
  destruct (isDigit c); [|discriminate Ht].
  injection Ht as <-. cbn [unread last rest]. unfold scanDigit, read.
  cbn [rest].
  pose proof (scanDigit_loop_run w (WriteRune EmptyString c) (Some c) post
                Hw Hp) as Hr.
  apply scanDigit_loop_mono with (m := fuel) in Hr; [|lia].
  unfold rune in *. rewrite Hr, WriteRune_append, append_empty_l. reflexivity.
Qed.

(** ** Keywords in any case *)

Lemma upper_rune_isLetter ch :
  isLetter (upper_rune ch) = true -> isLetter ch = true.
Proof.
  destruct ch as [[] [] [] [] [] [] [] []]; vm_compute; intros H;
    first [reflexivity | discriminate H].
Qed.

Lemma upper_rune_isIdentRune ch :
  isIdentRune (upper_rune ch) = true -> isIdentRune ch = true.
Proof.
  destruct ch as [[] [] [] [] [] [] [] []]; vm_compute; intros H;
    first [reflexivity | discriminate H].
Qed.

Lemma isLetter_not_whitespace ch :
  isLetter ch = true -> isWhitespace ch = false.
Proof.
  destruct ch as [[] [] [] [] [] [] [] []]; vm_compute; intros H;
    first [reflexivity | discriminate H].
Qed.

Lemma ToUpper_isIdentRune w :
  all_runes isIdentRune (ToUpper w) = true -> all_runes isIdentRune w = true.
Proof.
  induction w as [|a w IH]; [reflexivity|]. cbn [ToUpper all_runes].
  intros H. apply andb_true_iff in H as [Ha Hw].
  rewrite (upper_rune_isIdentRune _ Ha), (IH Hw). reflexivity.
Qed.

(** The spelling of a keyword starts with a letter, goes on with letters
    and underscores, and is the one that [keyword] looks for. *)
Lemma spelling_shape tok word :
  spelling tok = Some word ->
  keyword word = tok /\
  exists u r, word = String u r /\ isLetter u = true /\
              all_runes isIdentRune r = true.
Proof.
  destruct tok; try discriminate; intros [= <-];
    (split; [reflexivity|]); eexists _, _;
    (split; [reflexivity|]); split; reflexivity.
Qed.

(** X6.  Keywords and type names are recognised in any letter case, and
    the literal keeps the text as written.  A word whose upper-cased
    spelling is that of a keyword, followed by the end of the input or by
    a rune that is not a letter, a digit or an underscore, is scanned as
    that keyword with the word itself as literal; and whenever [Scan]
    returns a keyword token, its literal upper-cased is the keyword. *)
Theorem Scan_keyword_any_case tok word :
  spelling tok = Some word ->
  (forall fuel l c w post,
     ToUpper (String c w) = word ->
     stops_run isIdentRune post = true ->
     (String.length w < fuel)%nat ->
     Scan fuel {| last := l; rest := String c (w ++ post) |}
     = Some (tok, String c w, after_run post)) /\
  (forall fuel sc lit sc',
     Scan fuel sc = Some (tok, lit, sc') -> ToUpper lit = word).
Proof.
  intros Hs. split.
  - intros fuel l c w post Hup Hpost Hfuel.
    destruct (spelling_shape _ _ Hs) as (Hk & u & r & Hword & Hu & Hr).
    rewrite Hword in Hup. cbn [ToUpper] in Hup. injection Hup as Hc Hw.
    rewrite <- Hc in Hu. apply upper_rune_isLetter in Hu.
    rewrite <- Hw in Hr. apply ToUpper_isIdentRune in Hr.
    pose proof (isLetter_not_whitespace _ Hu) as Hws.
    apply Scan_run.
    + unfold run_token. rewrite Hws, Hu.
      cbn [ToUpper]. rewrite Hc, Hw, <- Hword, Hk. reflexivity.
    + unfold run_rune. rewrite Hws, Hu. exact Hr.
    + unfold run_rune. rewrite Hws, Hu. exact Hpost.
    + exact Hfuel.
  - intros fuel sc lit sc' H.
    exact (proj1 (Scan_keyword_upper _ _ _ _ _ _ H Hs)).
Qed.

Lemma Scan_keyword_any_case_witness :
  Scan 20 {| last := None; rest := String "c" ("Reate" ++ " TABLE") |}
  = Some (CREATE, String "c" "Reate", after_run " TABLE") /\
  ToUpper "cReate" = "CREATE"%string.
Proof.
  destruct (Scan_keyword_any_case CREATE "CREATE" eq_refl) as [Hto Hfrom].
  split.
  - apply Hto; [reflexivity|reflexivity|cbn; lia].
  - apply (Hfrom 20%nat (NewScanner "cReate TABLE") "cReate"%string
             {| last := None; rest := " TABLE" |}).
    reflexivity.
Defined.

(** X15.  A token that starts with whitespace, a letter or a digit takes
    the longest run of runes of its kind: whitespace for [WS], digits for
    [SIZE], letters, digits and underscores for an identifier or keyword.
    The literal is the run as written and the token of a word is decided
    by its upper-cased spelling.  The rune after the run is left to be
    read next, unless it is the rune NUL, which the loops take for the
    end of the input and consume with the token. *)
Theorem Scan_longest_run fuel l c w post tok :
  run_token c (String c w) = Some tok ->
  all_runes (run_rune c) w = true ->
  stops_run (run_rune c) post = true ->
  (String.length w < fuel)%nat ->
  Scan fuel {| last := l; rest := String c (w ++ post) |}
  = Some (tok, String c w, after_run post) /\
  rest (after_run post)
  = match post with
    | String d r => if Ascii.eqb d eof then r else post
    | EmptyString => EmptyString
    end.
Proof.
  intros Ht Hw Hp Hfuel. split; [apply Scan_run; assumption|].
  destruct post as [|d r]; [reflexivity|]. cbn [after_run].
  destruct (Ascii.eqb d eof); reflexivity.
Qed.

Lemma Scan_longest_run_witness :
  Scan 20 {| last := None; rest := String "v" ("arChar" ++ "(20) NOT NULL") |}
  = Some (VARCHAR, String "v" "arChar", after_run "(20) NOT NULL") /\
  rest (after_run "(20) NOT NULL") = "(20) NOT NULL"%string.
Proof.
  apply (Scan_longest_run 20 None "v" "arChar" "(20) NOT NULL" VARCHAR).
  - reflexivity.
  - reflexivity.
  - reflexivity.
  - cbn. lia.
Defined.

(** ** Comments *)

(** X16.  A [--] comment runs to the first newline: [Scan] returns one
    [ANNOTATION] with an empty literal, and the next rune to be read is
    the one after the newline. *)
Theorem Scan_line_comment fuel l body post :
  contains "010" body = false ->
  (String.length body < fuel)%nat ->
  Scan fuel {| last := l;
               rest := String "-" (String "-" (body ++ String "010" post)) |}
  = Some (ANNOTATION, EmptyString, {| last := Some "010"%char; rest := post |}).
Proof.
  intros Hb Hfuel. unfold Scan, read. cbn.
  pose proof (scanLineComment_newline body (Some "-"%char) post Hb) as Hr.
  apply scanLineComment_mono with (m := fuel) in Hr; [|lia].
  unfold rune in *. exact Hr.
Qed.

Lemma Scan_line_comment_witness :
  Scan 20 {| last := None;
             rest := String "-" (String "-" (" note" ++ String "010" "DROP")) |}
  = Some (ANNOTATION, EmptyString, {| last := Some "010"%char; rest := "DROP" |}).
Proof.
  apply (Scan_line_comment 20 None " note" "DROP").
  - reflexivity.
  - cbn. lia.
Defined.

Lemma scanInlineComment_S fuel sc :
  scanInlineComment (S fuel) sc
  = let (ch, s1) := read sc in
    if Ascii.eqb ch eof then Some (ILLEGAL, EmptyString, s1)
    else if Ascii.eqb ch "*" then
      let (c, s2) := read s1 in
      if Ascii.eqb c "/" then Some (ANNOTATION, EmptyString, s2)
      else scanInlineComment fuel s2
    else scanInlineComment fuel s1.
Proof. reflexivity. Qed.

Lemma scanInlineComment_body : forall body l post,
  contains "*" body = false -> contains eof body = false ->
  scanInlineComment (S (String.length body))
    {| last := l; rest := body ++ String "*" (String "/" post) |}
  = Some (ANNOTATION, EmptyString, {| last := Some "/"%char; rest := post |}).
Proof.
  induction body as [|d body IH]; intros l post Hs He.
  - rewrite append_empty_l. reflexivity.
  - cbn [contains] in Hs, He.
    apply orb_false_iff in Hs as [Hd Hs]. apply orb_false_iff in He as [Hd' He].
    cbn [String.length]. rewrite scanInlineComment_S, append_String.
    unfold read at 1. cbn [rest]. cbv beta iota. rewrite Hd', Hd.
    apply IH; assumption.
Qed.

(** X17.  A block comment is scanned as one [ANNOTATION], and the next
    rune to be read is the one after the closing [*/], when its text is
    not empty, does not begin with a slash and, after its first rune,
    holds no star and no rune NUL.  (The first rune of the text is read
    together with the star of the opening [/*], whatever it is; a NUL
    further on is taken for the end of the input.) *)
Theorem Scan_block_comment fuel l b body post :
  Ascii.eqb b "/" = false ->
  contains "*" body = false ->
  contains eof body = false ->
  (S (String.length body) < fuel)%nat ->
  Scan fuel {| last := l;
               rest := String "/" (String "*"
                         (String b (body ++ String "*" (String "/" post)))) |}
  = Some (ANNOTATION, EmptyString, {| last := Some "/"%char; rest := post |}).
Proof.
  intros Hb Hs He Hfuel.
  unfold Scan, read. cbn.
  destruct fuel as [|fuel]; [lia|].
  rewrite scanInlineComment_S. unfold read. cbn. rewrite Hb.
  pose proof (scanInlineComment_body body (Some b) post Hs He) as Hr.
  apply scanInlineComment_mono with (m := fuel) in Hr; [|lia].
  unfold rune in *. exact Hr.
Qed.

Lemma Scan_block_comment_witness :
  Scan 20 {| last := None;
             rest := String "/" (String "*"
                       (String "*" ("note " ++ String "*" (String "/" " x")))) |}
  = Some (ANNOTATION, EmptyString, {| last := Some "/"%char; rest := " x" |}).
Proof.
  apply (Scan_block_comment 20 None "*" "note " " x").
  - reflexivity.
  - reflexivity.
  - reflexivity.
  - cbn. lia.
Defined.

(** * Table names *)

Lemma keeps_ensures {A} (Q R : A -> Prop) (m : M A) :
  keeps Q m -> ensures R m -> keeps (fun a => Q a /\ R a) m.
Proof.
  intros HQ HR p a p' Hp H. destruct (HQ p a p' Hp H) as [Hp' Ha].
  split; [exact Hp'|]. split; [exact Ha|]. exact (HR p a p' H).
Qed.

Lemma keeps_parse_named fuel :
  keeps (fun r => forall t, r = Ok (Some t) -> Table_Name t <> EmptyString)
        (parse fuel).
Proof.
  unfold parse. eapply keeps_bind; [apply keeps_parse_head|]. intros [[|]|e] _.
  - eapply keeps_bind; [apply keeps_scanIgnoreWhitespace|]. intros [tok lit] _.
    destruct (negb (Token_eqb tok TABLE)); [apply keeps_ret; intros ? [=]|].
    eapply keeps_bind; [apply keeps_Parser_scanIdent|]. intros [tok1 lit1] Htok.
    destruct (Token_eqb tok1 IDENT) eqn:E; [|apply keeps_ret; intros ? [=]].
    apply Token_eqb_eq in E. subst tok1.
    eapply keeps_bind; [apply keeps_scanIgnoreWhitespace|]. intros [tok2 lit2] _.
    destruct (negb (Token_eqb tok2 OPEN_PAREN)); [apply keeps_ret; intros ? [=]|].
    eapply keeps_bind.
    { apply keeps_ensures.
      - apply keeps_parse_items. reflexivity.
      - apply ensures_parse_items. apply keyed_new. }
    intros [t|e] [_ Ht].
    + apply keeps_ret. intros ? [= <-].
      destruct (Ht t eq_refl) as [-> _]. cbn. apply Htok. reflexivity.
    + apply keeps_ret. intros ? [=].
  - apply keeps_ret. intros ? [=].
  - apply keeps_ret. intros ? [=].
Qed.

Lemma keeps_Parse_loop_named : forall fuel schema,
  schema !! EmptyString = None ->
  keeps (fun r => fst r !! EmptyString = None) (Parse_loop fuel schema).
Proof.
  intros fuel; induction fuel as [|fuel IH]; intros schema Hnone;
    [intros ? ? ? ? ?; discriminate|].
  cbn [Parse_loop]. eapply keeps_bind; [apply keeps_parse_named|].
  intros [[t|]|e] Ht.
  - apply IH. rewrite lookup_insert_ne; [exact Hnone|]. apply Ht. reflexivity.
  - apply keeps_ret. exact Hnone.
  - apply keeps_ret. exact Hnone.
Qed.

(** X18.  When the input has no two adjacent backticks, no table of the
    schema that [Parse] returns, with or without an error, is stored
    under the empty name or has an empty [Name]. *)
Theorem Parse_no_empty_table_name fuel input schema err :
  adjacent_backticks input = false ->
  ParseString fuel input = Some (schema, err) ->
  schema !! EmptyString = None /\
  forall name t, schema !! name = Some t -> Table_Name t <> EmptyString.
Proof.
  intros Hin H. unfold ParseString in H.
  destruct (Parse fuel (NewParser input)) as [[r p']|] eqn:E; [|discriminate].
  injection H as ->.
  assert (Hnone : schema !! EmptyString = None).
  { destruct (keeps_Parse_loop_named fuel ∅ (lookup_empty _)
                _ _ _ (NewParser_ok _ Hin) E) as [_ Hnone].
    exact Hnone. }
  split; [exact Hnone|].
  intros name t Hl Hname.
  apply Parse_loop_keyed in E;
    [|intros k t'; rewrite lookup_empty; discriminate].
  destruct (E name t Hl) as [Hk _]. cbn [fst] in *.
  rewrite <- Hk, Hname, Hnone in Hl. discriminate Hl.
Qed.

Lemma Parse_no_empty_table_name_witness :
  (<["t"%string := table_t_b]> ∅ : gmap string Table) !! EmptyString = None /\
  forall name t,
    (<["t"%string := table_t_b]> ∅ : gmap string Table) !! name = Some t ->
    Table_Name t <> EmptyString.
Proof.
  apply (Parse_no_empty_table_name 20 two_tables_input _ None).
  - reflexivity.
  - vm_compute. reflexivity.
Defined.

(** * Where the parser stops *)

Lemma hoare_ret {A} (P : Parser -> Prop) (a : A) (Q : A -> Parser -> Prop) :
  (forall p, P p -> Q a p) -> hoare P (ret a) Q.
Proof. intros H p a' p' Hp [= <- <-]. auto. Qed.

Lemma hoare_bind {A B} (P : Parser -> Prop) (m : M A) (k : A -> M B)
    (Q1 : A -> Parser -> Prop) (Q : B -> Parser -> Prop) :
  hoare P m Q1 -> (forall a, hoare (Q1 a) (k a) Q) -> hoare P (bind m k) Q.
Proof.
  intros Hm Hk p b p' Hp. unfold bind.
  destruct (m p) as [[a p1]|] eqn:E; [|discriminate].
  apply (Hk a). exact (Hm _ _ _ Hp E).
Qed.

Lemma hoare_any {A} (P : Parser -> Prop) (m : M A) :
  hoare P m (fun _ _ => True).
Proof. intros p a p' _ _. exact I. Qed.

Lemma hoare_pre {A} (P P' : Parser -> Prop) (m : M A) Q :
  hoare P' m Q -> (forall p, P p -> P' p) -> hoare P m Q.
Proof. intros H HP p a p' Hp. apply H, HP, Hp. Qed.

Lemma hoare_scanIgnoreWhitespace fuel P :
  hoare P (scanIgnoreWhitespace fuel) (fun r p' => just_scanned (fst r) p').
Proof.
  intros p [tok lit] p' _ H.
  apply scanIgnoreWhitespace_buffer in H as (Ht & _ & Hn). split; assumption.
Qed.

Lemma hoare_unscan tok :
  hoare (just_scanned tok) unscan
        (fun _ p' => buf_tok p' = tok /\ buf_n p' = 1%Z).
Proof. intros p a p' [Ht _] [= _ <-]. cbn. auto. Qed.

(** A step that is passed over: whatever it returns, go on. *)
Ltac hoare_skip := eapply hoare_bind; [ apply hoare_any | intros ? ].

(** A lemma whose precondition is [True]. *)
Ltac hoare_true L := eapply hoare_pre; [ apply L | intros; exact I ].

(** A result that the postcondition does not speak of. *)
Ltac hoare_other := apply hoare_ret; intros; discriminate.

Lemma parse_skip_EOF : forall fuel,
  hoare (fun _ => True) (parse_skip fuel)
        (fun semi p' => semi = false -> just_scanned EOF p').
Proof.
  induction fuel as [|fuel IH]; [intros p a p' _ H; discriminate|].
  cbn [parse_skip].
  eapply hoare_bind; [apply hoare_scanIgnoreWhitespace|]. intros [tok lit].
  cbn [fst]. destruct (Token_eqb tok SEMI_COLON); [hoare_other|].
  destruct (Token_eqb tok EOF) eqn:E.
  - apply Token_eqb_eq in E. subst tok. apply hoare_ret. auto.
  - hoare_true IH.
Qed.

Lemma parse_head_EOF : forall fuel,
  hoare (fun _ => True) (parse_head fuel)
        (fun r p' => r = Ok false -> just_scanned EOF p').
Proof.
  induction fuel as [|fuel IH]; [intros p a p' _ H; discriminate|].
  cbn [parse_head].
  eapply hoare_bind; [apply hoare_scanIgnoreWhitespace|]. intros [tok lit].
  cbn [fst].
  destruct (Token_eqb tok DROP || Token_eqb tok LOCK || Token_eqb tok UNLOCK).
  { eapply hoare_bind; [hoare_true parse_skip_EOF|].
    intros [|]; cbv beta.
    - hoare_true IH.
    - apply hoare_ret. auto. }
  destruct (Token_eqb tok SEMI_COLON || Token_eqb tok ANNOTATION).
  { hoare_true IH. }
  destruct (Token_eqb tok CREATE); [hoare_other|].
  destruct (Token_eqb tok EOF) eqn:E; [|hoare_other].
  apply Token_eqb_eq in E. subst tok. apply hoare_ret. auto.
Qed.

(** [parse] returns [nil, nil] only with [EOF] as the last token scanned. *)
Lemma parse_nil_EOF fuel :
  hoare (fun _ => True) (parse fuel)
        (fun r p' => r = Ok None -> just_scanned EOF p').
Proof.
  unfold parse. eapply hoare_bind; [apply parse_head_EOF|].
  intros [[|]|e]; cbv beta iota.
  - hoare_skip. destruct a as [tok lit].
    destruct (negb (Token_eqb tok TABLE)); [hoare_other|].
    hoare_skip. destruct a as [tok1 lit1].
    destruct (Token_eqb tok1 IDENT); [|hoare_other].
    cbv zeta. hoare_skip. destruct a as [tok2 lit2].
    destruct (negb (Token_eqb tok2 OPEN_PAREN)); [hoare_other|].
    hoare_skip. destruct a as [t|e]; hoare_other.
  - apply hoare_ret. auto.
  - hoare_other.
Qed.

(** After the options of a table, the [SEMI_COLON] that ends them is
    pushed back. *)
Lemma scanExtra_loop_between : forall fuel extras,
  hoare (fun _ => True) (scanExtra_loop fuel extras)
        (fun r p' => forall e, r = Ok e ->
                     buf_tok p' = SEMI_COLON /\ buf_n p' = 1%Z).
Proof.
  induction fuel as [|fuel IH]; intros extras;
    [intros p a p' _ H; discriminate|].
  cbn [scanExtra_loop].
  eapply hoare_bind; [apply hoare_scanIgnoreWhitespace|]. intros [tok lit].
  cbn [fst]. destruct (negb (Token_eqb tok SEMI_COLON)) eqn:E.
  - hoare_skip. hoare_skip. destruct a0 as [[k v]|e]; cbv beta iota.
    + hoare_true IH.
    + hoare_other.
  - apply negb_false_iff, Token_eqb_eq in E. subst tok.
    eapply hoare_bind; [apply hoare_unscan|]. intros [].
    apply hoare_ret. intros p Hp e _. exact Hp.
Qed.

Lemma parse_items_between : forall fuel table,
  hoare (fun _ => True) (parse_items fuel table)
        (fun r p' => forall t, r = Ok t -> between_statements p').
Proof.
  induction fuel as [|fuel IH]; intros table;
    [intros p a p' _ H; discriminate|].
  cbn [parse_items].
  eapply hoare_bind; [apply hoare_scanIgnoreWhitespace|]. intros [tok lit].
  cbn [fst]. destruct tok; cbv beta iota; try hoare_other.
  - (* IDENT *)
    hoare_skip. hoare_skip. destruct a0 as [col|e]; [|hoare_other].
    hoare_true IH.
  - (* COMMA *) hoare_true IH.
  - (* SEMI_COLON *)
    apply hoare_ret. intros p [_ Hn] t _. left. exact Hn.
  - (* CLOSE_PAREN *)
    eapply hoare_bind; [apply hoare_scanIgnoreWhitespace|]. intros [tok1 lit1].
    cbn [fst]. destruct (negb (Token_eqb tok1 SEMI_COLON)).
    + hoare_skip.
      eapply hoare_bind;
        [hoare_true scanExtra_loop_between|].
      intros [extras|e]; cbv beta iota; [|hoare_other].
      apply hoare_ret. intros p Hp t _. right. apply (Hp extras). reflexivity.
    + apply hoare_ret. intros p [_ Hn] t _. left. exact Hn.
  - (* KEY *)
    hoare_skip. hoare_skip. destruct a0 as [[index col]|e]; [|hoare_other].
    hoare_true IH.
  - (* UNIQUE *)
    hoare_skip. destruct a as [[k v]|e]; [|hoare_other].
    hoare_true IH.
  - (* CONSTRAINT *)
    hoare_skip. hoare_skip. destruct a0 as [cos|e]; [|hoare_other].
    hoare_true IH.
  - (* PRIMARY *)
    hoare_skip. hoare_skip. destruct a0 as [key|e]; [|hoare_other].
    hoare_true IH.
Qed.

(** When [parse] returns a table, nothing is pushed back, or the
    [SEMI_COLON] that ended the statement is. *)
Lemma parse_table_between fuel :
  hoare (fun _ => True) (parse fuel)
        (fun r p' => forall t, r = Ok (Some t) -> between_statements p').
Proof.
  unfold parse. hoare_skip. destruct a as [[|]|e]; cbv beta iota;
    try hoare_other.
  hoare_skip. destruct a as [tok lit].
  destruct (negb (Token_eqb tok TABLE)); [hoare_other|].
  hoare_skip. destruct a as [tok1 lit1].
  destruct (Token_eqb tok1 IDENT); [|hoare_other].
  cbv zeta. hoare_skip. destruct a as [tok2 lit2].
  destruct (negb (Token_eqb tok2 OPEN_PAREN)); [hoare_other|].
  eapply hoare_bind; [hoare_true parse_items_between|].
  intros [t|e]; cbv beta iota; [|hoare_other].
  apply hoare_ret. intros p Hp t' _. apply (Hp t). reflexivity.
Qed.

(** X9.  When [Parse] returns no error, its last call of [parse]
    returned [nil, nil], and that call stopped on the token [EOF]: it is
    the last token scanned, and it was not pushed back.  The schema is
    made of the tables that the calls of [parse] before it returned, each
    stored under its name, a later table replacing an earlier one of the
    same name. *)
Theorem Parse_success_schema fuel p schema p' :
  Parse fuel p = Some ((schema, None), p') ->
  exists ts p1 fuel',
    parse_run p ts p1 /\ parse fuel' p1 = Some (Ok None, p') /\
    buf_tok p' = EOF /\ buf_n p' = 0%Z /\
    schema = commit ∅ ts /\
    (forall k t, schema !! k = Some t -> In t ts /\ Table_Name t = k) /\
    (forall t, In t ts -> is_Some (schema !! Table_Name t)) /\
    (forall pre t post, ts = (pre ++ t :: post)%list ->
       ~ In (Table_Name t) (map Table_Name post) ->
       schema !! Table_Name t = Some t).
Proof.
  intros H. apply Parse_loop_success in H as (ts & p1 & fuel' & Hrun & Hend & ->).
  exists ts, p1, fuel'. split; [exact Hrun|]. split; [exact Hend|].
  destruct (parse_nil_EOF fuel' _ _ _ I Hend eq_refl) as [Htok Hn].
  split; [exact Htok|]. split; [exact Hn|].
  split; [reflexivity|]. split; [|split].
  - intros k t H. apply commit_lookup in H as [H|H]; [exact H|].
    rewrite lookup_empty in H. discriminate.
  - intros t Hin. apply commit_present. right. exists t. auto.
  - intros pre t post -> Hnot. unfold commit. rewrite fold_left_app.
    cbn [fold_left]. apply commit_last. exact Hnot.
Qed.

Lemma Parse_success_schema_witness :
  exists ts p1 fuel',
    parse_run (NewParser two_tables_input) ts p1 /\
    parse fuel' p1
    = Some (Ok None, {| s := {| last := None; rest := EmptyString |};
                        buf_tok := EOF; buf_lit := "EOF"; buf_n := 0 |}) /\
    EOF = EOF /\ 0%Z = 0%Z /\
    (<["t"%string := table_t_b]> ∅ : gmap string Table) = commit ∅ ts /\
    (forall k t, (<["t"%string := table_t_b]> ∅ : gmap string Table) !! k = Some t ->
                 In t ts /\ Table_Name t = k) /\
    (forall t, In t ts ->
       is_Some ((<["t"%string := table_t_b]> ∅ : gmap string Table) !! Table_Name t)) /\
    (forall pre t post, ts = (pre ++ t :: post)%list ->
       ~ In (Table_Name t) (map Table_Name post) ->
       (<["t"%string := table_t_b]> ∅ : gmap string Table) !! Table_Name t = Some t).
Proof.
  apply (Parse_success_schema 20 (NewParser two_tables_input)).
  vm_compute. reflexivity.
Defined.

(** * An input followed by more *)

(** ** The lexer

    A call that returns without having found the end of its input
    returns the same on the input followed by any [b], and leaves [b]
    after what it left. *)

Section extend.

Variable b : string.

Ltac extend_end IH Hend :=
  repeat match goal with
  | |- (if ?c then _ else _) = _ -> _ => destruct c
  end;
  intros H; exfalso;
  first
    [ injection H as <- <-; discriminate Hend
    | injection H as <- <- <-; discriminate Hend
    | injection H as <- <-; cbn in Hend; discriminate Hend
    | apply IH in H; [ destruct H as [H _]; apply H; reflexivity | exact Hend ] ].

Ltac extend_more IH Hend :=
  repeat match goal with
  | |- (if ?c then _ else _) = _ -> _ => destruct c
  end;
  intros H;
  first
    [ injection H as <- <-; reflexivity
    | injection H as <- <- <-; reflexivity
    | exact (proj2 (IH _ _ _ _ H Hend))
    | exact (proj2 (IH _ _ _ _ _ H Hend))
    | exact (proj2 (IH _ _ _ H Hend)) ].

Ltac extend_loop :=
  let fuel := fresh "fuel" in
  let IH := fresh "IH" in
  let Hend := fresh "Hend" in
  intros fuel; induction fuel as [|fuel IH]; [intros; discriminate|];
  intros *;
  match goal with
  | |- _ ?sc = Some _ -> _ => destruct sc as [l [|c r]]
  end;
  intros H Hend; revert H;
  cbn -[read unread]; unfold read; cbn [rest last unread];
  [ extend_end IH Hend
  | intros H; split; [discriminate|]; revert H;
    cbn [extend last rest]; rewrite append_String;
    cbn -[read unread extend String.append]; unfold read;
    cbn [rest last unread];
    extend_more IH Hend ].

Lemma scanWhitespace_loop_extend : forall fuel buf sc res sc',
  scanWhitespace_loop fuel buf sc = Some (res, sc') -> at_end sc' = false ->
  rest sc <> EmptyString /\
  scanWhitespace_loop fuel buf (extend b sc) = Some (res, extend b sc').
Proof. extend_loop. Qed.

Lemma scanDigit_loop_extend : forall fuel buf sc res sc',
  scanDigit_loop fuel buf sc = Some (res, sc') -> at_end sc' = false ->
  rest sc <> EmptyString /\
  scanDigit_loop fuel buf (extend b sc) = Some (res, extend b sc').
Proof. extend_loop. Qed.

Lemma scanIdent_loop_extend : forall fuel buf sc res sc',
  scanIdent_loop fuel buf sc = Some (res, sc') -> at_end sc' = false ->
  rest sc <> EmptyString /\
  scanIdent_loop fuel buf (extend b sc) = Some (res, extend b sc').
Proof. extend_loop. Qed.

Lemma readString_extend : forall fuel q buf sc res sc',
  readString fuel q buf sc = Some (res, sc') -> at_end sc' = false ->
  rest sc <> EmptyString /\
  readString fuel q buf (extend b sc) = Some (res, extend b sc').
Proof. extend_loop. Qed.

Lemma scanLineComment_extend : forall fuel sc res sc',
  scanLineComment fuel sc = Some (res, sc') -> at_end sc' = false ->
  rest sc <> EmptyString /\
  scanLineComment fuel (extend b sc) = Some (res, extend b sc').
Proof. extend_loop. Qed.

Lemma scanInlineComment_extend : forall fuel sc res sc',
  scanInlineComment fuel sc = Some (res, sc') -> at_end sc' = false ->
  rest sc <> EmptyString /\
  scanInlineComment fuel (extend b sc) = Some (res, extend b sc').
Proof.
  induction fuel as [|fuel IH]; [intros; discriminate|].
  intros [l [|c r]] res sc' H Hend.
  - cbn in H. injection H as <- <-. discriminate Hend.
  - split; [discriminate|]. revert H.
    rewrite !scanInlineComment_S. unfold extend at 1. cbn [last rest].
    rewrite append_String. unfold read at 1 3. cbn [rest].
    destruct (Ascii.eqb c eof); [intros [= <- <-]; reflexivity|].
    destruct (Ascii.eqb c "*").
    + destruct r as [|c2 r2]; unfold read; cbn [rest].
      * cbn. intros H. exfalso. apply IH in H; [|exact Hend].
        destruct H as [H _]. apply H. reflexivity.
      * rewrite append_String.
        destruct (Ascii.eqb c2 "/"); [intros [= <- <-]; reflexivity|].
        intros H. exact (proj2 (IH _ _ _ H Hend)).
    + intros H. exact (proj2 (IH _ _ _ H Hend)).
Qed.

(** The same for [Scan]. *)
Lemma Scan_extend fuel sc tok lit sc' :
  Scan fuel sc = Some (tok, lit, sc') -> at_end sc' = false ->
  rest sc <> EmptyString /\
  Scan fuel (extend b sc) = Some (tok, lit, extend b sc').
Proof.
  destruct sc as [l [|c r]]; intros H Hend.
  { cbn in H. injection H as <- <- <-. discriminate Hend. }
  split; [discriminate|]. revert H.
  unfold extend at 1. cbn [last rest]. rewrite append_String.
  unfold Scan, read. cbn [rest unread last].
  destruct (isWhitespace c).
  { unfold scanWhitespace, read. cbn [rest].
    destruct (scanWhitespace_loop fuel _ {| last := Some c; rest := r |})
      as [[buf sc3]|] eqn:E; [|discriminate].
    intros [= <- <- <-].
    destruct (scanWhitespace_loop_extend _ _ _ _ _ E Hend) as [_ E'].
    unfold extend at 1 in E'. cbn [last rest] in E'.
    unfold rune in *. rewrite E'. reflexivity. }
  destruct (isLetter c).
  { unfold scanIdent, read. cbn [rest].
    destruct (scanIdent_loop fuel _ {| last := Some c; rest := r |})
      as [[buf sc3]|] eqn:E; [|discriminate].
    intros [= <- <- <-].
    destruct (scanIdent_loop_extend _ _ _ _ _ E Hend) as [_ E'].
    unfold extend at 1 in E'. cbn [last rest] in E'.
    unfold rune in *. rewrite E'. reflexivity. }
  destruct (isDigit c).
  { unfold scanDigit, read. cbn [rest].
    destruct (scanDigit_loop fuel _ {| last := Some c; rest := r |})
      as [[buf sc3]|] eqn:E; [|discriminate].
    intros [= <- <- <-].
    destruct (scanDigit_loop_extend _ _ _ _ _ E Hend) as [_ E'].
    unfold extend at 1 in E'. cbn [last rest] in E'.
    unfold rune in *. rewrite E'. reflexivity. }
  destruct (Ascii.eqb c "'" || Ascii.eqb c "`").
  { unfold scanString, read. cbn [rest].
    destruct (Ascii.eqb c "`").
    - destruct (readString fuel "`" EmptyString {| last := Some c; rest := r |})
        as [[buf sc3]|] eqn:E; [|discriminate].
      intros [= <- <- <-].
      destruct (readString_extend _ _ _ _ _ _ E Hend) as [_ E'].
      unfold extend at 1 in E'. cbn [last rest] in E'.
    unfold rune in *. rewrite E'. reflexivity.
    - destruct (Ascii.eqb c "'").
      + destruct (readString fuel "'" EmptyString {| last := Some c; rest := r |})
          as [[buf sc3]|] eqn:E; [|discriminate].
        intros [= <- <- <-].
        destruct (readString_extend _ _ _ _ _ _ E Hend) as [_ E'].
        unfold extend at 1 in E'. cbn [last rest] in E'.
    unfold rune in *. rewrite E'. reflexivity.
      + intros [= <- <- <-]. reflexivity. }
  destruct (Ascii.eqb c "/").
  { destruct r as [|c2 r2]; cbn [rest unread last].
    - cbn. intros [= <- <- <-]. discriminate Hend.
    - rewrite append_String. cbn [rest unread last].
      destruct (Ascii.eqb c2 "*").
      + intros H.
        destruct (scanInlineComment_extend _ _ _ _ H Hend) as [_ E'].
        exact E'.
      + intros [= <- <- <-]. reflexivity. }
  destruct (Ascii.eqb c eof); [intros [= <- <- <-]; reflexivity|].
  destruct (Ascii.eqb c ","); [intros [= <- <- <-]; reflexivity|].
  destruct (Ascii.eqb c "("); [intros [= <- <- <-]; reflexivity|].
  destruct (Ascii.eqb c ")"); [intros [= <- <- <-]; reflexivity|].
  destruct (Ascii.eqb c ";"); [intros [= <- <- <-]; reflexivity|].
  destruct (Ascii.eqb c "="); [intros [= <- <- <-]; reflexivity|].
  destruct (Ascii.eqb c "-").
  { destruct r as [|c2 r2]; cbn [rest unread last].
    - cbn. intros [= <- <- <-]. discriminate Hend.
    - rewrite append_String. cbn [rest unread last].
      destruct (Ascii.eqb c2 "-").
      + intros H.
        destruct (scanLineComment_extend _ _ _ _ H Hend) as [_ E'].
        exact E'.
      + intros [= <- <- <-]. reflexivity. }
  intros [= <- <- <-]. reflexivity.
Qed.

End extend.

(** ** The parser *)

Section frames.

Variable b : string.

Lemma frames_ret {A} (a : A) : frames b (ret a).
Proof. intros p a' p' [= <- <-] Hend. split; [exact Hend|reflexivity]. Qed.

Lemma frames_bind {A B} (m : M A) (k : A -> M B) :
  frames b m -> (forall a, frames b (k a)) -> frames b (bind m k).
Proof.
  intros Hm Hk p r p' H Hend. unfold bind in *.
  destruct (m p) as [[a p1]|] eqn:E; [|discriminate].
  destruct (Hk a _ _ _ H Hend) as [Hend1 Hk'].
  destruct (Hm _ _ _ E Hend1) as [Hend0 Hm'].
  split; [exact Hend0|]. rewrite Hm'. exact Hk'.
Qed.

Lemma frames_none {A} : frames b (fun _ => None : option (A * Parser)).
Proof. intros p a p' H. discriminate H. Qed.

Lemma frames_unscan : frames b unscan.
Proof. intros p a p' [= <- <-] Hend. split; [exact Hend|reflexivity]. Qed.

Lemma at_end_rest sc : rest sc <> EmptyString -> at_end sc = false.
Proof. destruct sc as [[c|] [|d r]]; cbn; intros H; congruence. Qed.

Lemma frames_scan fuel : frames b (scan fuel).
Proof.
  intros p [tok lit] p' H Hend. unfold scan in *. cbn [extend_parser buf_n s].
  destruct (negb (buf_n p =? 0)%Z).
  - injection H as <- <- <-. split; [exact Hend|reflexivity].
  - destruct (Scan fuel (s p)) as [[[t l] s']|] eqn:E; [|discriminate].
    injection H as <- <- <-. cbn [s] in Hend.
    destruct (Scan_extend b _ _ _ _ _ E Hend) as [Hne E'].
    split; [apply at_end_rest, Hne|]. rewrite E'. reflexivity.
Qed.

Create HintDb frames discriminated.

Ltac frames_step :=
  cbv beta iota zeta;
  lazymatch goal with
  | |- frames _ (ret _) => apply frames_ret
  | |- frames _ (bind _ _) => apply frames_bind; [ | intros ? ]
  | |- frames _ (if ?c then _ else _) => destruct c
  | |- frames _ (match ?t with _ => _ end) => destruct t
  | |- frames _ _ => solve [ auto with frames nocore ]
  end.

Ltac frames_tac := repeat frames_step.

Ltac frames_loop unf :=
  let fuel := fresh "fuel" in
  let IH := fresh "IH" in
  intros fuel; induction fuel as [|fuel IH]; intros;
  [ apply frames_none | unf; frames_tac ].

#[local] Hint Extern 0 (frames _ unscan) => apply frames_unscan : frames.
#[local] Hint Extern 0 (frames _ (scan _)) => apply frames_scan : frames.

Lemma frames_scanIgnoreWhitespace fuel : frames b (scanIgnoreWhitespace fuel).
Proof. unfold scanIgnoreWhitespace. frames_tac. Qed.
#[local] Hint Extern 0 (frames _ (scanIgnoreWhitespace _)) =>
  apply frames_scanIgnoreWhitespace : frames.

Lemma frames_Parser_scanIdent fuel : frames b (Parser_scanIdent fuel).
Proof. unfold Parser_scanIdent. frames_tac. Qed.
#[local] Hint Extern 0 (frames _ (Parser_scanIdent _)) =>
  apply frames_Parser_scanIdent : frames.

Lemma frames_scanType fuel : frames b (scanType fuel).
Proof. unfold scanType. frames_tac. Qed.
#[local] Hint Extern 0 (frames _ (scanType _)) => apply frames_scanType : frames.

Lemma frames_scanDefault fuel : frames b (scanDefault fuel).
Proof. unfold scanDefault. frames_tac. Qed.
#[local] Hint Extern 0 (frames _ (scanDefault _)) =>
  apply frames_scanDefault : frames.

Lemma frames_scanColumn_loop : forall fuel column,
  frames b (scanColumn_loop fuel column).
Proof. frames_loop ltac:(cbn [scanColumn_loop]). Qed.
#[local] Hint Extern 0 (frames _ (scanColumn_loop _ _)) =>
  apply frames_scanColumn_loop : frames.

Lemma frames_scanColumn fuel : frames b (scanColumn fuel).
Proof. unfold scanColumn. frames_tac. Qed.
#[local] Hint Extern 0 (frames _ (scanColumn _)) =>
  apply frames_scanColumn : frames.

Lemma frames_scanParenIdent fuel : frames b (scanParenIdent fuel).
Proof. unfold scanParenIdent. frames_tac. Qed.
#[local] Hint Extern 0 (frames _ (scanParenIdent _)) =>
  apply frames_scanParenIdent : frames.

Lemma frames_scanPrimaryKey fuel : frames b (scanPrimaryKey fuel).
Proof. unfold scanPrimaryKey. frames_tac. Qed.
#[local] Hint Extern 0 (frames _ (scanPrimaryKey _)) =>
  apply frames_scanPrimaryKey : frames.

Lemma frames_scanKey fuel : frames b (scanKey fuel).
Proof. unfold scanKey. frames_tac. Qed.
#[local] Hint Extern 0 (frames _ (scanKey _)) => apply frames_scanKey : frames.

Lemma frames_scanConstraint fuel : frames b (scanConstraint fuel).
Proof. unfold scanConstraint. frames_tac. Qed.
#[local] Hint Extern 0 (frames _ (scanConstraint _)) =>
  apply frames_scanConstraint : frames.

Lemma frames_scanKV fuel : frames b (scanKV fuel).
Proof. unfold scanKV. frames_tac. Qed.
#[local] Hint Extern 0 (frames _ (scanKV _)) => apply frames_scanKV : frames.

Lemma frames_scanExtra_loop : forall fuel extras,
  frames b (scanExtra_loop fuel extras).
Proof. frames_loop ltac:(cbn [scanExtra_loop]). Qed.

Lemma frames_scanExtra fuel : frames b (scanExtra fuel).
Proof. apply frames_scanExtra_loop. Qed.
#[local] Hint Extern 0 (frames _ (scanExtra _)) =>
  apply frames_scanExtra : frames.

Lemma frames_parse_skip : forall fuel, frames b (parse_skip fuel).
Proof. frames_loop ltac:(cbn [parse_skip]). Qed.
#[local] Hint Extern 0 (frames _ (parse_skip _)) =>
  apply frames_parse_skip : frames.

Lemma frames_parse_head : forall fuel, frames b (parse_head fuel).
Proof. frames_loop ltac:(cbn [parse_head]). Qed.
#[local] Hint Extern 0 (frames _ (parse_head _)) =>
  apply frames_parse_head : frames.

Lemma frames_parse_items : forall fuel table,
  frames b (parse_items fuel table).
Proof. frames_loop ltac:(cbn [parse_items]). Qed.
#[local] Hint Extern 0 (frames _ (parse_items _ _)) =>
  apply frames_parse_items : frames.

Lemma frames_parse fuel : frames b (parse fuel).
Proof. unfold parse. frames_tac. Qed.

End frames.

(** ** Statement after statement *)

Lemma Scan_rest_only fuel sc1 sc2 :
  rest sc1 = rest sc2 -> Scan fuel sc1 = Scan fuel sc2.
Proof. destruct sc1, sc2. cbn. intros ->. reflexivity. Qed.

Lemma scan_fresh fuel p q :
  rest (s p) = rest (s q) -> buf_n p = 0%Z -> buf_n q = 0%Z ->
  scan fuel p = scan fuel q.
Proof.
  intros Hr Hp Hq. unfold scan. rewrite Hp, Hq. cbn.
  rewrite (Scan_rest_only fuel _ _ Hr). reflexivity.
Qed.

(** With nothing pushed back, [parse] depends on the input that is left
    and on nothing else of the state. *)
Lemma parse_fresh fuel p q :
  rest (s p) = rest (s q) -> buf_n p = 0%Z -> buf_n q = 0%Z ->
  parse fuel p = parse fuel q.
Proof.
  intros Hr Hp Hq. destruct fuel as [|fuel]; [reflexivity|].
  unfold parse, bind. cbn [parse_head].
  unfold bind, scanIgnoreWhitespace, bind.
  rewrite (scan_fresh fuel p q Hr Hp Hq). reflexivity.
Qed.

(** A [SEMI_COLON] that was pushed back is skipped. *)
Lemma parse_pending fuel q r :
  buf_tok q = SEMI_COLON -> buf_n q = 1%Z ->
  parse fuel {| s := s q; buf_tok := buf_tok q; buf_lit := buf_lit q;
                buf_n := 0 |} = Some r ->
  parse (S fuel) q = Some r.
Proof.
  destruct q as [sq bt bl bn]. cbn [s buf_tok buf_lit buf_n].
  intros -> -> H.
  set (q := {| s := sq; buf_tok := SEMI_COLON; buf_lit := bl; buf_n := 1 |}).
  set (q0 := {| s := sq; buf_tok := SEMI_COLON; buf_lit := bl; buf_n := 0 |})
    in *.
  assert (Hhead : parse_head (S fuel) q = parse_head fuel q0) by reflexivity.
  assert (Hbig : parse (S fuel) q0 = Some r)
    by (apply (parse_mono fuel (S fuel)); [lia|exact H]).
  revert Hbig. unfold parse in *. unfold bind in *.
  destruct (parse_head fuel q0) as [[h p1]|] eqn:E; [|discriminate H].
  rewrite Hhead.
  rewrite (parse_head_mono fuel (S fuel) ltac:(lia) _ _ E). auto.
Qed.

(** From wherever a statement ended, [parse] does what it does from the
    start of the input that is left. *)
Lemma parse_from_boundary q input f r :
  rest (s q) = input -> between_statements q ->
  parse f (NewParser input) = Some r ->
  forall fuel, (S f <= fuel)%nat -> parse fuel q = Some r.
Proof.
  intros Hrest [Hn|[Ht Hn]] H fuel Hfuel.
  - apply (parse_mono f fuel); [lia|].
    rewrite <- H. apply parse_fresh; [exact Hrest|exact Hn|reflexivity].
  - apply (parse_mono (S f) fuel); [lia|].
    apply parse_pending; [exact Ht|exact Hn|].
    rewrite <- H. apply parse_fresh; [exact Hrest|reflexivity|reflexivity].
Qed.

(** A statement that [parse] reads alone, it reads the same with more
    input after it, and stops where the statement ends. *)
Lemma parse_statement stmt t q tail :
  parses_alone stmt t ->
  rest (s q) = stmt ++ tail -> between_statements q ->
  exists f q',
    (forall fuel, (S f <= fuel)%nat -> parse fuel q = Some (Ok (Some t), q')) /\
    rest (s q') = tail /\ between_statements q'.
Proof.
  intros (f & p' & Hparse & Hs) Hrest Hq.
  assert (Hend : at_end (s p') = false) by (rewrite Hs; reflexivity).
  destruct (frames_parse tail f _ _ _ Hparse Hend) as [_ Hext].
  exists f, (extend_parser tail p'). split; [|split].
  - intros fuel Hfuel.
    exact (parse_from_boundary q (stmt ++ tail) f _ Hrest Hq Hext fuel Hfuel).
  - cbn. rewrite Hs. reflexivity.
  - exact (parse_table_between f _ _ _ I Hparse t eq_refl).
Qed.

(** [Parse] on statements that parse alone, followed by a rest on which
    [parse] does not return a table. *)
Lemma Parse_loop_statements stmts ts :
  Forall2 parses_alone stmts ts ->
  forall schema q tail f r p_end,
    rest (s q) = statements stmts tail -> between_statements q ->
    parse f (NewParser tail) = Some (r, p_end) -> ends_Parse r ->
    exists fuel0, forall fuel, (fuel0 <= fuel)%nat ->
      Parse_loop fuel schema q = Some ((commit schema ts, error_of r), p_end).
Proof.
  induction 1 as [|stmt t stmts ts Hstmt _ IH];
    intros schema q tail f r p_end Hrest Hq Htail Hr.
  - exists (S (S f)). intros [|fuel] Hfuel; [lia|].
    cbn [Parse_loop statements fold_right] in *. unfold bind.
    rewrite (parse_from_boundary q tail f _ Hrest Hq Htail fuel) by lia.
    destruct r as [[t|]|e]; [destruct Hr|reflexivity|reflexivity].
  - cbn [statements fold_right] in Hrest.
    destruct (parse_statement _ _ _ _ Hstmt Hrest Hq)
      as (f1 & q' & Hparse & Hrest' & Hq').
    destruct (IH (<[Table_Name t := t]> schema) q' tail f r p_end
                Hrest' Hq' Htail Hr) as [fuel2 Hloop].
    exists (S (Nat.max (S f1) fuel2)). intros [|fuel] Hfuel; [lia|].
    cbn [Parse_loop]. unfold bind. rewrite Hparse by lia.
    rewrite Hloop by lia. reflexivity.
Qed.

Lemma ParseString_statements stmts ts tail f r p_end :
  Forall2 parses_alone stmts ts ->
  parse f (NewParser tail) = Some (r, p_end) -> ends_Parse r ->
  exists fuel0, forall fuel, (fuel0 <= fuel)%nat ->
    ParseString fuel (statements stmts tail)
    = Some (commit ∅ ts, error_of r).
Proof.
  intros Hstmts Htail Hr.
  destruct (Parse_loop_statements stmts ts Hstmts ∅
              (NewParser (statements stmts tail)) tail f r p_end
              eq_refl (or_introl eq_refl) Htail Hr) as [fuel0 H].
  exists fuel0. intros fuel Hfuel. unfold ParseString, Parse.
  rewrite (H fuel Hfuel). reflexivity.
Qed.

Lemma commit_entries ts :
  (forall k t, commit ∅ ts !! k = Some t -> In t ts /\ Table_Name t = k) /\
  (forall t, In t ts -> is_Some (commit ∅ ts !! Table_Name t)) /\
  (forall pre t post, ts = (pre ++ t :: post)%list ->
     ~ In (Table_Name t) (map Table_Name post) ->
     commit ∅ ts !! Table_Name t = Some t).
Proof.
  split; [|split].
  - intros k t H. apply commit_lookup in H as [H|H]; [exact H|].
    rewrite lookup_empty in H. discriminate.
  - intros t Hin. apply commit_present. right. exists t. auto.
  - intros pre t post -> Hnot. unfold commit. rewrite fold_left_app.
    cbn [fold_left]. apply commit_last. exact Hnot.
Qed.

Lemma parses_alone_stmt_t_a : parses_alone stmt_t_a table_t_a.
Proof.
  exists 20%nat,
    {| s := {| last := Some ";"%char; rest := EmptyString |};
       buf_tok := SEMI_COLON; buf_lit := ";"; buf_n := 0 |}.
  split; [vm_compute; reflexivity|reflexivity].
Qed.

Lemma parses_alone_stmt_t_b : parses_alone stmt_t_b table_t_b.
Proof.
  exists 20%nat,
    {| s := {| last := Some ";"%char; rest := EmptyString |};
       buf_tok := SEMI_COLON; buf_lit := ";"; buf_n := 0 |}.
  split; [vm_compute; reflexivity|reflexivity].
Qed.

Lemma parses_alone_stmt_u : parses_alone stmt_u table_u.
Proof.
  exists 20%nat,
    {| s := {| last := Some ";"%char; rest := EmptyString |};
       buf_tok := SEMI_COLON; buf_lit := ";"; buf_n := 1 |}.
  split; [vm_compute; reflexivity|reflexivity].
Qed.

(** C7, as stated, fails: a table that was fully parsed before the
    failure is not in the returned schema when a later statement, also
    before the failure, creates a table of the same name.  The schema is
    a map from names to tables. *)
Lemma Parse_error_replaced_table :
  parses_alone stmt_t_a table_t_a /\
  parses_alone stmt_t_b table_t_b /\
  ParseString 20 (stmt_t_a ++ stmt_t_b ++ " CREATE")
  = Some (<["t"%string := table_t_b]> ∅,
          Some (Errorf "found CREATE %q, expected CREATE TABLE" [ArgLit "EOF"])) /\
  (<["t"%string := table_t_b]> ∅ : gmap string Table) !! "t"%string
  <> Some table_t_a.
Proof.
  split; [exact parses_alone_stmt_t_a|].
  split; [exact parses_alone_stmt_t_b|].
  split; [vm_compute; reflexivity|].
  rewrite lookup_insert_eq. intros [=].
Qed.

(** * The shared table [Type] *)

(** ** No function writes to [Type] *)

Lemma leaves_ret {A} (a : A) : leaves_Type (Shared.ret a).
Proof. intros types p a' p' types' [= _ _ <-]. reflexivity. Qed.

Lemma leaves_bind {A B} (m : Shared.W A) (k : A -> Shared.W B) :
  leaves_Type m -> (forall a, leaves_Type (k a)) ->
  leaves_Type (Shared.bind m k).
Proof.
  intros Hm Hk types p r p' types'. unfold Shared.bind.
  destruct (m types p) as [[[a p1] types1]|] eqn:E; [|discriminate].
  intros H. apply Hk in H. apply Hm in E. congruence.
Qed.

Lemma leaves_lift {A} (m : M A) : leaves_Type (Shared.lift m).
Proof.
  intros types p a p' types'. unfold Shared.lift.
  destruct (m p) as [[a' p1]|]; [|discriminate].
  intros [= _ _ <-]. reflexivity.
Qed.

Lemma leaves_Type_at tok : leaves_Type (Shared.Type_at tok).
Proof. intros types p a p' types' [= _ _ <-]. reflexivity. Qed.

Lemma leaves_none {A} :
  leaves_Type (fun _ _ => None : option (A * Parser * Shared.TypeMap)).
Proof. intros types p a p' types' H. discriminate H. Qed.

Create HintDb leaves discriminated.

Ltac leaves_step :=
  cbv beta iota zeta;
  lazymatch goal with
  | |- leaves_Type (Shared.ret _) => apply leaves_ret
  | |- leaves_Type (Shared.bind _ _) => apply leaves_bind; [ | intros ? ]
  | |- leaves_Type (Shared.lift _) => apply leaves_lift
  | |- leaves_Type (Shared.Type_at _) => apply leaves_Type_at
  | |- leaves_Type (if ?c then _ else _) => destruct c
  | |- leaves_Type (match ?t with _ => _ end) => destruct t
  | |- leaves_Type _ => solve [ auto with leaves nocore ]
  end.

Ltac leaves_tac := repeat leaves_step.

Lemma leaves_scanType fuel : leaves_Type (Shared.scanType fuel).
Proof. unfold Shared.scanType. leaves_tac. Qed.
#[local] Hint Extern 0 (leaves_Type (Shared.scanType _)) =>
  apply leaves_scanType : leaves.

Lemma leaves_scanColumn fuel : leaves_Type (Shared.scanColumn fuel).
Proof. unfold Shared.scanColumn. leaves_tac. Qed.
#[local] Hint Extern 0 (leaves_Type (Shared.scanColumn _)) =>
  apply leaves_scanColumn : leaves.

Lemma leaves_parse_items : forall fuel table,
  leaves_Type (Shared.parse_items fuel table).
Proof.
  induction fuel as [|fuel IH]; intros table; [apply leaves_none|].
  cbn [Shared.parse_items]. leaves_tac.
Qed.
#[local] Hint Extern 0 (leaves_Type (Shared.parse_items _ _)) =>
  apply leaves_parse_items : leaves.

Lemma leaves_parse fuel : leaves_Type (Shared.parse fuel).
Proof. unfold Shared.parse. leaves_tac. Qed.
#[local] Hint Extern 0 (leaves_Type (Shared.parse _)) =>
  apply leaves_parse : leaves.


(** ** The fuel *)

Lemma le_atW_const {A} n m (c : Shared.W A) : le_atW n m (fun _ => c).
Proof. intros types p r H. exact H. Qed.

Lemma le_atW_bind {A B} n m (f : nat -> Shared.W A)
    (g : nat -> A -> Shared.W B) :
  le_atW n m f -> (forall a, le_atW n m (fun k => g k a)) ->
  le_atW n m (fun k => Shared.bind (f k) (g k)).
Proof.
  intros Hf Hg types p r. unfold Shared.bind.
  destruct (f n types p) as [[[a p1] types1]|] eqn:E; [|discriminate].
  rewrite (Hf _ _ _ E). apply Hg.
Qed.

Lemma le_atW_lift {A} n m (f : nat -> M A) :
  le_at n m f -> le_atW n m (fun k => Shared.lift (f k)).
Proof.
  intros Hf types p r. unfold Shared.lift.
  destruct (f n p) as [[a p1]|] eqn:E; [|discriminate].
  rewrite (Hf _ _ E). auto.
Qed.

Create HintDb le_atW discriminated.

Ltac le_atW_step :=
  cbv beta iota;
  lazymatch goal with
  | |- le_atW _ _ (fun _ => ?c) => apply le_atW_const
  | |- le_atW _ _ (fun k => Shared.bind _ _) =>
      apply le_atW_bind; [ | intros ? ]
  | |- le_atW ?n ?m (fun k => Shared.lift (@?f k)) =>
      apply (le_atW_lift n m f);
      let g := eval cbv beta in (fun k => f k) in
      change (le_at n m g); solve [ auto with le_at nocore ]
  | |- le_atW _ _ (fun k => if ?c then _ else _) => destruct c
  | |- le_atW _ _ (fun k => match ?t with _ => _ end) => destruct t
  | |- le_atW ?n ?m ?f =>
      let g := eval cbv beta in (fun k => f k) in
      change (le_atW n m g); solve [ auto with le_atW nocore ]
  end.

Ltac le_atW_tac := repeat le_atW_step.

Lemma Shared_scanType_mono n m :
  (n <= m)%nat -> le_atW n m (fun k => Shared.scanType k).
Proof. intros Hle. unfold Shared.scanType. le_atW_tac. Qed.
#[local] Hint Extern 0 (le_atW _ _ (fun k => Shared.scanType k)) =>
  apply Shared_scanType_mono; assumption : le_atW.

Lemma Shared_scanColumn_mono n m :
  (n <= m)%nat -> le_atW n m (fun k => Shared.scanColumn k).
Proof. intros Hle. unfold Shared.scanColumn. le_atW_tac. Qed.
#[local] Hint Extern 0 (le_atW _ _ (fun k => Shared.scanColumn k)) =>
  apply Shared_scanColumn_mono; assumption : le_atW.

Ltac le_atW_loop unf :=
  let n := fresh "n" in
  let m := fresh "m" in
  let IH := fresh "IH" in
  intros n; induction n as [|n IH]; intros m;
  [ intros; intros ? ? ? Hnone; discriminate Hnone
  | destruct m; [intros; lia|]; intros;
    intros ? ? ?; unf;
    match goal with
    | |- ?X ?t ?p = Some ?r -> ?Y ?t ?p = Some ?r =>
        match eval pattern n in X with
        | ?F _ => revert t p r; change (le_atW n m F)
        end
    end;
    assert (n <= m)%nat by lia;
    le_atW_tac ].

Lemma Shared_parse_items_mono : forall n m, (n <= m)%nat ->
  forall table, le_atW n m (fun k => Shared.parse_items k table).
Proof. le_atW_loop ltac:(cbn [Shared.parse_items]). Qed.
#[local] Hint Extern 0 (le_atW _ _ (fun k => Shared.parse_items k _)) =>
  apply Shared_parse_items_mono; assumption : le_atW.

Lemma Shared_parse_mono n m :
  (n <= m)%nat -> le_atW n m (fun k => Shared.parse k).
Proof. intros Hle. unfold Shared.parse. le_atW_tac. Qed.
#[local] Hint Extern 0 (le_atW _ _ (fun k => Shared.parse k)) =>
  apply Shared_parse_mono; assumption : le_atW.



(** ** With [Type] as [init] leaves it *)

Lemma index_init tok : Shared.index Shared.init tok = Type_ tok.
Proof. destruct tok; reflexivity. Qed.

Lemma agrees_ret {A} (a : A) : agrees (Shared.ret a) (ret a).
Proof. intros p. reflexivity. Qed.

Lemma agrees_lift {A} (m : M A) : agrees (Shared.lift m) m.
Proof. intros p. reflexivity. Qed.

Lemma agrees_bind {A B} (w : Shared.W A) (m : M A)
    (k : A -> Shared.W B) (k' : A -> M B) :
  agrees w m -> (forall a, agrees (k a) (k' a)) ->
  agrees (Shared.bind w k) (bind m k').
Proof.
  intros Hw Hk p. unfold Shared.bind. rewrite (Hw p).
  unfold Shared.lift, bind. destruct (m p) as [[a p1]|]; [|reflexivity].
  rewrite (Hk a p1). reflexivity.
Qed.

Lemma agrees_Type_at {A} tok (k : string -> Shared.W A) (m : M A) :
  agrees (k (Type_ tok)) m ->
  agrees (Shared.bind (Shared.Type_at tok) k) m.
Proof.
  intros H p. unfold Shared.bind, Shared.Type_at. rewrite index_init. apply H.
Qed.

Lemma agrees_none {A} :
  agrees (fun _ _ => None : option (A * Parser * Shared.TypeMap))
         (fun _ => None).
Proof. intros p. reflexivity. Qed.

Create HintDb agrees discriminated.

Ltac agrees_step :=
  cbv beta iota zeta;
  lazymatch goal with
  | |- agrees (Shared.ret _) _ => apply agrees_ret
  | |- agrees (Shared.bind (Shared.Type_at _) _) _ => apply agrees_Type_at
  | |- agrees (Shared.bind _ _) _ => apply agrees_bind; [ | intros ? ]
  | |- agrees (Shared.lift _) _ => apply agrees_lift
  | |- agrees (if ?c then _ else _) _ => destruct c
  | |- agrees (match ?t with _ => _ end) _ => destruct t
  | |- agrees _ _ => solve [ auto with agrees nocore ]
  end.

Ltac agrees_tac := repeat agrees_step.

Lemma agrees_scanType fuel : agrees (Shared.scanType fuel) (scanType fuel).
Proof. unfold Shared.scanType, scanType. agrees_tac. Qed.
#[local] Hint Extern 0 (agrees (Shared.scanType _) _) =>
  apply agrees_scanType : agrees.

Lemma agrees_scanColumn fuel :
  agrees (Shared.scanColumn fuel) (scanColumn fuel).
Proof. unfold Shared.scanColumn, scanColumn. agrees_tac. Qed.
#[local] Hint Extern 0 (agrees (Shared.scanColumn _) _) =>
  apply agrees_scanColumn : agrees.

Lemma agrees_parse_items : forall fuel table,
  agrees (Shared.parse_items fuel table) (parse_items fuel table).
Proof.
  induction fuel as [|fuel IH]; intros table; [apply agrees_none|].
  cbn [Shared.parse_items parse_items]. agrees_tac.
Qed.
#[local] Hint Extern 0 (agrees (Shared.parse_items _ _) _) =>
  apply agrees_parse_items : agrees.

Lemma agrees_parse fuel : agrees (Shared.parse fuel) (parse fuel).
Proof. unfold Shared.parse, parse. agrees_tac. Qed.
#[local] Hint Extern 0 (agrees (Shared.parse _) _) =>
  apply agrees_parse : agrees.

Lemma agrees_Parse_loop : forall fuel schema,
  agrees (Shared.Parse_loop fuel schema) (Parse_loop fuel schema).
Proof.
  induction fuel as [|fuel IH]; intros schema; [apply agrees_none|].
  cbn [Shared.Parse_loop Parse_loop]. agrees_tac.
Qed.

(** While [Type] is as [init] leaves it, the functions of [Shared] are
    the functions of the parser. *)
Lemma Shared_ParseString_init fuel input :
  Shared.ParseString Shared.init fuel input
  = match ParseString fuel input with
    | Some r => Some (r, Shared.init)
    | None => None
    end.
Proof.
  unfold Shared.ParseString, Shared.Parse, ParseString, Parse.
  rewrite (agrees_Parse_loop fuel ∅ (NewParser input)). unfold Shared.lift.
  destruct (Parse_loop fuel ∅ (NewParser input)) as [[r p']|]; reflexivity.
Qed.

(** ** Determinism *)




(** * An input cut where a call stopped *)

(** ** The lexer *)

(** A loop that leaves as much input as it found has given back the
    last rune it read, or has found the end. *)
Ltac same_loop le_lemma :=
  let fuel := fresh "fuel" in
  let IH := fresh "IH" in
  intros fuel; induction fuel as [|fuel IH]; [intros; discriminate|];
  intros *;
  match goal with
  | |- _ ?sc = Some _ -> _ => destruct sc as [l [|c r]]
  end;
  cbn -[read unread]; unfold read; cbn [rest last unread];
  repeat match goal with
  | |- (if ?c then _ else _) = _ -> _ => destruct c
  end;
  intros H Hsame;
  first
    [ injection H as <- <-; reflexivity
    | injection H as <- <-; cbn [rest] in Hsame;
      apply (f_equal String.length) in Hsame; cbn in Hsame; lia
    | exact (IH _ _ _ _ H Hsame)
    | exact (IH _ _ _ _ _ H Hsame)
    | exact (IH _ _ _ H Hsame)
    | apply le_lemma in H; cbn [rest] in *;
      apply (f_equal String.length) in Hsame; cbn in Hsame; lia ].

Lemma scanWhitespace_loop_same : forall fuel buf sc res sc',
  scanWhitespace_loop fuel buf sc = Some (res, sc') ->
  rest sc' = rest sc -> last sc' = None.
Proof. same_loop scanWhitespace_loop_le. Qed.

Lemma scanDigit_loop_same : forall fuel buf sc res sc',
  scanDigit_loop fuel buf sc = Some (res, sc') ->
  rest sc' = rest sc -> last sc' = None.
Proof. same_loop scanDigit_loop_le. Qed.

Lemma scanIdent_loop_same : forall fuel buf sc res sc',
  scanIdent_loop fuel buf sc = Some (res, sc') ->
  rest sc' = rest sc -> last sc' = None.
Proof. same_loop scanIdent_loop_le. Qed.

Lemma readString_same : forall fuel q buf sc res sc',
  readString fuel q buf sc = Some (res, sc') ->
  rest sc' = rest sc -> last sc' = None.
Proof. same_loop readString_le. Qed.

Lemma scanLineComment_same : forall fuel sc res sc',
  scanLineComment fuel sc = Some (res, sc') ->
  rest sc' = rest sc -> last sc' = None.
Proof. same_loop scanLineComment_le. Qed.

Lemma scanInlineComment_same : forall fuel sc res sc',
  scanInlineComment fuel sc = Some (res, sc') ->
  rest sc' = rest sc -> last sc' = None.
Proof.
  induction fuel as [|fuel IH]; [intros; discriminate|].
  intros [l [|c r]] res sc'; rewrite scanInlineComment_S; unfold read at 1;
    cbn [rest].
  - cbn. intros [= <- <-] _. reflexivity.
  - intros H Hsame. exfalso. cbn [rest] in Hsame.
    apply (f_equal String.length) in Hsame. cbn [String.length] in Hsame.
    revert H. destruct (Ascii.eqb c eof).
    { intros [= <- <-]. cbn in Hsame. lia. }
    destruct (Ascii.eqb c "*").
    + destruct (read {| last := Some c; rest := r |}) as [c2 s2] eqn:E.
      apply read_rest_le in E. cbn [rest] in E.
      destruct (Ascii.eqb c2 "/").
      * intros [= <- <-]. lia.
      * intros H. apply scanInlineComment_le in H. lia.
    + intros H. apply scanInlineComment_le in H. cbn [rest] in H. lia.
Qed.

Lemma append_length (x y : string) :
  String.length (x ++ y) = (String.length x + String.length y)%nat.
Proof.
  induction x as [|c x IH]; [rewrite append_empty_l; reflexivity|].
  rewrite append_String. cbn [String.length]. rewrite IH. reflexivity.
Qed.

Lemma append_cancel_r (b x y : string) : x ++ b = y ++ b -> x = y.
Proof.
  revert y. induction x as [|c x IH]; intros [|d y] H.
  - reflexivity.
  - apply (f_equal String.length) in H.
    rewrite append_empty_l, append_String in H. cbn [String.length] in H.
    rewrite append_length in H. lia.
  - apply (f_equal String.length) in H.
    rewrite append_empty_l, append_String in H. cbn [String.length] in H.
    rewrite append_length in H. lia.
  - rewrite !append_String in H. injection H as -> H.
    rewrite (IH _ H). reflexivity.
Qed.

Lemma extend_inj b sc1 sc2 : extend b sc1 = extend b sc2 -> sc1 = sc2.
Proof.
  destruct sc1 as [l1 r1], sc2 as [l2 r2]. unfold extend. cbn.
  intros [= -> H]. rewrite (append_cancel_r _ _ _ H). reflexivity.
Qed.

(** After a read, as much input is left as before only at the end of the
    input. *)
Lemma read_from sc ch sc1 :
  read sc = (ch, sc1) ->
  (String.length (rest sc1) <= String.length (rest sc))%nat /\
  (String.length (rest sc1) = String.length (rest sc) ->
   rest sc1 = rest sc /\ last sc1 = None).
Proof.
  unfold read. destruct sc as [l [|c r]]; cbn [rest]; intros [= <- <-];
    cbn; split; auto; lia.
Qed.

Section restrict.

Variable b : string.

(** A loop that starts where [b] starts reads into [b]: it cannot stop
    where [b] starts with a rune still to give back, let alone before. *)
Lemma not_into b' (q' sc' : Scanner) :
  (String.length (rest q') <= String.length b')%nat ->
  (rest q' = b' -> last q' = None) ->
  q' = extend b' sc' -> at_end sc' = false -> False.
Proof.
  intros Hle Hsame -> Hend. destruct sc' as [l' r']. cbn [extend rest last] in *.
  rewrite append_length in Hle.
  destruct r' as [|c r']; cbn [String.length] in Hle; [|lia].
  rewrite append_empty_l in Hsame. rewrite (Hsame eq_refl) in Hend.
  discriminate Hend.
Qed.

Ltac restrict_loop le_lemma same_lemma :=
  let fuel := fresh "fuel" in
  let IH := fresh "IH" in
  intros fuel; induction fuel as [|fuel IH]; [intros; discriminate|];
  intros *;
  match goal with
  | |- _ (extend b ?sc) = Some _ -> _ => destruct sc as [l [|c r]]
  end;
  [ intros H sc' Hq Hend; exfalso;
    pose proof (le_lemma _ _ _ _ _ H) as Hle;
    pose proof (same_lemma _ _ _ _ _ H) as Hsame;
    exact (not_into b _ _ Hle Hsame Hq Hend)
  | unfold extend at 1; cbn [last rest]; rewrite append_String;
    cbn -[read unread extend String.append]; unfold read;
    cbn [rest last unread];
    repeat match goal with
    | |- (if ?c then _ else _) = _ -> _ => destruct c
    end;
    intros H sc' Hq Hend;
    first
      [ injection H as <- <-;
        match goal with
        | |- Some (_, ?s0) = Some (_, ?s1) =>
            assert (Hq' : extend b s0 = extend b s1) by exact Hq;
            apply extend_inj in Hq'; rewrite Hq'; reflexivity
        end
      | match type of H with
        | _ = Some (_, ?q) =>
            apply IH with (q' := q); [ exact H | exact Hq | exact Hend ]
        end ] ].

Lemma scanWhitespace_loop_restrict : forall fuel buf sc res q',
  scanWhitespace_loop fuel buf (extend b sc) = Some (res, q') ->
  forall sc', q' = extend b sc' -> at_end sc' = false ->
  scanWhitespace_loop fuel buf sc = Some (res, sc').
Proof. restrict_loop scanWhitespace_loop_le scanWhitespace_loop_same. Qed.

Lemma scanDigit_loop_restrict : forall fuel buf sc res q',
  scanDigit_loop fuel buf (extend b sc) = Some (res, q') ->
  forall sc', q' = extend b sc' -> at_end sc' = false ->
  scanDigit_loop fuel buf sc = Some (res, sc').
Proof. restrict_loop scanDigit_loop_le scanDigit_loop_same. Qed.

Lemma scanIdent_loop_restrict : forall fuel buf sc res q',
  scanIdent_loop fuel buf (extend b sc) = Some (res, q') ->
  forall sc', q' = extend b sc' -> at_end sc' = false ->
  scanIdent_loop fuel buf sc = Some (res, sc').
Proof. restrict_loop scanIdent_loop_le scanIdent_loop_same. Qed.

Lemma readString_restrict : forall fuel q buf sc res q',
  readString fuel q buf (extend b sc) = Some (res, q') ->
  forall sc', q' = extend b sc' -> at_end sc' = false ->
  readString fuel q buf sc = Some (res, sc').
Proof.
  intros fuel; induction fuel as [|fuel IH]; [intros; discriminate|].
  intros q buf [l [|c r]] res q'.
  - intros H sc' Hq Hend; exfalso.
    pose proof (readString_le _ _ _ _ _ _ H) as Hle.
    pose proof (readString_same _ _ _ _ _ _ H) as Hsame.
    exact (not_into b _ _ Hle Hsame Hq Hend).
  - unfold extend at 1. cbn [last rest]. rewrite append_String.
    rewrite !readString_S. unfold read. cbn [rest].
    destruct (Ascii.eqb c q); intros H sc' Hq Hend.
    + injection H as <- <-.
      assert (Hq' : extend b {| last := Some c; rest := r |} = extend b sc')
        by exact Hq.
      apply extend_inj in Hq'. rewrite Hq'. reflexivity.
    + apply IH with (q' := q'); [exact H|exact Hq|exact Hend].
Qed.

Lemma scanLineComment_restrict : forall fuel sc res q',
  scanLineComment fuel (extend b sc) = Some (res, q') ->
  forall sc', q' = extend b sc' -> at_end sc' = false ->
  scanLineComment fuel sc = Some (res, sc').
Proof.
  intros fuel; induction fuel as [|fuel IH]; [intros; discriminate|].
  intros [l [|c r]] res q'.
  - intros H sc' Hq Hend; exfalso.
    pose proof (scanLineComment_le _ _ _ _ H) as Hle.
    pose proof (scanLineComment_same _ _ _ _ H) as Hsame.
    exact (not_into b _ _ Hle Hsame Hq Hend).
  - unfold extend at 1. cbn [last rest]. rewrite append_String.
    rewrite !scanLineComment_S. unfold read. cbn [rest].
    destruct (Ascii.eqb c "010"); intros H sc' Hq Hend.
    + injection H as <- <-.
      assert (Hq' : extend b {| last := Some c; rest := r |} = extend b sc')
        by exact Hq.
      apply extend_inj in Hq'. rewrite Hq'. reflexivity.
    + apply IH with (q' := q'); [exact H|exact Hq|exact Hend].
Qed.

Lemma scanInlineComment_restrict : forall fuel sc res q',
  scanInlineComment fuel (extend b sc) = Some (res, q') ->
  forall sc', q' = extend b sc' -> at_end sc' = false ->
  scanInlineComment fuel sc = Some (res, sc').
Proof.
  intros fuel; induction fuel as [|fuel IH]; [intros; discriminate|].
  intros [l [|c r]] res q'.
  - intros H sc' Hq Hend; exfalso.
    pose proof (scanInlineComment_le _ _ _ _ H) as Hle.
    pose proof (scanInlineComment_same _ _ _ _ H) as Hsame.
    exact (not_into b _ _ Hle Hsame Hq Hend).
  - unfold extend at 1. cbn [last rest]. rewrite append_String.
    rewrite !scanInlineComment_S. unfold read at 1 3. cbn [rest].
    destruct (Ascii.eqb c eof).
    { intros H sc' Hq Hend. injection H as <- <-.
      assert (Hq' : extend b {| last := Some c; rest := r |} = extend b sc')
        by exact Hq.
      apply extend_inj in Hq'. rewrite Hq'. reflexivity. }
    destruct (Ascii.eqb c "*").
    + destruct r as [|c2 r2].
      * (* the rune after the star is the first of [b] *)
        rewrite append_empty_l. intros H sc' Hq Hend. exfalso.
        destruct (read {| last := Some c; rest := b |}) as [c2 s2] eqn:E.
        destruct (read_from _ _ _ E) as [Hle2 Hsame2]. cbn [rest] in *.
        destruct (Ascii.eqb c2 "/").
        -- injection H as <- <-.
           apply (not_into b s2 sc'); [exact Hle2| |exact Hq|exact Hend].
           intros Heq. apply Hsame2. rewrite Heq. reflexivity.
        -- pose proof (scanInlineComment_le _ _ _ _ H) as Hle.
           pose proof (scanInlineComment_same _ _ _ _ H) as Hsame.
           apply (not_into b q' sc'); [lia| |exact Hq|exact Hend].
           intros Heq. apply Hsame. rewrite Heq. symmetry. apply Hsame2.
           apply (f_equal String.length) in Heq. lia.
      * rewrite append_String. unfold read. cbn [rest].
        destruct (Ascii.eqb c2 "/"); intros H sc' Hq Hend.
        -- injection H as <- <-.
           assert (Hq' : extend b {| last := Some c2; rest := r2 |}
                         = extend b sc') by exact Hq.
           apply extend_inj in Hq'. rewrite Hq'. reflexivity.
        -- apply IH with (q' := q'); [exact H|exact Hq|exact Hend].
    + intros H sc' Hq Hend.
      apply IH with (q' := q'); [exact H|exact Hq|exact Hend].
Qed.

Lemma Scan_restrict fuel sc tok lit q' :
  Scan fuel (extend b sc) = Some (tok, lit, q') ->
  forall sc', q' = extend b sc' -> at_end sc' = false ->
  Scan fuel sc = Some (tok, lit, sc').
Proof.
  destruct sc as [l [|c r]].
  { intros H sc' Hq Hend. exfalso.
    assert (H0 : Scan fuel {| last := l; rest := b |} = Some (tok, lit, q'))
      by exact H.
    apply (not_into b q' sc'); [| |exact Hq|exact Hend].
    - destruct (Scan_rest_shorter _ _ _ _ _ H0) as [(Hb & _ & Hq')|Hlt];
        cbn [rest] in *; [rewrite Hq', Hb; lia|lia].
    - intros Heq.
      destruct (Scan_rest_shorter _ _ _ _ _ H0) as [(Hb & _ & Hq')|Hlt];
        cbn [rest] in *.
      + rewrite Scan_exhausted in H0 by exact Hb.
        injection H0 as _ _ <-. reflexivity.
      + rewrite Heq in Hlt. lia. }
  unfold extend at 1. cbn [last rest]. rewrite append_String.
  unfold Scan, read. cbn [rest unread last].
  destruct (isWhitespace c).
  { unfold scanWhitespace, read. cbn [rest].
    destruct (scanWhitespace_loop fuel _ {| last := Some c; rest := r ++ b |})
      as [[buf s3]|] eqn:E; [|discriminate].
    intros [= <- <- <-] sc' Hq Hend.
    assert (E' : scanWhitespace_loop fuel (WriteRune EmptyString c)
                   (extend b {| last := Some c; rest := r |}) = Some (buf, s3))
      by exact E.
    rewrite (scanWhitespace_loop_restrict _ _ _ _ _ E' _ Hq Hend).
    reflexivity. }
  destruct (isLetter c).
  { unfold scanIdent, read. cbn [rest].
    destruct (scanIdent_loop fuel _ {| last := Some c; rest := r ++ b |})
      as [[buf s3]|] eqn:E; [|discriminate].
    intros [= <- <- <-] sc' Hq Hend.
    assert (E' : scanIdent_loop fuel (WriteRune EmptyString c)
                   (extend b {| last := Some c; rest := r |}) = Some (buf, s3))
      by exact E.
    rewrite (scanIdent_loop_restrict _ _ _ _ _ E' _ Hq Hend).
    reflexivity. }
  destruct (isDigit c).
  { unfold scanDigit, read. cbn [rest].
    destruct (scanDigit_loop fuel _ {| last := Some c; rest := r ++ b |})
      as [[buf s3]|] eqn:E; [|discriminate].
    intros [= <- <- <-] sc' Hq Hend.
    assert (E' : scanDigit_loop fuel (WriteRune EmptyString c)
                   (extend b {| last := Some c; rest := r |}) = Some (buf, s3))
      by exact E.
    rewrite (scanDigit_loop_restrict _ _ _ _ _ E' _ Hq Hend).
    reflexivity. }
  destruct (Ascii.eqb c "'" || Ascii.eqb c "`").
  { unfold scanString, read. cbn [rest].
    destruct (Ascii.eqb c "`").
    - destruct (readString fuel "`" EmptyString
                  {| last := Some c; rest := r ++ b |})
        as [[buf s3]|] eqn:E; [|discriminate].
      intros [= <- <- <-] sc' Hq Hend.
      assert (E' : readString fuel "`" EmptyString
                     (extend b {| last := Some c; rest := r |}) = Some (buf, s3))
        by exact E.
      rewrite (readString_restrict _ _ _ _ _ _ E' _ Hq Hend). reflexivity.
    - destruct (Ascii.eqb c "'").
      + destruct (readString fuel "'" EmptyString
                    {| last := Some c; rest := r ++ b |})
          as [[buf s3]|] eqn:E; [|discriminate].
        intros [= <- <- <-] sc' Hq Hend.
        assert (E' : readString fuel "'" EmptyString
                       (extend b {| last := Some c; rest := r |})
                     = Some (buf, s3)) by exact E.
        rewrite (readString_restrict _ _ _ _ _ _ E' _ Hq Hend). reflexivity.
      + intros [= <- <- <-] sc' Hq Hend.
        assert (Hq' : extend b {| last := Some c; rest := r |} = extend b sc')
          by exact Hq.
        apply extend_inj in Hq'. rewrite Hq'. reflexivity. }
  destruct (Ascii.eqb c "/").
  { destruct r as [|c2 r2].
    - (* the next rune is the first of [b] *)
      rewrite append_empty_l. intros H sc' Hq Hend. exfalso.
      assert (Hr : read {| last := Some c; rest := b |}
                   = match b with
                     | EmptyString => (eof, {| last := None; rest := EmptyString |})
                     | String ch r => (ch, {| last := Some ch; rest := r |})
                     end) by reflexivity.
      rewrite <- Hr in H. clear Hr.
      destruct (read {| last := Some c; rest := b |}) as [c2 s2] eqn:E.
      destruct (read_from _ _ _ E) as [Hle2 Hsame2]. cbn [rest] in *.
      assert (Hu : rest (unread (unread s2)) = b)
        by (rewrite unread_unread; exact (read_unread_rest _ _ _ E)).
      assert (Hu1 : rest (unread s2) = b)
        by exact (read_unread_rest _ _ _ E).
      destruct (Ascii.eqb c2 "*").
      + pose proof (scanInlineComment_le _ _ _ _ H) as Hle.
        pose proof (scanInlineComment_same _ _ _ _ H) as Hsame.
        rewrite Hu in Hle, Hsame.
        exact (not_into b _ _ Hle Hsame Hq Hend).
      + injection H as _ _ <-.
        apply (not_into b (unread s2) sc'); [| |exact Hq|exact Hend].
        * rewrite Hu1. lia.
        * intros _. unfold unread. destruct s2 as [[d|] r2]; cbn in *;
            [reflexivity|].
          apply Hsame2. apply (f_equal String.length) in Hu1. exact Hu1.
    - rewrite append_String. cbn [rest unread last].
      destruct (Ascii.eqb c2 "*").
      + intros H sc' Hq Hend.
        assert (H' : scanInlineComment fuel
                       (extend b {| last := None; rest := String c2 r2 |})
                     = Some (tok, lit, q')) by exact H.
        exact (scanInlineComment_restrict _ _ _ _ H' _ Hq Hend).
      + intros [= <- <- <-] sc' Hq Hend.
        assert (Hq' : extend b {| last := None; rest := String c2 r2 |}
                      = extend b sc') by exact Hq.
        apply extend_inj in Hq'. rewrite Hq'. reflexivity. }
  assert (Hone : forall t0 l0,
            Some (t0, l0, {| last := Some c; rest := r ++ b |})
            = Some (tok, lit, q') ->
            forall sc', q' = extend b sc' -> at_end sc' = false ->
            Some (t0, l0, {| last := Some c; rest := r |})
            = Some (tok, lit, sc')).
  { intros t0 l0 [= <- <- <-] sc' Hq Hend.
    assert (Hq' : extend b {| last := Some c; rest := r |} = extend b sc')
      by exact Hq.
    apply extend_inj in Hq'. rewrite Hq'. reflexivity. }
  destruct (Ascii.eqb c eof); [apply Hone|].
  destruct (Ascii.eqb c ","); [apply Hone|].
  destruct (Ascii.eqb c "("); [apply Hone|].
  destruct (Ascii.eqb c ")"); [apply Hone|].
  destruct (Ascii.eqb c ";"); [apply Hone|].
  destruct (Ascii.eqb c "="); [apply Hone|].
  destruct (Ascii.eqb c "-"); [|apply Hone].
  destruct r as [|c2 r2].
  - rewrite append_empty_l. intros H sc' Hq Hend. exfalso.
    assert (Hr : read {| last := Some c; rest := b |}
                 = match b with
                   | EmptyString => (eof, {| last := None; rest := EmptyString |})
                   | String ch r => (ch, {| last := Some ch; rest := r |})
                   end) by reflexivity.
    rewrite <- Hr in H. clear Hr.
    destruct (read {| last := Some c; rest := b |}) as [c2 s2] eqn:E.
    destruct (read_from _ _ _ E) as [Hle2 Hsame2]. cbn [rest] in *.
    destruct (Ascii.eqb c2 "-").
    + pose proof (scanLineComment_le _ _ _ _ H) as Hle.
      pose proof (scanLineComment_same _ _ _ _ H) as Hsame.
      apply (not_into b q' sc'); [lia| |exact Hq|exact Hend].
      intros Heq. apply Hsame. rewrite Heq. symmetry. apply Hsame2.
      apply (f_equal String.length) in Heq. lia.
    + injection H as _ _ <-.
      apply (not_into b s2 sc'); [exact Hle2| |exact Hq|exact Hend].
      intros Heq. apply Hsame2. rewrite Heq. reflexivity.
  - rewrite append_String. cbn [rest unread last].
    destruct (Ascii.eqb c2 "-").
    + intros H sc' Hq Hend.
      assert (H' : scanLineComment fuel
                     (extend b {| last := Some c2; rest := r2 |})
                   = Some (tok, lit, q')) by exact H.
      exact (scanLineComment_restrict _ _ _ _ H' _ Hq Hend).
    + intros [= <- <- <-] sc' Hq Hend.
      assert (Hq' : extend b {| last := Some c2; rest := r2 |} = extend b sc')
        by exact Hq.
      apply extend_inj in Hq'. rewrite Hq'. reflexivity.
Qed.

End restrict.

(** ** The parser on an input without what follows it *)

Lemma suffix_of_trans a b c : suffix_of a b -> suffix_of b c -> suffix_of a c.
Proof.
  intros Hab Hbc. induction Hbc as [|b c0 c _ IH]; [exact Hab|].
  apply suffix_of_cons, IH, Hab.
Qed.

Lemma suffix_of_append a b : suffix_of a b -> exists pre, b = pre ++ a.
Proof.
  induction 1 as [a|a c b _ [pre ->]].
  - exists EmptyString. reflexivity.
  - exists (String c pre). reflexivity.
Qed.

Lemma suffix_of_same_length a b :
  suffix_of a b -> (String.length b <= String.length a)%nat -> a = b.
Proof.
  intros H Hle. destruct H as [a|a c b H]; [reflexivity|].
  apply suffix_of_length in H. cbn [String.length] in Hle. lia.
Qed.

Lemma append_assoc (x y z : string) : (x ++ y) ++ z = x ++ (y ++ z).
Proof.
  induction x as [|c x IH]; [reflexivity|].
  rewrite !append_String, IH. reflexivity.
Qed.

Lemma step_refl sc : step sc sc.
Proof. split; [apply suffix_of_refl|intros _; right; reflexivity]. Qed.

Lemma step_trans sc0 sc1 sc2 : step sc0 sc1 -> step sc1 sc2 -> step sc0 sc2.
Proof.
  intros [H1 S1] [H2 S2]. split; [exact (suffix_of_trans _ _ _ H2 H1)|].
  intros Heq.
  pose proof (suffix_of_length _ _ H1) as L1.
  pose proof (suffix_of_length _ _ H2) as L2.
  assert (E1 : rest sc1 = rest sc0)
    by (apply suffix_of_same_length; [exact H1|rewrite <- Heq; exact L2]).
  assert (E2 : rest sc2 = rest sc1) by (rewrite E1; exact Heq).
  destruct (S2 E2) as [Hn| ->]; [left; exact Hn|].
  exact (S1 E1).
Qed.

(** A scanner that went on to a place before [b] was before [b]. *)
Lemma step_back b sc1 sc2 s2 :
  step sc1 sc2 -> sc2 = extend b s2 -> at_end s2 = false ->
  exists s1, sc1 = extend b s1 /\ at_end s1 = false.
Proof.
  intros [Hsuf Hsame] -> Hend.
  destruct (suffix_of_append _ _ Hsuf) as [pre Hpre].
  cbn [extend rest] in Hpre.
  exists {| last := last sc1; rest := pre ++ rest s2 |}. split.
  - destruct sc1 as [l1 r1]. cbn [rest last] in *. unfold extend.
    cbn [last rest]. rewrite append_assoc, Hpre. reflexivity.
  - destruct (last sc1) as [c|] eqn:Hl; [reflexivity|].
    destruct pre as [|c pre]; [|reflexivity].
    destruct (rest s2) as [|c r2] eqn:Hr; [|reflexivity].
    exfalso. destruct s2 as [[c|] r2]; cbn [rest] in Hr; subst r2;
      [|discriminate Hend].
    destruct Hsame as [Hn|Heq].
    + cbn [extend rest last]. rewrite Hpre. reflexivity.
    + discriminate Hn.
    + rewrite <- Heq in Hl. discriminate Hl.
Qed.

Lemma Scan_rest_suffix fuel sc tok lit sc' :
  Scan fuel sc = Some (tok, lit, sc') -> suffix_of (rest sc') (rest sc).
Proof.
  destruct sc as [l r]. cbn [rest]. intros H.
  assert (H' : Scan fuel {| last := None; rest := r |} = Some (tok, lit, sc'))
    by exact H.
  apply (Scan_keeps (fun str => suffix_of str r)) in H'.
  - cbn beta in H'. destruct sc' as [[c|] r']; cbn in *;
      [apply suffix_of_tail in H'|]; exact H'.
  - intros c r0. apply suffix_of_tail.
  - apply suffix_of_refl.
Qed.

Lemma Scan_step fuel sc tok lit sc' :
  Scan fuel sc = Some (tok, lit, sc') -> step sc sc'.
Proof.
  intros H. split; [exact (Scan_rest_suffix _ _ _ _ _ H)|].
  intros Heq. left.
  destruct (Scan_rest_shorter _ _ _ _ _ H) as [(Hr & _ & _)|Hlt].
  - rewrite Scan_exhausted in H by exact Hr. injection H as _ _ <-.
    reflexivity.
  - rewrite Heq in Hlt. lia.
Qed.

(** The token [SEMI_COLON] is read from the rune [;] and from nothing
    else. *)
Lemma Scan_semi fuel sc lit sc' :
  Scan fuel sc = Some (SEMI_COLON, lit, sc') -> last sc' = Some ";"%char.
Proof.
  unfold Scan. intros H.
  destruct (read sc) as [ch sc1] eqn:E.
  destruct (isWhitespace ch).
  { unfold scanWhitespace in H.
    destruct (read (unread sc1)) as [ch' sc2].
    destruct (scanWhitespace_loop fuel _ sc2) as [[buf sc3]|];
      discriminate H. }
  destruct (isLetter ch).
  { unfold scanIdent in H.
    destruct (read (unread sc1)) as [ch' sc2].
    destruct (scanIdent_loop fuel _ sc2) as [[buf sc3]|]; [|discriminate H].
    injection H as Hk _ _.
    destruct (keyword_spelling _ _ (eq_refl (keyword (ToUpper buf))))
      as [Hi|Hs]; [congruence|].
    rewrite Hk in Hs. discriminate Hs. }
  destruct (isDigit ch).
  { unfold scanDigit in H.
    destruct (read (unread sc1)) as [ch' sc2].
    destruct (scanDigit_loop fuel _ sc2) as [[buf sc3]|]; discriminate H. }
  destruct (Ascii.eqb ch "'" || Ascii.eqb ch "`").
  { unfold scanString in H.
    destruct (read (unread sc1)) as [ch' sc2].
    destruct (Ascii.eqb ch' "`").
    - destruct (readString fuel _ _ sc2) as [[buf sc3]|]; discriminate H.
    - destruct (Ascii.eqb ch' "'").
      + destruct (readString fuel _ _ sc2) as [[buf sc3]|]; discriminate H.
      + discriminate H. }
  destruct (Ascii.eqb ch "/").
  { destruct (read sc1) as [c sc2].
    destruct (Ascii.eqb c "*").
    - apply scanInlineComment_result in H as [[?|?] _]; discriminate.
    - discriminate H. }
  destruct (Ascii.eqb ch eof); [discriminate H|].
  destruct (Ascii.eqb ch ","); [discriminate H|].
  destruct (Ascii.eqb ch "("); [discriminate H|].
  destruct (Ascii.eqb ch ")"); [discriminate H|].
  destruct (Ascii.eqb_spec ch ";").
  { subst ch. injection H as _ <-. unfold read in E.
    destruct sc as [l [|c r]]; cbn [rest] in E;
      [discriminate E|injection E as -> <-; reflexivity]. }
  destruct (Ascii.eqb ch "="); [discriminate H|].
  destruct (Ascii.eqb ch "-"); [|discriminate H].
  destruct (read sc1) as [c sc2].
  destruct (Ascii.eqb c "-").
  - apply scanLineComment_result in H as [? _]. discriminate.
  - discriminate H.
Qed.

Section restricts.

Variable b : string.

Lemma extend_parser_inj p1 p2 :
  extend_parser b p1 = extend_parser b p2 -> p1 = p2.
Proof.
  destruct p1 as [s1 t1 l1 n1], p2 as [s2 t2 l2 n2]. intros H.
  pose proof (f_equal s H) as Hs. pose proof (f_equal buf_tok H) as Ht.
  pose proof (f_equal buf_lit H) as Hl. pose proof (f_equal buf_n H) as Hn.
  cbn [extend_parser s buf_tok buf_lit buf_n] in Hs, Ht, Hl, Hn.
  apply extend_inj in Hs. subst. reflexivity.
Qed.

Lemma restricts_ret {A} (a : A) : restricts b (ret a).
Proof.
  intros q a' q' [= <- <-]. split; [apply step_refl|]. split; [auto|].
  intros p p' -> Hq _. apply extend_parser_inj in Hq. subst p'. reflexivity.
Qed.

Lemma extend_parser_back q1 q2 p2 :
  step (s q1) (s q2) -> q2 = extend_parser b p2 -> at_end (s p2) = false ->
  exists p1, q1 = extend_parser b p1 /\ at_end (s p1) = false.
Proof.
  intros Hstep -> Hend.
  destruct (step_back b (s q1) _ (s p2) Hstep eq_refl Hend) as (s1 & Hs & He).
  exists {| s := s1; buf_tok := buf_tok q1; buf_lit := buf_lit q1;
            buf_n := buf_n q1 |}.
  split; [|exact He]. destruct q1 as [sq t l n]. cbn [s] in Hs. subst sq.
  reflexivity.
Qed.

Lemma restricts_bind {A B} (m : M A) (k : A -> M B) :
  restricts b m -> (forall a, restricts b (k a)) -> restricts b (bind m k).
Proof.
  intros Hm Hk q r q2 H. unfold bind in H.
  destruct (m q) as [[a q1]|] eqn:E; [|discriminate].
  destruct (Hm _ _ _ E) as (S1 & I1 & R1).
  destruct (Hk a _ _ _ H) as (S2 & I2 & R2).
  split; [exact (step_trans _ _ _ S1 S2)|]. split; [auto|].
  intros p p2 Hq Hq2 Hend.
  destruct (extend_parser_back q1 q2 p2 S2 Hq2 Hend) as (p1 & Hq1 & Hend1).
  unfold bind. rewrite (R1 p p1 Hq Hq1 Hend1). exact (R2 p1 p2 Hq1 Hq2 Hend).
Qed.

Lemma restricts_none {A} :
  restricts b (fun _ => None : option (A * Parser)).
Proof. intros q a q' H. discriminate H. Qed.

Lemma restricts_unscan : restricts b unscan.
Proof.
  intros q [] q' [= <-]. cbn [s]. split; [apply step_refl|].
  split; [intros Hq; exact Hq|].
  intros p p' -> Hq' _. unfold unscan. f_equal. f_equal.
  apply extend_parser_inj. rewrite <- Hq'. reflexivity.
Qed.

Lemma restricts_scan fuel : restricts b (scan fuel).
Proof.
  intros q [tok lit] q' H. unfold scan in H.
  destruct (negb (buf_n q =? 0)%Z) eqn:En.
  - injection H as <- <- <-. cbn [s]. split; [apply step_refl|].
    split; [intros Hq; exact Hq|].
    intros p p' -> Hq' _. unfold scan.
    cbn [extend_parser buf_n] in En. rewrite En. f_equal. f_equal.
    apply extend_parser_inj. rewrite <- Hq'. reflexivity.
  - destruct (Scan fuel (s q)) as [[[t l] s']|] eqn:E; [|discriminate].
    injection H as <- <- <-. cbn [s]. split; [exact (Scan_step _ _ _ _ _ E)|].
    split.
    + intros _ Ht. cbn [buf_tok s] in *. subst t.
      exact (Scan_semi _ _ _ _ E).
    + intros p p' -> Hq' Hend. unfold scan.
      cbn [extend_parser buf_n s] in En, E. rewrite En.
      destruct p' as [sp' t' l' n'].
      pose proof (f_equal s Hq') as Hs. pose proof (f_equal buf_tok Hq') as Ht.
      pose proof (f_equal buf_lit Hq') as Hl.
      pose proof (f_equal buf_n Hq') as Hn.
      cbn [extend_parser s buf_tok buf_lit buf_n] in Hs, Ht, Hl, Hn, Hend.
      subst t' l' n'.
      rewrite (Scan_restrict b _ _ _ _ _ E sp' Hs Hend). reflexivity.
Qed.

Create HintDb restricts discriminated.

Ltac restricts_step :=
  cbv beta iota zeta;
  lazymatch goal with
  | |- restricts _ (ret _) => apply restricts_ret
  | |- restricts _ (bind _ _) => apply restricts_bind; [ | intros ? ]
  | |- restricts _ (if ?c then _ else _) => destruct c
  | |- restricts _ (match ?t with _ => _ end) => destruct t
  | |- restricts _ _ => solve [ auto with restricts nocore ]
  end.

Ltac restricts_tac := repeat restricts_step.

Ltac restricts_loop unf :=
  let fuel := fresh "fuel" in
  let IH := fresh "IH" in
  intros fuel; induction fuel as [|fuel IH]; intros;
  [ apply restricts_none | unf; restricts_tac ].

#[local] Hint Extern 0 (restricts _ unscan) => apply restricts_unscan
  : restricts.
#[local] Hint Extern 0 (restricts _ (scan _)) => apply restricts_scan
  : restricts.

Lemma restricts_scanIgnoreWhitespace fuel :
  restricts b (scanIgnoreWhitespace fuel).
Proof. unfold scanIgnoreWhitespace. restricts_tac. Qed.
#[local] Hint Extern 0 (restricts _ (scanIgnoreWhitespace _)) =>
  apply restricts_scanIgnoreWhitespace : restricts.

Lemma restricts_Parser_scanIdent fuel : restricts b (Parser_scanIdent fuel).
Proof. unfold Parser_scanIdent. restricts_tac. Qed.
#[local] Hint Extern 0 (restricts _ (Parser_scanIdent _)) =>
  apply restricts_Parser_scanIdent : restricts.

Lemma restricts_scanType fuel : restricts b (scanType fuel).
Proof. unfold scanType. restricts_tac. Qed.
#[local] Hint Extern 0 (restricts _ (scanType _)) =>
  apply restricts_scanType : restricts.

Lemma restricts_scanDefault fuel : restricts b (scanDefault fuel).
Proof. unfold scanDefault. restricts_tac. Qed.
#[local] Hint Extern 0 (restricts _ (scanDefault _)) =>
  apply restricts_scanDefault : restricts.

Lemma restricts_scanColumn_loop : forall fuel column,
  restricts b (scanColumn_loop fuel column).
Proof. restricts_loop ltac:(cbn [scanColumn_loop]). Qed.
#[local] Hint Extern 0 (restricts _ (scanColumn_loop _ _)) =>
  apply restricts_scanColumn_loop : restricts.

Lemma restricts_scanColumn fuel : restricts b (scanColumn fuel).
Proof. unfold scanColumn. restricts_tac. Qed.
#[local] Hint Extern 0 (restricts _ (scanColumn _)) =>
  apply restricts_scanColumn : restricts.

Lemma restricts_scanParenIdent fuel : restricts b (scanParenIdent fuel).
Proof. unfold scanParenIdent. restricts_tac. Qed.
#[local] Hint Extern 0 (restricts _ (scanParenIdent _)) =>
  apply restricts_scanParenIdent : restricts.

Lemma restricts_scanPrimaryKey fuel : restricts b (scanPrimaryKey fuel).
Proof. unfold scanPrimaryKey. restricts_tac. Qed.
#[local] Hint Extern 0 (restricts _ (scanPrimaryKey _)) =>
  apply restricts_scanPrimaryKey : restricts.

Lemma restricts_scanKey fuel : restricts b (scanKey fuel).
Proof. unfold scanKey. restricts_tac. Qed.
#[local] Hint Extern 0 (restricts _ (scanKey _)) =>
  apply restricts_scanKey : restricts.

Lemma restricts_scanConstraint fuel : restricts b (scanConstraint fuel).
Proof. unfold scanConstraint. restricts_tac. Qed.
#[local] Hint Extern 0 (restricts _ (scanConstraint _)) =>
  apply restricts_scanConstraint : restricts.

Lemma restricts_scanKV fuel : restricts b (scanKV fuel).
Proof. unfold scanKV. restricts_tac. Qed.
#[local] Hint Extern 0 (restricts _ (scanKV _)) =>
  apply restricts_scanKV : restricts.

Lemma restricts_scanExtra_loop : forall fuel extras,
  restricts b (scanExtra_loop fuel extras).
Proof. restricts_loop ltac:(cbn [scanExtra_loop]). Qed.

Lemma restricts_scanExtra fuel : restricts b (scanExtra fuel).
Proof. apply restricts_scanExtra_loop. Qed.
#[local] Hint Extern 0 (restricts _ (scanExtra _)) =>
  apply restricts_scanExtra : restricts.

Lemma restricts_parse_skip : forall fuel, restricts b (parse_skip fuel).
Proof. restricts_loop ltac:(cbn [parse_skip]). Qed.
#[local] Hint Extern 0 (restricts _ (parse_skip _)) =>
  apply restricts_parse_skip : restricts.

Lemma restricts_parse_head : forall fuel, restricts b (parse_head fuel).
Proof. restricts_loop ltac:(cbn [parse_head]). Qed.
#[local] Hint Extern 0 (restricts _ (parse_head _)) =>
  apply restricts_parse_head : restricts.

Lemma restricts_parse_items : forall fuel table,
  restricts b (parse_items fuel table).
Proof. restricts_loop ltac:(cbn [parse_items]). Qed.
#[local] Hint Extern 0 (restricts _ (parse_items _ _)) =>
  apply restricts_parse_items : restricts.

Lemma restricts_parse fuel : restricts b (parse fuel).
Proof. unfold parse. restricts_tac. Qed.

End restricts.

(** ** From a run of [Parse] to the statements of the input *)

Lemma parse_items_semi : forall fuel table,
  hoare (fun _ => True) (parse_items fuel table)
        (fun r p' => forall t, r = Ok t -> buf_tok p' = SEMI_COLON).
Proof.
  induction fuel as [|fuel IH]; intros table;
    [intros p a p' _ H; discriminate|].
  cbn [parse_items].
  eapply hoare_bind; [apply hoare_scanIgnoreWhitespace|]. intros [tok lit].
  cbn [fst]. destruct tok; cbv beta iota; try hoare_other.
  - (* IDENT *)
    hoare_skip. hoare_skip. destruct a0 as [col|e]; [|hoare_other].
    hoare_true IH.
  - (* COMMA *) hoare_true IH.
  - (* SEMI_COLON *)
    apply hoare_ret. intros p [Ht _] t _. exact Ht.
  - (* CLOSE_PAREN *)
    eapply hoare_bind; [apply hoare_scanIgnoreWhitespace|]. intros [tok1 lit1].
    cbn [fst]. destruct (negb (Token_eqb tok1 SEMI_COLON)) eqn:E.
    + hoare_skip.
      eapply hoare_bind;
        [hoare_true scanExtra_loop_between|].
      intros [extras|e]; cbv beta iota; [|hoare_other].
      apply hoare_ret. intros p Hp t _. apply (Hp extras). reflexivity.
    + apply negb_false_iff, Token_eqb_eq in E. subst tok1.
      apply hoare_ret. intros p [Ht _] t _. exact Ht.
  - (* KEY *)
    hoare_skip. hoare_skip. destruct a0 as [[index col]|e]; [|hoare_other].
    hoare_true IH.
  - (* UNIQUE *)
    hoare_skip. destruct a as [[k v]|e]; [|hoare_other].
    hoare_true IH.
  - (* CONSTRAINT *)
    hoare_skip. hoare_skip. destruct a0 as [cos|e]; [|hoare_other].
    hoare_true IH.
  - (* PRIMARY *)
    hoare_skip. hoare_skip. destruct a0 as [key|e]; [|hoare_other].
    hoare_true IH.
Qed.

(** When [parse] returns a table, the buffer holds the [SEMI_COLON] that
    ended the statement. *)
Lemma parse_table_semi fuel :
  hoare (fun _ => True) (parse fuel)
        (fun r p' => forall t, r = Ok (Some t) -> buf_tok p' = SEMI_COLON).
Proof.
  unfold parse. hoare_skip. destruct a as [[|]|e]; cbv beta iota;
    try hoare_other.
  hoare_skip. destruct a as [tok lit].
  destruct (negb (Token_eqb tok TABLE)); [hoare_other|].
  hoare_skip. destruct a as [tok1 lit1].
  destruct (Token_eqb tok1 IDENT); [|hoare_other].
  cbv zeta. hoare_skip. destruct a as [tok2 lit2].
  destruct (negb (Token_eqb tok2 OPEN_PAREN)); [hoare_other|].
  eapply hoare_bind; [hoare_true parse_items_semi|].
  intros [t|e]; cbv beta iota; [|hoare_other].
  apply hoare_ret. intros p Hp t' _. apply (Hp t). reflexivity.
Qed.

(** What [parse] returns from where a statement ended, it returns from
    the start of the input that is left. *)
Lemma parse_back fuel q r :
  parse fuel q = Some r -> between_statements q ->
  parse fuel (NewParser (rest (s q))) = Some r.
Proof.
  intros H [Hn|[Ht Hn]].
  - rewrite <- H. apply parse_fresh; [reflexivity|reflexivity|exact Hn].
  - destruct q as [sq bt bl bn]. cbn [s buf_tok buf_lit buf_n] in *.
    subst bt bn.
    set (q0 := {| s := sq; buf_tok := SEMI_COLON; buf_lit := bl; buf_n := 0 |}).
    assert (H0 : parse fuel q0 = Some r).
    { destruct fuel as [|fuel]; [discriminate H|].
      assert (Hhead : parse_head (S fuel)
                        {| s := sq; buf_tok := SEMI_COLON; buf_lit := bl;
                           buf_n := 1 |}
                      = parse_head fuel q0) by reflexivity.
      unfold parse, bind in H. rewrite Hhead in H.
      destruct (parse_head fuel q0) as [[h p1]|] eqn:E; [|discriminate H].
      unfold parse, bind.
      rewrite (parse_head_mono fuel (S fuel) ltac:(lia) _ _ E). exact H. }
    rewrite <- H0. apply parse_fresh; reflexivity.
Qed.

(** A table that [parse] returns comes from a statement at the start of
    the input, which [parse] reads alone into the same table. *)
Lemma parse_alone_back fuel input t q1 :
  parse fuel (NewParser input) = Some (Ok (Some t), q1) ->
  exists stmt,
    input = stmt ++ rest (s q1) /\ parses_alone stmt t /\
    between_statements q1.
Proof.
  intros H.
  destruct (restricts_parse (rest (s q1)) fuel _ _ _ H) as ([Hsuf _] & Hsemi & R).
  pose proof (parse_table_semi fuel _ _ _ I H t eq_refl) as Ht.
  assert (Hlast : last (s q1) = Some ";"%char).
  { apply Hsemi; [intros Hi; discriminate Hi|exact Ht]. }
  destruct (suffix_of_append _ _ Hsuf) as [stmt Hin].
  cbn [NewParser NewScanner s rest] in Hin.
  exists stmt. split; [exact Hin|]. split.
  - exists fuel,
      {| s := {| last := Some ";"%char; rest := EmptyString |};
         buf_tok := buf_tok q1; buf_lit := buf_lit q1; buf_n := buf_n q1 |}.
    split; [|reflexivity]. apply R.
    + rewrite Hin. reflexivity.
    + destruct q1 as [[l1 r1] t1 l1' n1]. cbn [s last rest] in *. subst l1.
      reflexivity.
    + reflexivity.
  - exact (parse_table_between fuel _ _ _ I H t eq_refl).
Qed.

Lemma Parse_loop_back : forall fuel schema q schema' oe p_end,
  Parse_loop fuel schema q = Some ((schema', oe), p_end) ->
  between_statements q ->
  exists stmts ts tail f r p',
    rest (s q) = statements stmts tail /\
    Forall2 parses_alone stmts ts /\
    parse f (NewParser tail) = Some (r, p') /\
    ends_Parse r /\ oe = error_of r /\
    schema' = commit schema ts.
Proof.
  induction fuel as [|fuel IH]; intros schema q schema' oe p_end H Hq;
    [discriminate H|].
  cbn [Parse_loop] in H. unfold bind in H.
  destruct (parse fuel q) as [[r q1]|] eqn:E; [|discriminate H].
  pose proof (parse_back _ _ _ E Hq) as E0.
  destruct r as [[t|]|e0].
  - destruct (parse_alone_back _ _ _ _ E0) as (stmt & Hin & Hstmt & Hq1).
    destruct (IH _ _ _ _ _ H Hq1)
      as (stmts & ts & tail & f & r & p' & Hrest & Hall & Htail & Hr & Hoe
          & Hschema).
    exists (stmt :: stmts), (t :: ts), tail, f, r, p'.
    split; [|split; [|split; [|split; [|split]]]].
    + cbn [statements fold_right]. rewrite Hin. f_equal. exact Hrest.
    + constructor; assumption.
    + exact Htail.
    + exact Hr.
    + exact Hoe.
    + exact Hschema.
  - injection H as <- <- _.
    exists nil, nil, (rest (s q)), fuel, (Ok None), q1.
    split; [reflexivity|]. split; [constructor|]. split; [exact E0|].
    split; [exact I|]. split; reflexivity.
  - injection H as <- <- _.
    exists nil, nil, (rest (s q)), fuel, (Err e0), q1.
    split; [reflexivity|]. split; [constructor|]. split; [exact E0|].
    split; [exact I|]. split; reflexivity.
Qed.

Lemma ParseString_back fuel input schema r :
  ends_Parse r ->
  ParseString fuel input = Some (schema, error_of r) ->
  statements_then r input schema.
Proof.
  unfold ParseString, Parse. intros Hr H.
  destruct (Parse_loop fuel ∅ (NewParser input)) as [[res p_end]|] eqn:E;
    [|discriminate H].
  injection H as ->.
  destruct (Parse_loop_back _ _ _ _ _ _ E (or_introl eq_refl))
    as (stmts & ts & tail & f & r' & p' & Hrest & Hall & Htail & Hr' & Hoe
        & Hschema).
  assert (r' = r) as ->.
  { destruct r as [[t|]|e], r' as [[t'|]|e']; cbn in Hr, Hr', Hoe;
      try contradiction; try discriminate Hoe; [reflexivity|].
    injection Hoe as ->. reflexivity. }
  exists stmts, ts, tail, f, p'. auto.
Qed.

Lemma ParseString_forth input schema r :
  ends_Parse r -> statements_then r input schema ->
  exists fuel0, forall fuel, (fuel0 <= fuel)%nat ->
    ParseString fuel input = Some (schema, error_of r).
Proof.
  intros Hr (stmts & ts & tail & f & p_end & -> & Hstmts & Htail & ->).
  exact (ParseString_statements stmts ts tail f r p_end Hstmts Htail Hr).
Qed.

Lemma parse_functional f1 f2 p r1 r2 :
  parse f1 p = Some r1 -> parse f2 p = Some r2 -> r1 = r2.
Proof.
  intros H1 H2. destruct (Nat.le_ge_cases f1 f2) as [Hle|Hle].
  - apply (parse_mono _ _ Hle) in H1. congruence.
  - apply (parse_mono _ _ Hle) in H2. congruence.
Qed.

(** On an input that begins with a statement, [parse] returns its
    table. *)
Lemma parse_first_statement stmt t tail f r p :
  parses_alone stmt t -> parse f (NewParser (stmt ++ tail)) = Some (r, p) ->
  r = Ok (Some t) /\ rest (s p) = tail.
Proof.
  intros Hstmt H.
  destruct (parse_statement stmt t (NewParser (stmt ++ tail)) tail Hstmt
              eq_refl (or_introl eq_refl)) as (f1 & q1 & P1 & R1 & _).
  pose proof (parse_functional _ _ _ _ _ H (P1 (S f1) (Nat.le_refl _))) as Heq.
  injection Heq as -> ->. split; [reflexivity|exact R1].
Qed.

Lemma statements_unique stmts ts :
  Forall2 parses_alone stmts ts ->
  forall stmts' ts' tail tail' f f' r r' p p',
    Forall2 parses_alone stmts' ts' ->
    statements stmts tail = statements stmts' tail' ->
    parse f (NewParser tail) = Some (r, p) -> ends_Parse r ->
    parse f' (NewParser tail') = Some (r', p') -> ends_Parse r' ->
    stmts = stmts' /\ ts = ts' /\ tail = tail' /\ r = r'.
Proof.
  induction 1 as [|stmt t stmts ts Hstmt Hall IH];
    intros stmts' ts' tail tail' f f' r r' p p' Hall' Heq Ht Hr Ht' Hr';
    destruct Hall' as [|stmt' t' stmts' ts' Hstmt' Hall'];
    cbn [statements fold_right] in Heq.
  - subst tail'. pose proof (parse_functional _ _ _ _ _ Ht Ht') as [= -> _].
    auto.
  - exfalso. rewrite Heq in Ht.
    destruct (parse_first_statement _ _ _ _ _ _ Hstmt' Ht) as [-> _].
    exact Hr.
  - exfalso. rewrite <- Heq in Ht'.
    destruct (parse_first_statement _ _ _ _ _ _ Hstmt Ht') as [-> _].
    exact Hr'.
  - assert (Heq' : stmt ++ statements stmts tail
                   = stmt' ++ statements stmts' tail') by exact Heq.
    clear Heq.
    destruct (parse_statement stmt t (NewParser (stmt ++ statements stmts tail))
                _ Hstmt eq_refl (or_introl eq_refl))
      as (f1 & q1 & P1 & R1 & _).
    pose proof (P1 (S f1) (Nat.le_refl _)) as E1.
    pose proof E1 as E2. rewrite Heq' in E2.
    destruct (parse_first_statement _ _ _ _ _ _ Hstmt' E2) as [Heqt R2].
    injection Heqt as <-.
    assert (Htails : statements stmts tail = statements stmts' tail')
      by (rewrite <- R1; exact R2).
    rewrite <- Htails in Heq'. apply append_cancel_r in Heq'. subst stmt'.
    destruct (IH _ _ _ _ _ _ _ _ _ _ Hall' Htails Ht Hr Ht' Hr')
      as (-> & -> & -> & ->).
    auto.
Qed.

(** C7, amended.  [Parse] returns a non-nil error [e] and a schema exactly
    when the input is statements, one after the other, each of which
    [parse] reads alone, up to the [;] that ends it, into a table,
    followed by a rest on which [parse] fails with [e], and the schema is
    the one built from the tables of these statements in their order,
    [schema[t.Name] = t] for each.  So the returned schema holds nothing
    of the rest that caused the error; every table parsed before it has
    its name in the schema, and is itself the entry unless a later
    statement before the failure created a table of the same name.  The
    result is the same on every fuel that is large enough. *)
Theorem Parse_error_statements input schema e :
  ((exists fuel, ParseString fuel input = Some (schema, Some e)) ->
   statements_then (Err e) input schema) /\
  (statements_then (Err e) input schema ->
   exists fuel0, forall fuel, (fuel0 <= fuel)%nat ->
     ParseString fuel input = Some (schema, Some e)) /\
  (forall ts : list Table,
     (forall k t, commit ∅ ts !! k = Some t -> In t ts /\ Table_Name t = k) /\
     (forall t, In t ts -> is_Some (commit ∅ ts !! Table_Name t)) /\
     (forall pre t post, ts = (pre ++ t :: post)%list ->
        ~ In (Table_Name t) (map Table_Name post) ->
        commit ∅ ts !! Table_Name t = Some t)).
Proof.
  split; [|split].
  - intros [fuel H]. exact (ParseString_back fuel input schema (Err e) I H).
  - exact (ParseString_forth input schema (Err e) I).
  - exact commit_entries.
Qed.

Lemma Parse_error_statements_witness :
  statements_then (Err (Errorf "found %q, expected NULL" [ArgLit "NUL"]))
    (stmt_t_a ++ stmt_u ++ " CREATE TABLE `v` (`id` int NOT NUL);")
    (commit ∅ [table_t_a; table_u]) /\
  (exists fuel0, forall fuel, (fuel0 <= fuel)%nat ->
     ParseString fuel
       (statements [stmt_t_a; stmt_u] " CREATE TABLE `v` (`id` int NOT NUL);")
     = Some (commit ∅ [table_t_a; table_u],
             Some (Errorf "found %q, expected NULL" [ArgLit "NUL"]))).
Proof.
  split.
  - apply (proj1 (Parse_error_statements _ _ _)). exists 30%nat.
    vm_compute. reflexivity.
  - apply (proj1 (proj2 (Parse_error_statements _ _ _))).
    exists [stmt_t_a; stmt_u], [table_t_a; table_u],
      " CREATE TABLE `v` (`id` int NOT NUL);"%string, 20%nat,
      {| s := {| last := None; rest := ");" |};
         buf_tok := IDENT; buf_lit := "NUL"; buf_n := 0 |}.
    split; [reflexivity|]. split; [|split; [vm_compute; reflexivity|reflexivity]].
    constructor; [exact parses_alone_stmt_t_a|].
    constructor; [exact parses_alone_stmt_u|]. constructor.
Defined.



(** X20.  An input is cut in one way only into statements that [parse]
    reads alone, each up to the [;] that ends it, into tables, and a rest
    on which [parse] returns no table (an error, or [nil, nil]): the
    statements, their tables, the rest and what [parse] returns on the
    rest are determined by the input. *)
Theorem Parse_statements_unique stmts ts tail f r p stmts' ts' tail' f' r' p' :
  Forall2 parses_alone stmts ts ->
  parse f (NewParser tail) = Some (r, p) -> ends_Parse r ->
  Forall2 parses_alone stmts' ts' ->
  parse f' (NewParser tail') = Some (r', p') -> ends_Parse r' ->
  statements stmts tail = statements stmts' tail' ->
  stmts = stmts' /\ ts = ts' /\ tail = tail' /\ r = r'.
Proof.
  intros Hall Ht Hr Hall' Ht' Hr' Heq.
  exact (statements_unique stmts ts Hall stmts' ts' tail tail' f f' r r' p p'
           Hall' Heq Ht Hr Ht' Hr').
Qed.

Lemma Parse_statements_unique_witness :
  [stmt_t_a; stmt_u] = [stmt_t_a; stmt_u] /\
  [table_t_a; table_u] = [table_t_a; table_u] /\
  " CREATE"%string = " CREATE"%string /\
  (Err (Errorf "found CREATE %q, expected CREATE TABLE" [ArgLit "EOF"])
     : result (option Table))
  = Err (Errorf "found CREATE %q, expected CREATE TABLE" [ArgLit "EOF"]).
Proof.
  assert (Hall : Forall2 parses_alone [stmt_t_a; stmt_u] [table_t_a; table_u]).
  { constructor; [exact parses_alone_stmt_t_a|].
    constructor; [exact parses_alone_stmt_u|]. constructor. }
  apply (Parse_statements_unique [stmt_t_a; stmt_u] [table_t_a; table_u]
           " CREATE" 20
           (Err (Errorf "found CREATE %q, expected CREATE TABLE" [ArgLit "EOF"]))
           {| s := {| last := None; rest := EmptyString |};
              buf_tok := EOF; buf_lit := "EOF"; buf_n := 0 |}
           [stmt_t_a; stmt_u] [table_t_a; table_u] " CREATE" 30
           (Err (Errorf "found CREATE %q, expected CREATE TABLE" [ArgLit "EOF"]))
           {| s := {| last := None; rest := EmptyString |};
              buf_tok := EOF; buf_lit := "EOF"; buf_n := 0 |}).
  - exact Hall.
  - vm_compute. reflexivity.
  - exact I.
  - exact Hall.
  - vm_compute. reflexivity.
  - exact I.
  - reflexivity.
Defined.
